(** * URL shortener: a shallow embedding of the service and its utilities

    The development follows the layout of the repository:
    - [JsString]      the string operations of the platform the code uses;
    - [JsNumber]      the Number type: IEEE 754 binary64, on the standard
                      library's specification of floating-point arithmetic;
    - [UrlShortener]  utils/urlShortener.js (codes, base 62, URL checks);
    - [Backend]       the relational store (schema of init-db.js), the
                      cache helpers of config/redis.js and the query helper
                      of config/database.js, over an explicit world;
    - [UrlService]    services/urlService.js;
    - [Collision]     vocabulary for the collision loop of createShortUrl;
    - [Server]        the redirect route of server.js;
    - [Examples]      concrete stores, caches and worlds.
    Properties are stated and proved after the definitions. *)

From Stdlib Require Import ZArith NArith List String Ascii Bool Lia.
From Stdlib Require Import SpecFloat.
From stdpp Require Import base option list gmap.

Local Open Scope N_scope.

(** ** Strings *)

Module JsString.

(** A string is its sequence of UTF-16 code units. *)
Definition jsstring := list N.

(** String literals of the source (all of them are ASCII). *)
Definition js (s : string) : jsstring :=
  List.map N_of_ascii (list_ascii_of_string s).

(** The code units [String.prototype.trim] removes: the WhiteSpace and
    LineTerminator productions of the language. *)
Definition isWhiteSpace (c : N) : bool :=
  (9 <=? c) && (c <=? 13)
  || (c =? 32) || (c =? 160) || (c =? 5760)
  || (8192 <=? c) && (c <=? 8202)
  || (c =? 8232) || (c =? 8233) || (c =? 8239) || (c =? 8287)
  || (c =? 12288) || (c =? 65279).

Fixpoint trimStart (s : jsstring) : jsstring :=
  match s with
  | c :: s' => if isWhiteSpace c then trimStart s' else s
  | [] => []
  end.

Definition trimEnd (s : jsstring) : jsstring := rev (trimStart (rev s)).

Definition trim (s : jsstring) : jsstring := trimEnd (trimStart s).

(** One pattern character against one code unit under the [i] flag (no
    [u] flag): a lowercase ASCII letter of the pattern also matches its
    uppercase form, every other character only itself. *)
Definition eq_ci (p c : N) : bool :=
  (c =? p) || ((97 <=? p) && (p <=? 122) && (c =? p - 32)).

(** [pat] matches at the start of [s], ignoring ASCII case. *)
Fixpoint startsWith_ci (pat s : jsstring) : bool :=
  match pat, s with
  | [], _ => true
  | p :: pat', c :: s' => eq_ci p c && startsWith_ci pat' s'
  | _ :: _, [] => false
  end.

(** [s.match(/^https?:\/\//i)] as a test. *)
Definition matchesScheme (s : jsstring) : bool :=
  startsWith_ci (js "http://") s || startsWith_ci (js "https://") s.

(** [s.replace(/\/$/, '')]: the pattern matches a slash that is the last
    code unit of the input, and the first match only is replaced. *)
Definition removeTrailingSlash (s : jsstring) : jsstring :=
  match rev s with
  | c :: r => if c =? 47 then rev r else s
  | [] => s
  end.

(** [s[i]] for a numeric index: the code unit as a string of length one,
    or [undefined], which [+] on strings turns into the text
    "undefined". [None] is an index that is not a number (NaN). *)
Definition charAt_concat (s : jsstring) (i : option N) : jsstring :=
  match i with
  | Some k =>
      match s !! N.to_nat k with
      | Some c => [c]
      | None => js "undefined"
      end
  | None => js "undefined"
  end.

(** [s.indexOf(c)] for a one-unit string [c]: the first position, or -1. *)
Fixpoint indexOf (s : jsstring) (c : N) : Z :=
  match s with
  | [] => (-1)%Z
  | d :: s' =>
      if d =? c then 0%Z
      else let k := indexOf s' c in if (k <? 0)%Z then (-1)%Z else (k + 1)%Z
  end.

End JsString.
Import JsString.

(** ** Numbers *)

Module JsNumber.
Local Open Scope Z_scope.

Definition prec : Z := 53.
Definition emax : Z := 1024.

(** A Number is a binary64 value. *)
Definition number : Type := spec_float.

Definition zero : number := S754_zero false.

(** The Number nearest to an integer (the integer itself up to 2^53). *)
Definition of_Z (z : Z) : number := binary_normalize prec emax z 0 false.

Definition plus : number -> number -> number := SFadd prec emax.
Definition times : number -> number -> number := SFmul prec emax.
Definition divide : number -> number -> number := SFdiv prec emax.

(** [x > y] and [x === y] on Numbers. *)
Definition gt (x y : number) : bool := SFltb y x.
Definition strict_eq (x y : number) : bool := SFeqb x y.

(** [Math.floor(x)]: a finite value with a negative exponent is cut to
    the integer below it; every other value is its own floor. *)
Definition floor (x : number) : number :=
  match x with
  | S754_finite s m e =>
      if 0 <=? e then x else of_Z (cond_Zopp s (Zpos m) / 2 ^ (- e))
  | _ => x
  end.

(** [x % d] for a positive integer [d]: the exact remainder of the
    truncated division, with the sign of [x]. *)
Definition remainder (x : number) (d : Z) : number :=
  match x with
  | S754_nan | S754_infinity _ => S754_nan
  | S754_zero _ => x
  | S754_finite s m e =>
      let r := if 0 <=? e then (Zpos m * 2 ^ e) mod d
               else Zpos m mod (d * 2 ^ (- e)) in
      if r =? 0 then S754_zero s
      else binary_normalize prec emax (cond_Zopp s r) (Z.min e 0) false
  end.

(** The integer a Number stands for, when it is one. *)
Definition to_Z (x : number) : option Z :=
  match x with
  | S754_zero _ => Some 0
  | S754_finite s m e =>
      if 0 <=? e then Some (cond_Zopp s (Zpos m * 2 ^ e))
      else if Zpos m mod 2 ^ (- e) =? 0
           then Some (cond_Zopp s (Zpos m / 2 ^ (- e)))
           else None
  | _ => None
  end.

(** A Number used as the index of [s[i]]: a non-negative integer selects
    a position, anything else names no element. *)
Definition to_index (x : number) : option N :=
  match to_Z x with
  | Some z => if 0 <=? z then Some (Z.to_N z) else None
  | None => None
  end.

(** The binary64 form of an integer from 0 up to 2^53: +0, or a 53-bit
    mantissa and the exponent that goes with it. *)
Definition canon (n : Z) : number :=
  if n =? 0 then zero
  else S754_finite false (Z.to_pos (n * 2 ^ (52 - Z.log2 n))) (Z.log2 n - 52).

End JsNumber.
Import JsNumber.

(** ** The secure random source *)

Module Crypto.

(** The bytes [crypto.randomBytes] will hand out, and how many it has
    handed out so far. *)
Record rng := { entropy : nat -> N; drawn : nat }.

(** [crypto.randomBytes(n)]: the next [n] bytes. *)
Definition randomBytes (n : nat) (g : rng) : list N * rng :=
  (List.map (fun i => entropy g (drawn g + i)%nat mod 256) (seq 0 n),
   {| entropy := entropy g; drawn := (drawn g + n)%nat |}).

End Crypto.
Import Crypto.

(** ** utils/urlShortener.js *)

Module UrlShortener.

Definition BASE62_CHARS : jsstring :=
  js "0123456789abcdefghijklmnopqrstuvwxyzABCDEFGHIJKLMNOPQRSTUVWXYZ".

(** The body of the [for] loop of [generateShortCode], for the indices
    [i, i+1, ..., i+n-1]. [bytes[i]] outside the buffer is [undefined]
    and [undefined % 62] is NaN. *)
Fixpoint generateShortCode_loop (bytes : list N) (i n : nat)
    (shortCode : jsstring) : jsstring :=
  match n with
  | O => shortCode
  | S n' =>
      generateShortCode_loop bytes (S i) n'
        (shortCode ++ charAt_concat BASE62_CHARS
                        ((fun b => b mod 62) <$> bytes !! i))
  end.

Definition generateShortCode (length : nat) (g : rng) : jsstring * rng :=
  let '(bytes, g') := randomBytes length g in
  (generateShortCode_loop bytes 0 length [], g').

(** The [while (num > 0)] loop of [encodeBase62]; [None] when it is still
    running after [fuel] iterations. *)
Fixpoint encodeBase62_loop (fuel : nat) (num : number) (encoded : jsstring)
    : option jsstring :=
  match fuel with
  | O => if gt num zero then None else Some encoded
  | S fuel' =>
      if gt num zero then
        encodeBase62_loop fuel'
          (floor (divide num (of_Z 62)))
          (charAt_concat BASE62_CHARS (to_index (remainder num 62)) ++ encoded)
      else Some encoded
  end.

Definition encodeBase62 (fuel : nat) (num : number) : option jsstring :=
  if strict_eq num zero then Some (charAt_concat BASE62_CHARS (Some 0%N))
  else encodeBase62_loop fuel num [].

(** The body of the [for] loop of [decodeBase62] at the code unit [c]. *)
Definition decodeBase62_step (decoded : number) (c : N) : number :=
  plus (times decoded (of_Z 62)) (of_Z (indexOf BASE62_CHARS c)).

Definition decodeBase62 (str : jsstring) : number :=
  fold_left decodeBase62_step str zero.

(** What the platform's [URL] constructor yields; only [protocol] is read. *)
Record URL := { protocol : jsstring }.

(** A completion of an expression: a value, or a thrown TypeError. *)
Inductive completion (A : Type) : Type :=
| Normal (a : A)
| Throw.
Arguments Normal {A} a.
Arguments Throw {A}.

Definition try_catch {A} (body : completion A) (handler : completion A)
    : completion A :=
  match body with
  | Normal a => Normal a
  | Throw => handler
  end.

Definition jsstring_eqb (a b : jsstring) : bool := bool_decide (a = b).

(** Digits, lowercase letters and uppercase letters. *)
Definition isAlphanumeric (c : N) : bool :=
  (48 <=? c) && (c <=? 57) || (97 <=? c) && (c <=? 122)
  || (65 <=? c) && (c <=? 90).

Section Validation.
(** [new URL(url)]: the parsed URL, or [None] when the constructor
    throws. The parser belongs to the platform. *)
Variable new_URL : jsstring -> option URL.

Definition construct_URL (url : jsstring) : completion URL :=
  match new_URL url with
  | Some u => Normal u
  | None => Throw
  end.

Definition isValidUrl (url : jsstring) : completion bool :=
  try_catch
    (match construct_URL url with
     | Normal urlObj =>
         Normal (jsstring_eqb (protocol urlObj) (js "http:")
                 || jsstring_eqb (protocol urlObj) (js "https:"))
     | Throw => Throw
     end)
    (Normal false).
End Validation.

Definition normalizeUrl (url : jsstring) : jsstring :=
  let normalized := trim url in
  let normalized :=
    if negb (matchesScheme normalized)
    then js "https://" ++ normalized
    else normalized in
  removeTrailingSlash normalized.

(** The last code unit of [s] is a slash or one that [trim] removes. *)
Definition endsWithSlashOrSpace (s : jsstring) : bool :=
  match last s with
  | Some c => (c =? 47) || isWhiteSpace c
  | None => false
  end.

End UrlShortener.
Import UrlShortener.

(** ** The store, the cache and the world a request runs in *)

Module Backend.

(** What a request can end with instead of a value. *)
Inductive error : Type :=
| TypeError             (* thrown by the platform *)
| InvalidUrl            (* Error('Invalid URL format') *)
| CodeSpaceExhausted    (* Error('Failed to generate unique short code') *)
| ConstraintViolation   (* urls.short_code is UNIQUE *)
| ForeignKeyViolation   (* clicks.short_code REFERENCES urls(short_code) *)
| NotNullViolation      (* urls.short_code is NOT NULL *)
| ValueTooLong          (* a VARCHAR(n) column *)
| IntegerOutOfRange     (* urls.click_count is INTEGER *)
| StoreUnavailable      (* the pool cannot run the statement *)
| CacheUnavailable.     (* the redis client rejects the command *)

Inductive result (A : Type) : Type :=
| Ok (a : A)
| Err (e : error).
Arguments Ok {A} a.
Arguments Err {A} e.

(** *** The relational schema *)

Record url_row := {
  id : Z;
  short_code : jsstring;
  original_url : jsstring;
  created_at : Z;
  click_count : Z;
  last_accessed : option Z }.

Record click_row := {
  click_id : Z;
  click_short_code : jsstring;
  clicked_at : Z;
  ip_address : option jsstring;
  user_agent : option jsstring;
  referrer : option jsstring }.

(** Both tables in insertion order, and the two SERIAL sequences. *)
Record database := {
  urls : list url_row;
  clicks : list click_row;
  urls_id_seq : Z;
  clicks_id_seq : Z }.

Definition INTEGER_MAX : Z := 2147483647.

(** SELECT ... FROM urls WHERE original_url = $1 *)
Definition select_by_url (url : jsstring) (d : database) : list url_row :=
  List.filter (fun r => jsstring_eqb (original_url r) url) (urls d).

(** SELECT ... FROM urls WHERE short_code = $1 *)
Definition select_by_code (code : jsstring) (d : database) : list url_row :=
  List.filter (fun r => jsstring_eqb (short_code r) code) (urls d).

(** INSERT INTO urls (short_code, original_url) VALUES ($1, $2) RETURNING ...
    at time [t]. [None] is a parameter that is [undefined]. The sequence
    is advanced whether or not the row is accepted. *)
Definition insert_url (code : option jsstring) (url : jsstring) (t : Z)
    (d : database) : result url_row * database :=
  let d' := {| urls := urls d; clicks := clicks d;
               urls_id_seq := (urls_id_seq d + 1)%Z;
               clicks_id_seq := clicks_id_seq d |} in
  match code with
  | None => (Err NotNullViolation, d')
  | Some c =>
      if (10 <? length c)%nat then (Err ValueTooLong, d')
      else
        match select_by_code c d with
        | _ :: _ => (Err ConstraintViolation, d')
        | [] =>
            let row := {| id := urls_id_seq d; short_code := c;
                          original_url := url; created_at := t;
                          click_count := 0; last_accessed := None |} in
            (Ok row,
             {| urls := urls d ++ [row]; clicks := clicks d;
                urls_id_seq := (urls_id_seq d + 1)%Z;
                clicks_id_seq := clicks_id_seq d |})
        end
  end.

Definition click_row_update (t : Z) (r : url_row) : url_row :=
  {| id := id r; short_code := short_code r; original_url := original_url r;
     created_at := created_at r;
     click_count := (click_count r + 1)%Z;
     last_accessed := Some t |}.

(** UPDATE urls SET click_count = click_count + 1,
    last_accessed = CURRENT_TIMESTAMP WHERE short_code = $1 *)
Definition update_clicks (code : jsstring) (t : Z) (d : database)
    : result unit * database :=
  if existsb (fun r => (INTEGER_MAX <=? click_count r)%Z) (select_by_code code d)
  then (Err IntegerOutOfRange, d)
  else
    (Ok tt,
     {| urls := List.map (fun r => if jsstring_eqb (short_code r) code
                                   then click_row_update t r else r) (urls d);
        clicks := clicks d;
        urls_id_seq := urls_id_seq d;
        clicks_id_seq := clicks_id_seq d |}).

Definition too_long (n : nat) (v : option jsstring) : bool :=
  match v with
  | Some s => (n <? length s)%nat
  | None => false
  end.

(** INSERT INTO clicks (short_code, ip_address, user_agent, referrer)
    VALUES ($1, $2, $3, $4) *)
Definition insert_click (code : jsstring) (ip ua ref : option jsstring)
    (t : Z) (d : database) : result unit * database :=
  let d' := {| urls := urls d; clicks := clicks d;
               urls_id_seq := urls_id_seq d;
               clicks_id_seq := (clicks_id_seq d + 1)%Z |} in
  if (10 <? length code)%nat || too_long 45 ip then (Err ValueTooLong, d')
  else
    match select_by_code code d with
    | [] => (Err ForeignKeyViolation, d')
    | _ :: _ =>
        (Ok tt,
         {| urls := urls d;
            clicks := clicks d ++
              [{| click_id := clicks_id_seq d; click_short_code := code;
                  clicked_at := t; ip_address := ip; user_agent := ua;
                  referrer := ref |}];
            urls_id_seq := urls_id_seq d;
            clicks_id_seq := (clicks_id_seq d + 1)%Z |})
    end.

(** *** The cache *)

(** The value kept under [url:<shortCode>]. *)
Record cache_entry := { originalUrl : jsstring; shortCode : jsstring }.

(** The two key families of the cache never overlap (their first code
    units differ), so each is kept as a map of its own, keyed by the
    short code: [url_keys !! c] is the value under [url:c] and
    [clicks_keys !! c] the counter under [clicks:c]. Expiry is not
    represented. *)
Record redis := {
  url_keys : gmap jsstring cache_entry;
  clicks_keys : gmap jsstring Z }.

Definition INT64_MAX : Z := 9223372036854775807.

(** *** The world *)

(** What happens around one awaited call: nothing, the call fails (the
    backend is unreachable or times out), or another request's INSERT
    into [urls] lands just before the call runs. *)
Inductive interference : Type :=
| Quiet
| Outage
| ConcurrentInsert (code url : jsstring).

(** The calls a request makes, in order. *)
Inductive io_event : Type :=
| SelectByUrl (url : jsstring)
| SelectByCode (code : jsstring)
| InsertUrl (code : option jsstring) (url : jsstring)
| UpdateClicks (code : jsstring)
| InsertClick (code : jsstring)
| CacheGet (code : jsstring)
| CacheSet (code : jsstring)
| CacheIncr (code : jsstring).

Definition is_concurrent_write (i : interference) : bool :=
  match i with
  | ConcurrentInsert _ _ => true
  | _ => false
  end.

(** No other request writes to the store while this one runs. *)
Definition no_concurrent_writer (e : list interference) : Prop :=
  Forall (fun i => is_concurrent_write i = false) e.

Record world := {
  db : database;
  cache : redis;
  random : rng;
  now : Z;                       (* CURRENT_TIMESTAMP *)
  env : list interference;       (* one entry per awaited call; none left: quiet *)
  log : list io_event }.         (* the calls made so far, oldest first *)

Definition set_db (d : database) (w : world) : world :=
  {| db := d; cache := cache w; random := random w; now := now w;
     env := env w; log := log w |}.

Definition set_cache (c : redis) (w : world) : world :=
  {| db := db w; cache := c; random := random w; now := now w;
     env := env w; log := log w |}.

Definition set_random (g : rng) (w : world) : world :=
  {| db := db w; cache := cache w; random := g; now := now w;
     env := env w; log := log w |}.

(** The world after the calls [evs] were made without interference and
    without any effect on the stored data. *)
Definition logged (evs : list io_event) (w : world) : world :=
  {| db := db w; cache := cache w; random := random w; now := now w;
     env := env w; log := log w ++ evs |}.

(** A computation of the service: it ends with a value or an error and
    leaves a world behind. *)
Definition M (A : Type) : Type := world -> result A * world.

Definition ret {A} (a : A) : M A := fun w => (Ok a, w).

Definition throw {A} (e : error) : M A := fun w => (Err e, w).

Definition bind {A B} (m : M A) (k : A -> M B) : M B :=
  fun w =>
    match m w with
    | (Ok a, w') => k a w'
    | (Err e, w') => (Err e, w')
    end.

(** try { body } catch (error) { handler } *)
Definition try_ {A} (body : M A) (handler : error -> M A) : M A :=
  fun w =>
    match body w with
    | (Ok a, w') => (Ok a, w')
    | (Err e, w') => handler e w'
    end.

Definition of_completion {A} (c : completion A) : M A :=
  match c with
  | Normal a => ret a
  | Throw => throw TypeError
  end.

(** The start of an awaited call: it is logged, the next entry of [env]
    is consumed, and a concurrent insert, if any, is applied. The
    boolean tells whether the call itself fails. *)
Definition await (ev : io_event) (w : world) : bool * world :=
  let w1 := {| db := db w; cache := cache w; random := random w;
               now := now w; env := tl (env w); log := log w ++ [ev] |} in
  match env w with
  | [] | Quiet :: _ => (false, w1)
  | Outage :: _ => (true, w1)
  | ConcurrentInsert c u :: _ =>
      (false, set_db (snd (insert_url (Some c) u (now w) (db w))) w1)
  end.

(** [query] of config/database.js around one statement: an error of the
    pool is logged and thrown again. *)
Definition query {A} (ev : io_event)
    (statement : Z -> database -> result A * database) : M A :=
  fun w =>
    let '(failed, w1) := await ev w in
    if failed then (Err StoreUnavailable, w1)
    else let '(r, d) := statement (now w1) (db w1) in (r, set_db d w1).

(** The commands of the redis client. *)
Definition redisClient_get (code : jsstring) : M (option cache_entry) :=
  fun w =>
    let '(failed, w1) := await (CacheGet code) w in
    if failed then (Err CacheUnavailable, w1)
    else (Ok (url_keys (cache w1) !! code), w1).

Definition redisClient_setEx (code : jsstring) (value : cache_entry) : M unit :=
  fun w =>
    let '(failed, w1) := await (CacheSet code) w in
    if failed then (Err CacheUnavailable, w1)
    else (Ok tt,
          set_cache {| url_keys := <[code := value]> (url_keys (cache w1));
                       clicks_keys := clicks_keys (cache w1) |} w1).

Definition redisClient_incr (code : jsstring) : M Z :=
  fun w =>
    let '(failed, w1) := await (CacheIncr code) w in
    if failed then (Err CacheUnavailable, w1)
    else
      let n := default 0%Z (clicks_keys (cache w1) !! code) in
      if (INT64_MAX <=? n)%Z then (Err CacheUnavailable, w1)
      else (Ok (n + 1)%Z,
            set_cache {| url_keys := url_keys (cache w1);
                         clicks_keys := <[code := (n + 1)%Z]> (clicks_keys (cache w1)) |} w1).

(** The [cache] helpers of config/redis.js: every error is caught. *)
Definition cache_get (code : jsstring) : M (option cache_entry) :=
  try_ (redisClient_get code) (fun _ => ret None).

Definition cache_set (code : jsstring) (value : cache_entry) : M bool :=
  try_ (bind (redisClient_setEx code value) (fun _ => ret true))
       (fun _ => ret false).

Definition cache_incr (code : jsstring) : M (option Z) :=
  try_ (bind (redisClient_incr code) (fun result => ret (Some result)))
       (fun _ => ret None).

(** [crypto.randomBytes] behind [generateShortCode], on the world's source. *)
Definition generateShortCodeM (length : nat) : M jsstring :=
  fun w =>
    let '(code, g) := generateShortCode length (random w) in
    (Ok code, set_random g w).

End Backend.
Import Backend.

Declare Scope service_scope.
Delimit Scope service_scope with service.
Notation "'let*' x ':=' m 'in' k" := (bind m (fun x => k))
  (at level 10, x name, m at level 100, k at level 200) : service_scope.

(** ** services/urlService.js *)

Module UrlService.
Local Open Scope service_scope.

(** Click metadata: each property is a string or [undefined]. *)
Record metadata := {
  ipAddress : option jsstring;
  userAgent : option jsstring;
  referrerHeader : option jsstring }.

(** Truthiness of a string-or-undefined value: a non-empty string. *)
Definition truthy (v : option jsstring) : bool :=
  match v with
  | Some (_ :: _) => true
  | _ => false
  end.

(** [v || null] *)
Definition or_null (v : option jsstring) : option jsstring :=
  if truthy v then v else None.

(** What [createShortUrl] returns; [createdAt] is only set for a new row. *)
Record created := {
  createdShortCode : jsstring;
  createdOriginalUrl : jsstring;
  shortUrl : jsstring;
  createdAt : option Z;
  isNew : bool }.

(** What [getOriginalUrl] returns when the code is known. *)
Record resolved := {
  resolvedOriginalUrl : jsstring;
  resolvedShortCode : jsstring;
  source : jsstring }.

Definition maxAttempts : nat := 5.

Section Service.
Variable new_URL : jsstring -> option URL.  (* the platform's URL parser *)
Variable SHORT_CODE_LENGTH : nat.           (* process.env.SHORT_CODE_LENGTH, or 6 *)
Variable BASE_URL : jsstring.               (* process.env.BASE_URL *)

(** The [while (attempts < maxAttempts)] loop of [createShortUrl] on
    its two variables; [fuel] bounds the iterations and [maxAttempts]
    of it is enough. [None] is a [shortCode] still [undefined]. *)
Fixpoint unique_code_loop (fuel : nat) (shortCode : option jsstring)
    (attempts : nat) : M (option jsstring * nat) :=
  match fuel with
  | O => ret (shortCode, attempts)
  | S fuel' =>
      if (attempts <? maxAttempts)%nat then
        let* code := generateShortCodeM SHORT_CODE_LENGTH in
        let* collision :=
          query (SelectByCode code)
                (fun _ d => (Ok (select_by_code code d), d)) in
        match collision with
        | [] => ret (Some code, attempts)                   (* break *)
        | _ :: _ => unique_code_loop fuel' (Some code) (S attempts)
        end
      else ret (shortCode, attempts)
  end.

Definition createShortUrl (originalUrl : jsstring) : M created :=
  let* valid := of_completion (isValidUrl new_URL originalUrl) in
  if negb valid then throw InvalidUrl
  else
    let normalized := normalizeUrl originalUrl in
    let* existingUrl :=
      query (SelectByUrl normalized)
            (fun _ d => (Ok (select_by_url normalized d), d)) in
    match existingUrl with
    | existing :: _ =>
        let* _ := cache_set (short_code existing)
                    {| originalUrl := original_url existing;
                       shortCode := short_code existing |} in
        ret {| createdShortCode := short_code existing;
               createdOriginalUrl := original_url existing;
               shortUrl := BASE_URL ++ js "/" ++ short_code existing;
               createdAt := None;
               isNew := false |}
    | [] =>
        let* found := unique_code_loop maxAttempts None 0 in
        let '(shortCode, attempts) := found in
        if (attempts =? maxAttempts)%nat then throw CodeSpaceExhausted
        else
          let* newUrl :=
            query (InsertUrl shortCode normalized)
                  (insert_url shortCode normalized) in
          let* _ := cache_set (default (js "undefined") shortCode)
                      {| originalUrl := original_url newUrl;
                         shortCode := short_code newUrl |} in
          ret {| createdShortCode := short_code newUrl;
                 createdOriginalUrl := original_url newUrl;
                 shortUrl := BASE_URL ++ js "/" ++ short_code newUrl;
                 createdAt := Some (created_at newUrl);
                 isNew := true |}
    end.
End Service.

Definition getOriginalUrl (code : jsstring) : M (option resolved) :=
  let* cached := cache_get code in
  match cached with
  | Some cached =>
      ret (Some {| resolvedOriginalUrl := originalUrl cached;
                   resolvedShortCode := shortCode cached;
                   source := js "cache" |})
  | None =>
      let* result :=
        query (SelectByCode code)
              (fun _ d => (Ok (select_by_code code d), d)) in
      match result with
      | [] => ret None
      | urlData :: _ =>
          let* _ := cache_set code
                      {| originalUrl := original_url urlData;
                         shortCode := short_code urlData |} in
          ret (Some {| resolvedOriginalUrl := original_url urlData;
                       resolvedShortCode := short_code urlData;
                       source := js "database" |})
      end
  end.

Definition incrementClickCount (code : jsstring) (meta : metadata) : M unit :=
  try_
    (let* _ := query (UpdateClicks code) (update_clicks code) in
     let* _ :=
       if truthy (ipAddress meta) || truthy (userAgent meta)
       then query (InsertClick code)
                  (insert_click code (or_null (ipAddress meta))
                                     (or_null (userAgent meta))
                                     (or_null (referrerHeader meta)))
       else ret tt in
     let* _ := cache_incr code in
     ret tt)
    (fun _ => ret tt).

End UrlService.
Import UrlService.

(** ** Vocabulary for the collision loop *)

Module Collision.

(** The codes the next [n] calls of [generateShortCode(len)] return. *)
Fixpoint candidates (len : nat) (g : rng) (n : nat) : list jsstring :=
  match n with
  | O => []
  | S n' =>
      let '(code, g') := generateShortCode len g in
      code :: candidates len g' n'
  end.

(** The random source after [k] codes of [len] symbols were drawn. *)
Definition rng_after (len : nat) (g : rng) (k : nat) : rng :=
  {| entropy := entropy g; drawn := (drawn g + k * len)%nat |}.

(** Some row of [urls] has the code. *)
Definition taken (d : database) (code : jsstring) : bool :=
  match select_by_code code d with
  | [] => false
  | _ :: _ => true
  end.

(** The first code of the list that no row has. *)
Definition first_free (d : database) (codes : list jsstring) : option jsstring :=
  List.find (fun code => negb (taken d code)) codes.

(** The codes of the list up to and including the first free one. *)
Fixpoint upto_first_free (d : database) (codes : list jsstring) : list jsstring :=
  match codes with
  | [] => []
  | code :: codes' =>
      if taken d code then code :: upto_first_free d codes' else [code]
  end.

(** The values of [shortCode] and [attempts] when the loop is left. *)
Fixpoint loop_outcome (d : database) (codes : list jsstring)
    (shortCode : option jsstring) (attempts : nat) : option jsstring * nat :=
  match codes with
  | [] => (shortCode, attempts)
  | code :: codes' =>
      if taken d code then loop_outcome d codes' (Some code) (S attempts)
      else (Some code, attempts)
  end.

End Collision.
Import Collision.

(** ** server.js: the redirect route *)

Module Server.
Local Open Scope service_scope.

Inductive response : Type :=
| Redirect (status : Z) (location : jsstring)
| NotFound
| InternalServerError.

(** GET /:shortCode with the click metadata read off the request. The
    click is counted by a call whose promise is not awaited and whose
    rejection is only logged; here it runs before the response is sent,
    and its outcome is dropped. *)
Definition redirect_route (code : jsstring) (meta : metadata)
    : world -> response * world :=
  fun w =>
    if existsb (N.eqb 46) code then (NotFound, w)
    else
      match getOriginalUrl code w with
      | (Err _, w1) => (InternalServerError, w1)
      | (Ok None, w1) => (NotFound, w1)
      | (Ok (Some urlData), w1) =>
          let '(_, w2) := incrementClickCount code meta w1 in
          (Redirect 301 (resolvedOriginalUrl urlData), w2)
      end.

End Server.
Import Server.

(** ** Concrete inputs used by the examples *)

Module Examples.

(** A small stand-in for the platform's URL parser: it accepts what
    starts with [http://] or [https://] (any case) followed by a host
    character, accepts [ftp://...] with another scheme, and throws on
    the rest. *)
Definition example_URL (s : jsstring) : option URL :=
  if startsWith_ci (js "http://") s && (7 <? length s)%nat
  then Some {| protocol := js "http:" |}
  else if startsWith_ci (js "https://") s && (8 <? length s)%nat
  then Some {| protocol := js "https:" |}
  else if startsWith_ci (js "ftp://") s
  then Some {| protocol := js "ftp:" |}
  else None.

Definition empty_database : database :=
  {| urls := []; clicks := []; urls_id_seq := 1; clicks_id_seq := 1 |}.

Definition empty_cache : redis := {| url_keys := ∅; clicks_keys := ∅ |}.

(** A world with the given tables, cache, random bytes and interference. *)
Definition world_of (d : database) (c : redis) (bytes : nat -> N)
    (e : list interference) : world :=
  {| db := d; cache := c;
     random := {| entropy := bytes; drawn := 0 |};
     now := 1000; env := e; log := [] |}.

Definition example_row (i : Z) (code url : string) : url_row :=
  {| id := i; short_code := js code; original_url := js url;
     created_at := 10; click_count := 0; last_accessed := None |}.

(** A click that carries a referrer and nothing else. *)
Definition referrer_only : metadata :=
  {| ipAddress := None; userAgent := None;
     referrerHeader := Some (js "https://news.example/") |}.

Definition browser_click : metadata :=
  {| ipAddress := Some (js "203.0.113.7");
     userAgent := Some (js "Mozilla/5.0");
     referrerHeader := None |}.

(** One mapping, [000000 -> https://example.com/a]. *)
Definition one_row_database : database :=
  {| urls := [example_row 1 "000000" "https://example.com/a"];
     clicks := []; urls_id_seq := 2; clicks_id_seq := 1 |}.

(** The store holds that mapping, the cache is empty, nothing interferes. *)
Definition one_row_world : world :=
  world_of one_row_database empty_cache (fun _ => 0) [].

(** The same store behind a cache that is down for the first call. *)
Definition cache_down_world : world :=
  world_of one_row_database empty_cache (fun _ => 0) [Outage; Quiet].

(** The random source yields [000000], [111111], [222222], ... and the
    store already maps the first two of them. *)
Definition two_collisions_world : world :=
  world_of
    {| urls := [example_row 1 "000000" "https://example.com/a";
                example_row 2 "111111" "https://example.com/b"];
       clicks := []; urls_id_seq := 3; clicks_id_seq := 1 |}
    empty_cache (fun i => N.of_nat (i / 6)) [].

(** The store is empty and the first generated code is [000000]; while
    the request waits for its INSERT, another request inserts a row with
    that code. *)
Definition race_world : world :=
  world_of empty_database empty_cache (fun _ => 0)
    [Quiet; Quiet; ConcurrentInsert (js "000000") (js "https://example.org")].

End Examples.
Import Examples.

(** ** The rest of the store and of the cache helpers *)

Module StoreAdmin.

(** What one row of the recent-clicks query carries. *)
Record recent_click := {
  recent_clicked_at : Z;
  recent_ip_address : option jsstring;
  recent_referrer : option jsstring }.

(** ORDER BY clicked_at DESC, one row at a time. The store promises no
    order among rows with equal timestamps; here a row goes before the
    rows of the same timestamp that were placed earlier. *)
Fixpoint insert_by_time (c : click_row) (sorted : list click_row)
    : list click_row :=
  match sorted with
  | [] => [c]
  | x :: sorted' =>
      if (clicked_at x <=? clicked_at c)%Z then c :: x :: sorted'
      else x :: insert_by_time c sorted'
  end.

Definition order_by_time_desc (rows : list click_row) : list click_row :=
  fold_right insert_by_time [] rows.

Definition clicks_of (code : jsstring) (d : database) : list click_row :=
  List.filter (fun c => jsstring_eqb (click_short_code c) code) (clicks d).

(** SELECT clicked_at, ip_address, referrer FROM clicks
    WHERE short_code = $1 ORDER BY clicked_at DESC LIMIT 10 *)
Definition recent_clicks (code : jsstring) (d : database) : list recent_click :=
  List.map (fun c => {| recent_clicked_at := clicked_at c;
                        recent_ip_address := ip_address c;
                        recent_referrer := referrer c |})
           (firstn 10 (order_by_time_desc (clicks_of code d))).

(** DELETE FROM urls WHERE short_code = $1 RETURNING id. The repository
    has two schemas: init-db.js declares [clicks.short_code] with
    ON DELETE CASCADE ([cascade = true]), the SQL schema file declares
    the reference without it ([cascade = false]), and then a row that
    clicks refer to cannot be deleted. *)
Definition delete_url (cascade : bool) (code : jsstring) (d : database)
    : result (list Z) * database :=
  match select_by_code code d with
  | [] => (Ok [], d)
  | row :: rows =>
      if negb cascade && negb (Nat.eqb (length (clicks_of code d)) 0)
      then (Err ForeignKeyViolation, d)
      else
        (Ok (List.map id (row :: rows)),
         {| urls := List.filter
                      (fun r => negb (jsstring_eqb (short_code r) code)) (urls d);
            clicks := if cascade
                      then List.filter
                             (fun c => negb (jsstring_eqb (click_short_code c) code))
                             (clicks d)
                      else clicks d;
            urls_id_seq := urls_id_seq d;
            clicks_id_seq := clicks_id_seq d |})
  end.

(** The start of an awaited call that [io_event] has no name for: the
    next entry of [env] is consumed and a concurrent insert is applied
    as in [await]; [log] is left alone. *)
Definition await_unnamed (w : world) : bool * world :=
  let w1 := {| db := db w; cache := cache w; random := random w;
               now := now w; env := tl (env w); log := log w |} in
  match env w with
  | [] | Quiet :: _ => (false, w1)
  | Outage :: _ => (true, w1)
  | ConcurrentInsert c u :: _ =>
      (false, set_db (snd (insert_url (Some c) u (now w) (db w))) w1)
  end.

(** [query] around a statement that [io_event] has no name for. *)
Definition query_unnamed {A}
    (statement : Z -> database -> result A * database) : M A :=
  fun w =>
    let '(failed, w1) := await_unnamed w in
    if failed then (Err StoreUnavailable, w1)
    else let '(r, d) := statement (now w1) (db w1) in (r, set_db d w1).

(** [redisClient.del] of the key [url:<code>], and of [clicks:<code>]. *)
Definition redisClient_del_url (code : jsstring) : M unit :=
  fun w =>
    let '(failed, w1) := await_unnamed w in
    if failed then (Err CacheUnavailable, w1)
    else (Ok tt,
          set_cache {| url_keys := delete code (url_keys (cache w1));
                       clicks_keys := clicks_keys (cache w1) |} w1).

Definition redisClient_del_clicks (code : jsstring) : M unit :=
  fun w =>
    let '(failed, w1) := await_unnamed w in
    if failed then (Err CacheUnavailable, w1)
    else (Ok tt,
          set_cache {| url_keys := url_keys (cache w1);
                       clicks_keys := delete code (clicks_keys (cache w1)) |} w1).

(** [redisClient.exists] of the key [url:<code>]: 1 or 0. *)
Definition redisClient_exists_url (code : jsstring) : M Z :=
  fun w =>
    let '(failed, w1) := await_unnamed w in
    if failed then (Err CacheUnavailable, w1)
    else (Ok (match url_keys (cache w1) !! code with
              | Some _ => 1%Z
              | None => 0%Z
              end), w1).

(** [cache.del] and [cache.exists] of config/redis.js. *)
Definition cache_del_url (code : jsstring) : M bool :=
  try_ (bind (redisClient_del_url code) (fun _ => ret true))
       (fun _ => ret false).

Definition cache_del_clicks (code : jsstring) : M bool :=
  try_ (bind (redisClient_del_clicks code) (fun _ => ret true))
       (fun _ => ret false).

Definition cache_exists_url (code : jsstring) : M bool :=
  try_ (bind (redisClient_exists_url code) (fun result => ret (result =? 1)%Z))
       (fun _ => ret false).

End StoreAdmin.
Import StoreAdmin.

(** ** services/urlService.js: statistics and deletion *)

Module UrlServiceAdmin.
Local Open Scope service_scope.

(** What [getUrlStats] returns for a known code: the selected columns of
    the row and the recent clicks. *)
Record url_stats := {
  stats_short_code : jsstring;
  stats_original_url : jsstring;
  stats_created_at : Z;
  stats_click_count : Z;
  stats_last_accessed : option Z;
  recentClicks : list recent_click }.

Definition getUrlStats (code : jsstring) : M (option url_stats) :=
  let* result :=
    query (SelectByCode code)
          (fun _ d => (Ok (select_by_code code d), d)) in
  match result with
  | [] => ret None
  | stats :: _ =>
      let* recent :=
        query_unnamed (fun _ d => (Ok (recent_clicks code d), d)) in
      ret (Some {| stats_short_code := short_code stats;
                   stats_original_url := original_url stats;
                   stats_created_at := created_at stats;
                   stats_click_count := click_count stats;
                   stats_last_accessed := last_accessed stats;
                   recentClicks := recent |})
  end.

(** [deleteShortUrl] under the schema with ([cascade = true]) or without
    ([cascade = false]) ON DELETE CASCADE. *)
Definition deleteShortUrl (cascade : bool) (code : jsstring) : M bool :=
  let* _ := cache_del_url code in
  let* _ := cache_del_clicks code in
  let* result := query_unnamed (fun _ => delete_url cascade code) in
  ret (negb (Nat.eqb (length result) 0)).

End UrlServiceAdmin.
Import UrlServiceAdmin.

(** ** routes/urlRoutes.js *)

Module Routes.

(** The JSON body of a response. *)
Inductive body : Type :=
| ShortenData (code shortUrl originalUrl : jsstring) (isNew : bool)
| StatsData (stats : url_stats)
| MessageText (message : jsstring)
| ErrorText (message : jsstring)     (* a fixed text *)
| ErrorMessage (e : error).          (* the message of a caught error *)

Record api_response := { status : Z; payload : body }.

Section Routes.
Variable new_URL : jsstring -> option URL.
Variable SHORT_CODE_LENGTH : nat.
Variable BASE_URL : jsstring.
Variable cascade : bool.

(** POST /api/shorten; [url] is the property of the request body, a
    string or [undefined]. *)
Definition shorten_route (url : option jsstring) : world -> api_response * world :=
  fun w =>
    if negb (truthy url)
    then ({| status := 400; payload := ErrorText (js "URL is required") |}, w)
    else
      match createShortUrl new_URL SHORT_CODE_LENGTH BASE_URL (default [] url) w with
      | (Ok result, w1) =>
          ({| status := if isNew result then 201 else 200;
              payload := ShortenData (createdShortCode result) (shortUrl result)
                           (createdOriginalUrl result) (isNew result) |}, w1)
      | (Err e, w1) => ({| status := 500; payload := ErrorMessage e |}, w1)
      end.

(** GET /api/stats/:shortCode *)
Definition stats_route (code : jsstring) : world -> api_response * world :=
  fun w =>
    match getUrlStats code w with
    | (Ok None, w1) =>
        ({| status := 404; payload := ErrorText (js "Short URL not found") |}, w1)
    | (Ok (Some stats), w1) => ({| status := 200; payload := StatsData stats |}, w1)
    | (Err _, w1) =>
        ({| status := 500; payload := ErrorText (js "Failed to fetch statistics") |}, w1)
    end.

(** DELETE /api/url/:shortCode *)
Definition delete_route (code : jsstring) : world -> api_response * world :=
  fun w =>
    match deleteShortUrl cascade code w with
    | (Ok false, w1) =>
        ({| status := 404; payload := ErrorText (js "Short URL not found") |}, w1)
    | (Ok true, w1) =>
        ({| status := 200; payload := MessageText (js "URL deleted successfully") |}, w1)
    | (Err _, w1) =>
        ({| status := 500; payload := ErrorText (js "Failed to delete URL") |}, w1)
    end.

End Routes.

End Routes.
Import Routes.

(** ** utils/urlShortener.js: the hash-based code *)

Module HashCode.

(** [s.substr(start, length)] for indices that are natural numbers. *)
Definition substr (s : jsstring) (start len : nat) : jsstring :=
  firstn len (skipn start s).

Definition hexDigit (c : N) : option N :=
  if (48 <=? c) && (c <=? 57) then Some (c - 48)
  else if (97 <=? c) && (c <=? 102) then Some (c - 87)
  else if (65 <=? c) && (c <=? 70) then Some (c - 55)
  else None.

(** The digits [parseInt(s, 16)] reads: the longest prefix of hex digits,
    most significant first; [None] when there is no digit. *)
Fixpoint parseHexDigits (s : jsstring) (acc : option N) : option N :=
  match s with
  | [] => acc
  | c :: s' =>
      match hexDigit c with
      | Some d => parseHexDigits s' (Some (16 * default 0 acc + d))
      | None => acc
      end
  end.

(** The optional [0x] or [0X] that [parseInt] skips for radix 16. *)
Definition strip_0x (s : jsstring) : jsstring :=
  match s with
  | 48 :: c :: rest => if (c =? 120) || (c =? 88) then rest else s
  | _ => s
  end.

(** [parseInt(s, 16)]: leading whitespace, an optional sign, an optional
    [0x], then the digits; [None] is NaN. The value is exact, as it is
    for the strings of at most two code units that [substr(i * 2, 2)]
    yields (a Number holds 13 hex digits without rounding). *)
Definition parseInt16 (s : jsstring) : option Z :=
  match trimStart s with
  | 45 :: s' => Z.opp <$> (Z.of_N <$> parseHexDigits (strip_0x s') None)
  | 43 :: s' => Z.of_N <$> parseHexDigits (strip_0x s') None
  | s' => Z.of_N <$> parseHexDigits (strip_0x s') None
  end.

(** [x % 62] as an index, for an integer or NaN. *)
Definition index_mod_62 (x : option Z) : option N :=
  match x with
  | Some z => if (0 <=? z)%Z then Some (Z.to_N z mod 62) else
              if (Z.rem z 62 =? 0)%Z then Some 0 else None
  | None => None
  end.

Section HashBased.
(** [crypto.createHash('md5').update(url).digest('hex')] *)
Variable md5_hex : jsstring -> jsstring.
Variable SHORT_CODE_LENGTH : nat.

Fixpoint generateHashBasedCode_loop (hash : jsstring) (i n : nat)
    (code : jsstring) : jsstring :=
  match n with
  | O => code
  | S n' =>
      generateHashBasedCode_loop hash (S i) n'
        (code ++ charAt_concat BASE62_CHARS
                   (index_mod_62 (parseInt16 (substr hash (i * 2) 2))))
  end.

Definition generateHashBasedCode (url : jsstring) : jsstring :=
  generateHashBasedCode_loop (md5_hex url) 0 SHORT_CODE_LENGTH [].
End HashBased.

(** A digest as [digest('hex')] writes it: 32 lowercase hex digits. *)
Definition isLowerHex (c : N) : bool :=
  (48 <=? c) && (c <=? 57) || (97 <=? c) && (c <=? 102).

Definition is_md5_hex (hash : jsstring) : Prop :=
  length hash = 32%nat /\ Forall (fun c => isLowerHex c = true) hash.

Definition lowerHexDigits : jsstring := js "0123456789abcdef".

(** The two hex digits [a] and [b] select a symbol of the alphabet. *)
Definition selects_symbol (a b : N) : bool :=
  match charAt_concat BASE62_CHARS (index_mod_62 (parseInt16 [a; b])) with
  | [c] => existsb (N.eqb c) BASE62_CHARS
  | _ => false
  end.

End HashCode.
Import HashCode.

(** ** Vocabulary for the properties of the store and of base 62 *)

Module Invariants.

(** No two rows of [urls] have the same short code. *)
Definition unique_codes (d : database) : Prop :=
  NoDup (List.map short_code (urls d)).

(** Every row of [clicks] refers to a row of [urls]. *)
Definition clicks_refer_to_urls (d : database) : Prop :=
  Forall (fun c => taken d (click_short_code c) = true) (clicks d).

(** The store before and the store after the computation are related
    by [R], whatever the world it runs in and however it ends. *)
Definition preserves {A} (R : database -> database -> Prop) (m : M A) : Prop :=
  forall w, R (db w) (db (snd (m w))).



(** No row of [urls] has gone from [d] to [d']. *)
Definition urls_grow (d d' : database) : Prop := incl (urls d) (urls d').

(** The value of a string in base 62, most significant symbol first, a
    code unit outside the alphabet counting as -1. *)
Definition base62_value (s : jsstring) : Z :=
  fold_left (fun v c => (v * 62 + indexOf BASE62_CHARS c)%Z) s 0%Z.

(** All code units are whitespace for [trim]. *)
Definition allWhiteSpace (s : jsstring) : Prop :=
  Forall (fun c => isWhiteSpace c = true) s.

(** A random source whose bytes all are [b]. *)
Definition constant_source (b : N) : rng := {| entropy := fun _ => b; drawn := 0 |}.

(** The byte values for which [generateShortCode(1)] returns the symbol [c]. *)
Definition bytes_giving (c : N) : list nat :=
  List.filter
    (fun b => jsstring_eqb
                (fst (generateShortCode 1 (constant_source (N.of_nat b)))) [c])
    (seq 0 256).

(** The rows of [clicks] are in descending order of [clicked_at]. *)
Fixpoint by_time_desc (l : list click_row) : Prop :=
  match l with
  | [] => True
  | x :: l' =>
      Forall (fun y => (clicked_at y <= clicked_at x)%Z) l' /\ by_time_desc l'
  end.

(** The timestamps of the clicks never go up along the list. *)
Fixpoint most_recent_first (l : list recent_click) : Prop :=
  match l with
  | [] => True
  | x :: l' =>
      Forall (fun y => (recent_clicked_at y <= recent_clicked_at x)%Z) l'
      /\ most_recent_first l'
  end.

End Invariants.
Import Invariants.

(** ** More concrete inputs *)

Module MoreExamples.

(** The mapping of [one_row_database] with two recorded clicks. *)
Definition clicked_database : database :=
  {| urls := [example_row 1 "000000" "https://example.com/a"];
     clicks := [{| click_id := 1; click_short_code := js "000000";
                   clicked_at := 20; ip_address := Some (js "203.0.113.7");
                   user_agent := Some (js "Mozilla/5.0"); referrer := None |};
                {| click_id := 2; click_short_code := js "000000";
                   clicked_at := 30; ip_address := Some (js "203.0.113.9");
                   user_agent := None; referrer := Some (js "https://news.example/") |}];
     urls_id_seq := 2; clicks_id_seq := 3 |}.

Definition clicked_world : world :=
  world_of clicked_database empty_cache (fun _ => 0) [].

(** An empty store and cache; the random source yields [000000],
    [111111], ... *)
Definition fresh_world : world :=
  world_of empty_database empty_cache (fun i => N.of_nat (i / 6)) [].

(** Another request inserts a mapping before the first call of this
    one, and the second call fails. *)
Definition busy_world : world :=
  world_of clicked_database empty_cache (fun i => N.of_nat (i / 6))
    [ConcurrentInsert (js "zzzzzz") (js "https://example.org"); Outage].

(** Another request inserts a mapping before the first call of this
    one, and the cache is down for the fifth call. *)
Definition contended_world : world :=
  world_of clicked_database empty_cache (fun i => N.of_nat (i / 6))
    [ConcurrentInsert (js "zzzzzz") (js "https://example.org");
     Quiet; Quiet; Quiet; Outage].

(** The entry of the mapping is cached and the cache is down for the
    first call. *)
Definition stale_world : world :=
  world_of one_row_database
    {| url_keys := {[ js "000000" :=
                        {| originalUrl := js "https://example.com/a";
                           shortCode := js "000000" |} ]};
       clicks_keys := ∅ |}
    (fun _ => 0) [Outage].

(** The cache is down for the read and for the write of a resolve. *)
Definition cache_outage_world : world :=
  world_of one_row_database empty_cache (fun _ => 0) [Outage; Quiet; Outage].

(** A digest of 32 hex digits, [00 01 02 ... 0f]. *)
Definition example_md5_hex (_ : jsstring) : jsstring :=
  js "000102030405060708090a0b0c0d0e0f".

End MoreExamples.
Import MoreExamples.

Example normalize_ex1 : normalizeUrl (js "  Example.com/ ") = js "https://Example.com".
Proof. reflexivity. Qed.

Example generateShortCode_ex :
  fst (generateShortCode 6 {| entropy := fun i => N.of_nat (i * 70); drawn := 0 |})
  = js "08goow".
Proof. vm_compute. reflexivity. Qed.

Example encodeBase62_ex :
  encodeBase62 20 (of_Z 0) = Some (js "0")
  /\ encodeBase62 20 (of_Z 61) = Some (js "Z")
  /\ encodeBase62 20 (of_Z 62) = Some (js "10")
  /\ encodeBase62 20 (of_Z 3843) = Some (js "ZZ")
  /\ encodeBase62 20 (of_Z 1000000) = Some (js "4c92")
  /\ decodeBase62 (js "4c92") = of_Z 1000000.
Proof. vm_compute. repeat split; reflexivity. Qed.

(** Creating a mapping in an empty store, then resolving it from the cache. *)
Example create_then_resolve :
  let w := world_of empty_database empty_cache (fun i => N.of_nat i) [] in
  let '(r, w1) := createShortUrl example_URL 6 (js "http://sho.rt")
                    (js "https://example.com/a/") w in
  (createdShortCode <$> (match r with Ok c => Some c | Err _ => None end))
    = Some (js "012345")
  /\ fst (getOriginalUrl (js "012345") w1)
     = Ok (Some {| resolvedOriginalUrl := js "https://example.com/a";
                   resolvedShortCode := js "012345";
                   source := js "cache" |}).
Proof. vm_compute. split; reflexivity. Qed.

(** * Properties *)

(** ** Worlds and awaited calls *)

Section AwaitFacts.

(** An awaited call leaves the store alone unless a concurrent insert
    lands. *)
Lemma await_frame ev w :
  no_concurrent_writer (env w) ->
  db (snd (await ev w)) = db w /\ no_concurrent_writer (env (snd (await ev w))).
Proof.
  unfold await, no_concurrent_writer. intros H.
  destruct (env w) as [|i e] eqn:E; simpl.
  - split; [reflexivity | constructor].
  - inversion H as [|? ? Hi He]; subst.
    destruct i; simpl in *; try discriminate; auto.
Qed.

Lemma query_select_frame {A} ev (f : database -> A) w :
  no_concurrent_writer (env w) ->
  let w' := snd (query ev (fun _ d => (Ok (f d), d)) w) in
  db w' = db w /\ no_concurrent_writer (env w').
Proof.
  intros H. unfold query.
  destruct (await_frame ev w H) as [Hd He].
  destruct (await ev w) as [failed w1]; simpl in *.
  destruct failed; simpl; auto.
Qed.

Lemma cache_get_frame code w :
  no_concurrent_writer (env w) ->
  let w' := snd (cache_get code w) in
  db w' = db w /\ no_concurrent_writer (env w').
Proof.
  intros H. unfold cache_get, try_, redisClient_get.
  destruct (await_frame (CacheGet code) w H) as [Hd He].
  destruct (await (CacheGet code) w) as [failed w1]; simpl in *.
  destruct failed; simpl; auto.
Qed.

Lemma cache_set_frame code v w :
  no_concurrent_writer (env w) ->
  let w' := snd (cache_set code v w) in
  db w' = db w /\ no_concurrent_writer (env w').
Proof.
  intros H. unfold cache_set, try_, bind, redisClient_setEx.
  destruct (await_frame (CacheSet code) w H) as [Hd He].
  destruct (await (CacheSet code) w) as [failed w1]; simpl in *.
  destruct failed; simpl; auto.
Qed.

End AwaitFacts.

(** ** validate *)

(** C10. [isValidUrl] is total: whatever the platform's parser does with
    the input, throwing included, the call completes normally with a
    boolean, which is [false] when the parser throws and otherwise tells
    whether the protocol is [http:] or [https:]. *)
Theorem isValidUrl_total (new_URL : jsstring -> option URL) (url : jsstring) :
  isValidUrl new_URL url =
  Normal (match new_URL url with
          | Some urlObj => jsstring_eqb (protocol urlObj) (js "http:")
                           || jsstring_eqb (protocol urlObj) (js "https:")
          | None => false
          end).
Proof.
  unfold isValidUrl, construct_URL, try_catch.
  destruct (new_URL url); reflexivity.
Qed.

(** ** resolve *)

(** C9. [getOriginalUrl] does not write to the durable store: when no
    other request inserts meanwhile, the tables and sequences after the
    call are the ones before it, whatever the cache holds and whichever
    calls fail. *)
Theorem getOriginalUrl_preserves_store (code : jsstring) (w : world) :
  no_concurrent_writer (env w) ->
  db (snd (getOriginalUrl code w)) = db w.
Proof.
  intros H. unfold getOriginalUrl, bind.
  destruct (cache_get_frame code w H) as [Hd1 He1].
  destruct (cache_get code w) as [[[cached|]|e] w1]; simpl in *; auto.
  pose proof (query_select_frame (SelectByCode code) (select_by_code code) w1 He1) as Hq.
  simpl in Hq. destruct Hq as [Hd2 He2].
  destruct (query _ _ w1) as [[[|urlData rows]|e] w2]; simpl in *;
    try congruence.
  destruct (cache_set_frame code
              {| originalUrl := original_url urlData;
                 shortCode := short_code urlData |} w2 He2) as [Hd3 _].
  destruct (cache_set _ _ w2) as [[b|e] w3]; simpl in *; congruence.
Qed.

(** C5. [getOriginalUrl] is a cache-aside read. Without interference: on a
    cache hit it returns the cached pair tagged [cache] after the cache
    read alone, with no call to the store; on a miss it looks the code up
    in the store and returns [null] (a value, not an error) when no row
    has it, and otherwise writes the row's pair to the cache and returns
    it tagged [database]. *)
Theorem getOriginalUrl_cache_aside (code : jsstring) (w : world) :
  env w = [] ->
  getOriginalUrl code w =
  match url_keys (cache w) !! code with
  | Some cached =>
      (Ok (Some {| resolvedOriginalUrl := originalUrl cached;
                   resolvedShortCode := shortCode cached;
                   source := js "cache" |}),
       logged [CacheGet code] w)
  | None =>
      match select_by_code code (db w) with
      | [] => (Ok None, logged [CacheGet code; SelectByCode code] w)
      | urlData :: _ =>
          (Ok (Some {| resolvedOriginalUrl := original_url urlData;
                       resolvedShortCode := short_code urlData;
                       source := js "database" |}),
           set_cache
             {| url_keys := <[code := {| originalUrl := original_url urlData;
                                         shortCode := short_code urlData |}]>
                              (url_keys (cache w));
                clicks_keys := clicks_keys (cache w) |}
             (logged [CacheGet code; SelectByCode code; CacheSet code] w))
      end
  end.
Proof.
  destruct w as [d c g t e l]; simpl. intros ->.
  unfold getOriginalUrl, cache_get, cache_set, redisClient_get,
    redisClient_setEx, query, bind, try_, ret, await, logged, set_cache, set_db.
  cbn [env db cache random now log fst snd tl].
  destruct (url_keys c !! code) as [cached|]; [reflexivity|].
  cbn [env db cache random now log fst snd tl].
  destruct (select_by_code code d) as [|urlData rows];
    cbn [env db cache random now log fst snd tl url_keys clicks_keys];
    rewrite <- ?app_assoc; reflexivity.
Qed.

Lemma getOriginalUrl_preserves_store_witness :
  db (snd (getOriginalUrl (js "000000") cache_down_world)) = db cache_down_world.
Proof.
  apply (getOriginalUrl_preserves_store (js "000000") cache_down_world).
  repeat constructor.
Defined.

Lemma getOriginalUrl_cache_aside_witness :
  getOriginalUrl (js "000000") one_row_world
  = (Ok (Some {| resolvedOriginalUrl := js "https://example.com/a";
                 resolvedShortCode := js "000000";
                 source := js "database" |}),
     set_cache
       {| url_keys := <[js "000000" := {| originalUrl := js "https://example.com/a";
                                          shortCode := js "000000" |}]> ∅;
          clicks_keys := ∅ |}
       (logged [CacheGet (js "000000"); SelectByCode (js "000000");
                CacheSet (js "000000")] one_row_world)).
Proof.
  exact (getOriginalUrl_cache_aside (js "000000") one_row_world eq_refl).
Defined.

(** ** click accounting *)

(** C7. [incrementClickCount] never raises: in every world, whichever of
    its calls fail, it completes normally. The redirect route that starts
    it therefore answers with what [getOriginalUrl] decided: 301 to the
    original URL for a known code, 404 for an unknown one. *)
Theorem incrementClickCount_never_raises (code : jsstring) (meta : metadata)
    (w : world) :
  fst (incrementClickCount code meta w) = Ok tt
  /\ fst (redirect_route code meta w) =
     if existsb (N.eqb 46) code then NotFound
     else match fst (getOriginalUrl code w) with
          | Ok (Some urlData) => Redirect 301 (resolvedOriginalUrl urlData)
          | Ok None => NotFound
          | Err _ => InternalServerError
          end.
Proof.
  split.
  - unfold incrementClickCount, try_.
    match goal with |- context [match ?b w with _ => _ end] =>
      destruct (b w) as [[[]|e] w'] end; reflexivity.
  - unfold redirect_route.
    destruct (existsb (N.eqb 46) code); [reflexivity|].
    destruct (getOriginalUrl code w) as [[[urlData|]|e] w1]; simpl; try reflexivity.
    destruct (incrementClickCount code meta w1); reflexivity.
Qed.

(** ** generate *)

Section GenerateFacts.

Lemma BASE62_CHARS_length : length BASE62_CHARS = 62%nat.
Proof. reflexivity. Qed.

Lemma BASE62_CHARS_alphanumeric :
  Forall (fun c => isAlphanumeric c = true) BASE62_CHARS.
Proof. repeat constructor. Qed.

(** An index below 62 selects a symbol of the alphabet. *)
Lemma charAt_concat_BASE62 (k : N) :
  k < 62 ->
  exists c, charAt_concat BASE62_CHARS (Some k) = [c] /\ In c BASE62_CHARS.
Proof.
  intros Hk. unfold charAt_concat.
  destruct (BASE62_CHARS !! N.to_nat k) as [c|] eqn:E.
  - exists c. split; [reflexivity|].
    apply list_elem_of_In. eapply list_elem_of_lookup_2; eauto.
  - apply lookup_ge_None in E. rewrite BASE62_CHARS_length in E. lia.
Qed.

Lemma generateShortCode_loop_spec (bytes : list N) (n i : nat) (acc : jsstring) :
  (i + n <= length bytes)%nat ->
  exists code,
    generateShortCode_loop bytes i n acc = acc ++ code
    /\ length code = n /\ Forall (fun c => In c BASE62_CHARS) code.
Proof.
  revert i acc. induction n as [|n IH]; intros i acc Hlen;
    cbn [generateShortCode_loop].
  - exists []. rewrite app_nil_r. repeat split; constructor.
  - destruct (lookup_lt_is_Some_2 bytes i) as [b Hb]; [lia|].
    rewrite Hb.
    change ((fun b => b mod 62) <$> Some b) with (Some (b mod 62)).
    destruct (charAt_concat_BASE62 (b mod 62)) as [c [Hc Hin]].
    { apply N.mod_lt. discriminate. }
    rewrite Hc.
    destruct (IH (S i) (acc ++ [c])) as [code [Heq [Hl Hall]]]; [lia|].
    exists (c :: code). rewrite Heq, <- app_assoc. simpl.
    repeat split; [congruence | constructor; assumption].
Qed.

Lemma generateShortCode_spec len g :
  length (fst (generateShortCode len g)) = len
  /\ Forall (fun c => In c BASE62_CHARS) (fst (generateShortCode len g)).
Proof.
  unfold generateShortCode, randomBytes; cbn [fst].
  destruct (generateShortCode_loop_spec
              (List.map (fun i => entropy g (drawn g + i)%nat mod 256) (seq 0 len))
              len 0 []) as [code [Heq [Hl Hall]]].
  { rewrite length_map, length_seq. lia. }
  rewrite Heq. cbn [app]. split; assumption.
Qed.

End GenerateFacts.

(** C8. [generateShortCode(length)] returns exactly [length] symbols, each
    one a member of the 62-symbol alphabet, whose symbols are digits,
    lowercase letters and uppercase letters. This holds for every length,
    positive or zero, and every state of the random source. *)
Theorem generateShortCode_length_alphabet (len : nat) (g : rng) :
  length (fst (generateShortCode len g)) = len
  /\ Forall (fun c => In c BASE62_CHARS /\ isAlphanumeric c = true)
            (fst (generateShortCode len g))
  /\ length BASE62_CHARS = 62%nat.
Proof.
  destruct (generateShortCode_spec len g) as [Hl Hall].
  split; [exact Hl|]. split; [|reflexivity].
  pose proof BASE62_CHARS_alphanumeric as Ha.
  rewrite List.Forall_forall in Ha, Hall. apply List.Forall_forall.
  intros c Hc. split; [apply Hall, Hc | apply Ha, Hall, Hc].
Qed.

(** ** Calls in a world without interference *)

Section QuietWorld.

Lemma query_quiet {A} ev (statement : Z -> database -> result A * database) w :
  env w = [] ->
  query ev statement w =
  (fst (statement (now w) (db w)),
   set_db (snd (statement (now w) (db w))) (logged [ev] w)).
Proof.
  destruct w as [d c g t e l]; simpl; intros ->.
  unfold query, await, logged, set_db; simpl.
  destruct (statement t d); reflexivity.
Qed.

Lemma cache_set_quiet code v w :
  env w = [] ->
  cache_set code v w =
  (Ok true,
   set_cache {| url_keys := <[code := v]> (url_keys (cache w));
                clicks_keys := clicks_keys (cache w) |}
             (logged [CacheSet code] w)).
Proof.
  destruct w as [d c g t e l]; simpl; intros ->. reflexivity.
Qed.

Lemma cache_incr_quiet code w :
  env w = [] ->
  (default 0 (clicks_keys (cache w) !! code) < INT64_MAX)%Z ->
  cache_incr code w =
  (Ok (Some (default 0 (clicks_keys (cache w) !! code) + 1)%Z),
   set_cache {| url_keys := url_keys (cache w);
                clicks_keys :=
                  <[code := (default 0 (clicks_keys (cache w) !! code) + 1)%Z]>
                    (clicks_keys (cache w)) |}
             (logged [CacheIncr code] w)).
Proof.
  destruct w as [d c g t e l]; simpl; intros -> Hlt.
  unfold cache_incr, try_, bind, redisClient_incr, await; simpl.
  destruct (Z.leb_spec INT64_MAX (default 0%Z (clicks_keys c !! code))); [lia|].
  reflexivity.
Qed.

End QuietWorld.

(** ** click accounting: what is written *)

Section ClickFacts.

Lemma select_by_code_update code t d :
  select_by_code code
    {| urls := List.map (fun r => if jsstring_eqb (short_code r) code
                                  then click_row_update t r else r) (urls d);
       clicks := clicks d; urls_id_seq := urls_id_seq d;
       clicks_id_seq := clicks_id_seq d |}
  = List.map (click_row_update t) (select_by_code code d).
Proof.
  unfold select_by_code; simpl.
  induction (urls d) as [|r rows IH]; simpl; [reflexivity|].
  destruct (jsstring_eqb (short_code r) code) eqn:E; simpl; rewrite ?E, IH;
    reflexivity.
Qed.

Lemma existsb_false_of_Forall (rows : list url_row) :
  Forall (fun r => (click_count r < INTEGER_MAX)%Z) rows ->
  existsb (fun r => (INTEGER_MAX <=? click_count r)%Z) rows = false.
Proof.
  induction 1 as [|r rows Hr _ IH]; simpl; [reflexivity|].
  rewrite IH, orb_false_r. apply Z.leb_gt. exact Hr.
Qed.

End ClickFacts.

(** C4 (as the code has it). When no step fails (no interference, the
    code is mapped, its counters are below the bounds of their types and
    the address fits its column) [incrementClickCount] adds one to
    [click_count] and stamps [last_accessed] on the rows of the code, adds
    one to the cache counter, and inserts a row into [clicks] exactly when
    [ipAddress] or [userAgent] is a non-empty string; a referrer alone
    inserts no row. *)
Theorem incrementClickCount_effects (code : jsstring) (meta : metadata) (w : world) :
  env w = [] ->
  select_by_code code (db w) <> [] ->
  Forall (fun r => (click_count r < INTEGER_MAX)%Z) (select_by_code code (db w)) ->
  (length code <= 10)%nat ->
  too_long 45 (ipAddress meta) = false ->
  (default 0 (clicks_keys (cache w) !! code) < INT64_MAX)%Z ->
  let w' := snd (incrementClickCount code meta w) in
  urls (db w') =
    List.map (fun r => if jsstring_eqb (short_code r) code
                       then click_row_update (now w) r else r) (urls (db w))
  /\ clicks (db w') =
       clicks (db w) ++
       (if truthy (ipAddress meta) || truthy (userAgent meta)
        then [{| click_id := clicks_id_seq (db w); click_short_code := code;
                 clicked_at := now w;
                 ip_address := or_null (ipAddress meta);
                 user_agent := or_null (userAgent meta);
                 referrer := or_null (referrerHeader meta) |}]
        else [])
  /\ clicks_keys (cache w') =
       <[code := (default 0 (clicks_keys (cache w) !! code) + 1)%Z]>
         (clicks_keys (cache w)).
Proof.
  intros Hq Hmapped Hcount Hcode Hip Hctr w'. subst w'.
  remember (incrementClickCount code meta w) as run eqn:Hrun.
  unfold incrementClickCount, try_, bind in Hrun.
  rewrite (query_quiet _ _ w Hq) in Hrun.
  unfold update_clicks in Hrun.
  rewrite (existsb_false_of_Forall _ Hcount) in Hrun.
  cbn [fst snd] in Hrun.
  set (d1 := {| urls := List.map _ (urls (db w)); clicks := clicks (db w);
                urls_id_seq := urls_id_seq (db w);
                clicks_id_seq := clicks_id_seq (db w) |}) in Hrun.
  set (w1 := set_db d1 (logged [UpdateClicks code] w)) in Hrun.
  assert (Hq1 : env w1 = []) by exact Hq.
  assert (Hsel : select_by_code code d1 <> []).
  { subst d1. rewrite select_by_code_update.
    destruct (select_by_code code (db w)); [congruence | discriminate]. }
  destruct (truthy (ipAddress meta) || truthy (userAgent meta)) eqn:Htr.
  - rewrite (query_quiet _ _ w1 Hq1) in Hrun.
    unfold insert_click in Hrun.
    assert (Hip' : too_long 45 (or_null (ipAddress meta)) = false).
    { unfold or_null. destruct (truthy (ipAddress meta)); [exact Hip | reflexivity]. }
    rewrite Hip' in Hrun.
    destruct (Nat.ltb_spec 10 (length code)); [lia|].
    cbn [orb db w1 set_db] in Hrun.
    destruct (select_by_code code d1) as [|r0 rows0] eqn:E; [congruence|].
    cbn [fst snd ret] in Hrun.
    rewrite cache_incr_quiet in Hrun; [|exact Hq|exact Hctr].
    subst run. cbn [fst snd]. repeat split; reflexivity.
  - cbn [ret] in Hrun.
    rewrite cache_incr_quiet in Hrun; [|exact Hq1|exact Hctr].
    subst run. cbn [fst snd]. rewrite app_nil_r. repeat split; reflexivity.
Qed.

Lemma incrementClickCount_effects_witness :
  clicks (db (snd (incrementClickCount (js "000000") browser_click one_row_world)))
  = [{| click_id := 1; click_short_code := js "000000"; clicked_at := 1000;
        ip_address := Some (js "203.0.113.7");
        user_agent := Some (js "Mozilla/5.0"); referrer := None |}].
Proof.
  refine (proj1 (proj2
    (incrementClickCount_effects (js "000000") browser_click one_row_world
       _ _ _ _ _ _))).
  - reflexivity.
  - discriminate.
  - repeat constructor.
  - simpl. lia.
  - reflexivity.
  - reflexivity.
Defined.

(** C4 as stated fails: a click whose only metadata is a referrer updates
    the counters of the mapped code but leaves [clicks] empty. *)
Lemma referrer_only_click_not_recorded :
  referrerHeader referrer_only = Some (js "https://news.example/")
  /\ clicks (db (snd (incrementClickCount (js "000000") referrer_only one_row_world)))
     = []
  /\ List.map click_count
       (urls (db (snd (incrementClickCount (js "000000") referrer_only one_row_world))))
     = [1%Z]
  /\ clicks_keys
       (cache (snd (incrementClickCount (js "000000") referrer_only one_row_world)))
       !! js "000000" = Some 1%Z.
Proof. vm_compute. repeat split; reflexivity. Qed.

(** ** createShortUrl: the collision loop *)

Section CollisionLoop.

Variable new_URL : jsstring -> option URL.
Variable SHORT_CODE_LENGTH : nat.
Variable BASE_URL : jsstring.

Lemma generateShortCode_rng len g :
  snd (generateShortCode len g) = rng_after len g 1.
Proof.
  unfold generateShortCode, randomBytes, rng_after; cbn [snd].
  rewrite Nat.mul_1_l. reflexivity.
Qed.

Lemma rng_after_succ len g k :
  rng_after len (rng_after len g 1) k = rng_after len g (S k).
Proof.
  unfold rng_after; cbn [entropy drawn]. f_equal. lia.
Qed.

Lemma candidates_length len g n : length (candidates len g n) = n.
Proof.
  revert g. induction n as [|n IH]; intros g; cbn [candidates]; [reflexivity|].
  destruct (generateShortCode len g) as [code g']. cbn [length]. rewrite IH.
  reflexivity.
Qed.

Lemma candidates_code_length len g n code :
  In code (candidates len g n) -> length code = len.
Proof.
  revert g. induction n as [|n IH]; intros g; cbn [candidates]; [intros []|].
  destruct (generateShortCode len g) as [c g'] eqn:E. intros [<- | Hin].
  - destruct (generateShortCode_spec len g) as [Hl _].
    rewrite E in Hl. exact Hl.
  - exact (IH g' Hin).
Qed.

Lemma upto_first_free_length d codes :
  (length (upto_first_free d codes) <= length codes)%nat.
Proof.
  induction codes as [|c codes IH]; cbn [upto_first_free length]; [lia|].
  destruct (taken d c); cbn [length]; lia.
Qed.

Lemma first_free_None_iff d codes :
  first_free d codes = None <-> Forall (fun code => taken d code = true) codes.
Proof.
  unfold first_free. induction codes as [|c codes IH]; cbn [List.find].
  - split; [constructor | reflexivity].
  - destruct (taken d c) eqn:E; cbn [negb].
    + rewrite IH. split; [intros H; constructor; assumption|].
      intros H. inversion H; assumption.
    + split; [discriminate|]. intros H. inversion H; congruence.
Qed.

Lemma loop_outcome_None d codes sc a :
  first_free d codes = None ->
  snd (loop_outcome d codes sc a) = (a + length codes)%nat.
Proof.
  unfold first_free. revert sc a.
  induction codes as [|c codes IH]; intros sc a; cbn [List.find loop_outcome length].
  - intros _. cbn [snd]. lia.
  - destruct (taken d c); cbn [negb]; [|discriminate].
    intros H. rewrite (IH _ _ H). lia.
Qed.

Lemma loop_outcome_Some d codes sc a code :
  first_free d codes = Some code ->
  exists k, loop_outcome d codes sc a = (Some code, (a + k)%nat)
            /\ (k < length codes)%nat /\ taken d code = false /\ In code codes.
Proof.
  unfold first_free. revert sc a.
  induction codes as [|c codes IH]; intros sc a; cbn [List.find loop_outcome length];
    [discriminate|].
  destruct (taken d c) eqn:E; cbn [negb].
  - intros H. destruct (IH (Some c) (S a) H) as [k [Hk [Hlt [Ht Hin]]]].
    exists (S k). rewrite Hk. repeat split; [f_equal; lia | lia | exact Ht | right; exact Hin].
  - intros [= <-]. exists 0%nat. rewrite Nat.add_0_r.
    repeat split; [lia | exact E | left; reflexivity].
Qed.

(** The loop in a world without interference: it looks up the candidates
    up to the first free one and leaves the store as it was. *)
Lemma unique_code_loop_quiet fuel sc a w :
  env w = [] ->
  (a + fuel <= maxAttempts)%nat ->
  unique_code_loop SHORT_CODE_LENGTH fuel sc a w =
  (Ok (loop_outcome (db w) (candidates SHORT_CODE_LENGTH (random w) fuel) sc a),
   set_random
     (rng_after SHORT_CODE_LENGTH (random w)
        (length (upto_first_free (db w)
                   (candidates SHORT_CODE_LENGTH (random w) fuel))))
     (logged (List.map SelectByCode
                (upto_first_free (db w)
                   (candidates SHORT_CODE_LENGTH (random w) fuel))) w)).
Proof.
  revert sc a w. induction fuel as [|fuel IH]; intros sc a w Hq Hle.
  - destruct w as [d c [ent dr] t e l]; cbn in *; subst e.
    unfold ret, set_random, logged, rng_after; cbn.
    rewrite Nat.add_0_r, app_nil_r. reflexivity.
  - cbn [unique_code_loop candidates].
    destruct (Nat.ltb_spec a maxAttempts) as [_|Hge]; [|lia].
    unfold bind at 1. unfold generateShortCodeM.
    pose proof (generateShortCode_rng SHORT_CODE_LENGTH (random w)) as Hg.
    destruct (generateShortCode SHORT_CODE_LENGTH (random w)) as [code g'].
    cbn [snd] in Hg. subst g'.
    unfold bind at 1.
    rewrite query_quiet by exact Hq.
    cbn [fst snd db set_random now].
    cbn [upto_first_free loop_outcome]. unfold taken at 1 2 3.
    destruct (select_by_code code (db w)) as [|r rows] eqn:Es.
    + destruct w as [d c [ent dr] t e l]; cbn in *; subst e. reflexivity.
    + rewrite IH; [|exact Hq|lia].
      cbn [db random set_db set_random logged].
      rewrite rng_after_succ.
      destruct w as [d c g t e l]; cbn in *; subst e.
      unfold set_random, logged, set_db; cbn.
      rewrite <- app_assoc. reflexivity.
Qed.

(** [createShortUrl] for a valid URL that has no mapping yet, in a world
    without interference: the whole outcome. *)
Lemma createShortUrl_quiet url w :
  isValidUrl new_URL url = Normal true ->
  select_by_url (normalizeUrl url) (db w) = [] ->
  env w = [] ->
  (SHORT_CODE_LENGTH <= 10)%nat ->
  let normalized := normalizeUrl url in
  let codes := candidates SHORT_CODE_LENGTH (random w) maxAttempts in
  let tried := upto_first_free (db w) codes in
  let w1 := set_random (rng_after SHORT_CODE_LENGTH (random w) (length tried))
              (logged (SelectByUrl normalized :: List.map SelectByCode tried) w) in
  createShortUrl new_URL SHORT_CODE_LENGTH BASE_URL url w =
  match first_free (db w) codes with
  | None => (Err CodeSpaceExhausted, w1)
  | Some code =>
      (Ok {| createdShortCode := code;
             createdOriginalUrl := normalized;
             shortUrl := BASE_URL ++ js "/" ++ code;
             createdAt := Some (now w);
             isNew := true |},
       set_cache
         {| url_keys := <[code := {| originalUrl := normalized;
                                     shortCode := code |}]> (url_keys (cache w));
            clicks_keys := clicks_keys (cache w) |}
         (set_db
            {| urls := urls (db w) ++
                 [{| id := urls_id_seq (db w); short_code := code;
                     original_url := normalized; created_at := now w;
                     click_count := 0; last_accessed := None |}];
               clicks := clicks (db w);
               urls_id_seq := (urls_id_seq (db w) + 1)%Z;
               clicks_id_seq := clicks_id_seq (db w) |}
            (logged [InsertUrl (Some code) normalized; CacheSet code] w1)))
  end.
Proof.
  intros Hvalid Hnew Hq Hlen normalized codes tried w1.
  unfold createShortUrl. rewrite Hvalid.
  unfold of_completion. unfold bind at 1. unfold ret at 1. cbn [negb].
  fold normalized.
  unfold bind at 1. rewrite query_quiet by exact Hq.
  cbn [fst snd]. fold normalized in Hnew. rewrite Hnew.
  set (w0 := set_db (db w) (logged [SelectByUrl normalized] w)).
  assert (Hq0 : env w0 = []) by exact Hq.
  unfold bind at 1.
  rewrite (unique_code_loop_quiet maxAttempts None 0 w0 Hq0) by (cbn; lia).
  change (db w0) with (db w). change (random w0) with (random w).
  fold codes. fold tried.
  assert (Hw1 : set_random (rng_after SHORT_CODE_LENGTH (random w) (length tried))
                  (logged (List.map SelectByCode tried) w0) = w1).
  { subst w1 w0. destruct w as [d c g t e l]; cbn in *.
    unfold set_random, logged, set_db; cbn. rewrite <- app_assoc. reflexivity. }
  rewrite Hw1.
  assert (Hq1 : env w1 = []) by exact Hq.
  destruct (first_free (db w) codes) as [code|] eqn:Eff.
  - destruct (loop_outcome_Some (db w) codes None 0 code Eff)
      as [k [Hk [Hlt [Hfree Hin]]]].
    rewrite Hk. cbn [Nat.add].
    assert (Hk5 : (k < maxAttempts)%nat).
    { subst codes. rewrite candidates_length in Hlt. exact Hlt. }
    destruct (Nat.eqb_spec k maxAttempts) as [->|_]; [lia|].
    unfold bind at 1. rewrite query_quiet by exact Hq1.
    change (db w1) with (db w). change (now w1) with (now w).
    unfold insert_url.
    rewrite (candidates_code_length _ _ _ _ Hin).
    destruct (Nat.ltb_spec 10 SHORT_CODE_LENGTH) as [Hgt|_]; [lia|].
    unfold taken in Hfree.
    destruct (select_by_code code (db w)) as [|r rows]; [|discriminate].
    cbn [fst snd original_url short_code created_at option.default].
    unfold bind at 1. rewrite cache_set_quiet by exact Hq1.
    unfold ret. cbn [fst snd original_url short_code created_at default].
    f_equal.
    destruct w as [d c g t e l]; cbn in *.
    unfold set_cache, set_db, logged, set_random; cbn.
    rewrite <- !app_assoc. reflexivity.
  - pose proof (loop_outcome_None (db w) codes None 0 Eff) as Hn.
    destruct (loop_outcome (db w) codes None 0) as [sc attempts].
    cbn [snd] in Hn. subst attempts codes. rewrite candidates_length.
    cbn [Nat.add]. rewrite Nat.eqb_refl. reflexivity.
Qed.

End CollisionLoop.

(** C6. For a valid URL without a mapping, in a world without
    interference and with codes that fit the column: [createShortUrl]
    fails with CodeSpaceExhausted exactly when each of the 5 codes it
    generates is already in the store, and then the store and the cache
    are as before; otherwise it succeeds with the first generated code
    that is free, a code no row had, and appends the new row. *)
Theorem createShortUrl_collision_bound (new_URL : jsstring -> option URL)
    (SHORT_CODE_LENGTH : nat) (BASE_URL url : jsstring) (w : world) :
  isValidUrl new_URL url = Normal true ->
  select_by_url (normalizeUrl url) (db w) = [] ->
  env w = [] ->
  (SHORT_CODE_LENGTH <= 10)%nat ->
  let codes := candidates SHORT_CODE_LENGTH (random w) maxAttempts in
  let run := createShortUrl new_URL SHORT_CODE_LENGTH BASE_URL url w in
  length codes = 5%nat
  /\ (fst run = Err CodeSpaceExhausted
      <-> Forall (fun code => taken (db w) code = true) codes)
  /\ match first_free (db w) codes with
     | None => db (snd run) = db w /\ cache (snd run) = cache w
     | Some code =>
         fst run = Ok {| createdShortCode := code;
                         createdOriginalUrl := normalizeUrl url;
                         shortUrl := BASE_URL ++ js "/" ++ code;
                         createdAt := Some (now w);
                         isNew := true |}
         /\ taken (db w) code = false
         /\ urls (db (snd run)) =
            urls (db w) ++
              [{| id := urls_id_seq (db w); short_code := code;
                  original_url := normalizeUrl url; created_at := now w;
                  click_count := 0; last_accessed := None |}]
     end.
Proof.
  intros Hvalid Hnew Hq Hlen codes run.
  pose proof (createShortUrl_quiet new_URL SHORT_CODE_LENGTH BASE_URL url w
                Hvalid Hnew Hq Hlen) as Hrun.
  cbn zeta in Hrun. fold codes in Hrun. fold run in Hrun.
  split; [apply candidates_length|].
  rewrite <- first_free_None_iff.
  destruct (first_free (db w) codes) as [code|] eqn:Eff; rewrite Hrun; cbn [fst snd].
  - split; [split; discriminate|].
    destruct (loop_outcome_Some (db w) codes None 0 code Eff) as [k [_ [_ [Hfree _]]]].
    split; [reflexivity|]. split; [exact Hfree|reflexivity].
  - split; [split; reflexivity|]. split; reflexivity.
Qed.

Lemma createShortUrl_collision_bound_witness :
  fst (createShortUrl example_URL 6 (js "http://sho.rt")
         (js "https://example.com/c") two_collisions_world)
  = Ok {| createdShortCode := js "222222";
          createdOriginalUrl := js "https://example.com/c";
          shortUrl := js "http://sho.rt/222222";
          createdAt := Some 1000%Z;
          isNew := true |}.
Proof.
  refine (proj1 (proj2 (proj2
    (createShortUrl_collision_bound example_URL 6 (js "http://sho.rt")
       (js "https://example.com/c") two_collisions_world _ _ _ _)))).
  - reflexivity.
  - reflexivity.
  - reflexivity.
  - lia.
Defined.

(** C1 (as the code has it). For a valid URL without a mapping, in a
    world without interference: a collision is found by the lookup that
    precedes the insert, and each lookup that finds the code is followed
    by the lookup of a newly generated code, up to 5 lookups; the INSERT
    runs once, after a lookup found its code free, or not at all; and no
    ConstraintViolation reaches the caller. *)
Theorem createShortUrl_retries_on_lookup (new_URL : jsstring -> option URL)
    (SHORT_CODE_LENGTH : nat) (BASE_URL url : jsstring) (w : world) :
  isValidUrl new_URL url = Normal true ->
  select_by_url (normalizeUrl url) (db w) = [] ->
  env w = [] ->
  (SHORT_CODE_LENGTH <= 10)%nat ->
  let codes := candidates SHORT_CODE_LENGTH (random w) maxAttempts in
  let run := createShortUrl new_URL SHORT_CODE_LENGTH BASE_URL url w in
  log (snd run) =
    log w ++ SelectByUrl (normalizeUrl url)
          :: List.map SelectByCode (upto_first_free (db w) codes)
          ++ match first_free (db w) codes with
             | Some code => [InsertUrl (Some code) (normalizeUrl url); CacheSet code]
             | None => []
             end
  /\ (length (upto_first_free (db w) codes) <= 5)%nat
  /\ fst run <> Err ConstraintViolation.
Proof.
  intros Hvalid Hnew Hq Hlen codes run.
  pose proof (createShortUrl_quiet new_URL SHORT_CODE_LENGTH BASE_URL url w
                Hvalid Hnew Hq Hlen) as Hrun.
  cbn zeta in Hrun. fold codes in Hrun. fold run in Hrun.
  split; [|split].
  - rewrite Hrun.
    destruct (first_free (db w) codes) as [code|]; cbn [snd];
      destruct w as [d c g t e l]; cbn.
    + rewrite <- app_assoc. reflexivity.
    + rewrite app_nil_r. reflexivity.
  - pose proof (upto_first_free_length (db w) codes) as H.
    subst codes. rewrite candidates_length in H. exact H.
  - rewrite Hrun. destruct (first_free (db w) codes); cbn [fst]; discriminate.
Qed.

Lemma createShortUrl_retries_on_lookup_witness :
  log (snd (createShortUrl example_URL 6 (js "http://sho.rt")
              (js "https://example.com/c") two_collisions_world))
  = [SelectByUrl (js "https://example.com/c");
     SelectByCode (js "000000"); SelectByCode (js "111111");
     SelectByCode (js "222222");
     InsertUrl (Some (js "222222")) (js "https://example.com/c");
     CacheSet (js "222222")].
Proof.
  refine (proj1
    (createShortUrl_retries_on_lookup example_URL 6 (js "http://sho.rt")
       (js "https://example.com/c") two_collisions_world _ _ _ _)).
  - reflexivity.
  - reflexivity.
  - reflexivity.
  - lia.
Defined.

(** C1 as stated fails: the lookup finds the generated code free, another
    request inserts a row with that code before this request's INSERT
    runs, and the ConstraintViolation of the INSERT reaches the caller;
    the URL is valid and had no mapping. *)
Lemma createShortUrl_surfaces_ConstraintViolation :
  isValidUrl example_URL (js "https://example.com/a") = Normal true
  /\ select_by_url (normalizeUrl (js "https://example.com/a")) (db race_world) = []
  /\ fst (createShortUrl example_URL 6 (js "http://sho.rt")
            (js "https://example.com/a") race_world)
     = Err ConstraintViolation
  /\ log (snd (createShortUrl example_URL 6 (js "http://sho.rt")
                 (js "https://example.com/a") race_world))
     = [SelectByUrl (js "https://example.com/a"); SelectByCode (js "000000");
        InsertUrl (Some (js "000000")) (js "https://example.com/a")].
Proof. vm_compute. repeat split; reflexivity. Qed.

(** ** normalize *)

Section NormalizeFacts.

Local Arguments eq_ci : simpl never.

Lemma removeTrailingSlash_snoc s c :
  removeTrailingSlash (s ++ [c]) = if c =? 47 then s else s ++ [c].
Proof.
  unfold removeTrailingSlash. rewrite rev_unit, rev_involutive. reflexivity.
Qed.

Lemma trimEnd_snoc s c :
  trimEnd (s ++ [c]) = if isWhiteSpace c then trimEnd s else s ++ [c].
Proof.
  unfold trimEnd. rewrite rev_unit. cbn [trimStart].
  destruct (isWhiteSpace c); [reflexivity|].
  cbn [rev]. rewrite rev_involutive. reflexivity.
Qed.

Lemma trimEnd_length s : (length (trimEnd s) <= length s)%nat.
Proof.
  induction s as [|c s IH] using rev_ind; [cbn; lia|].
  rewrite trimEnd_snoc, length_app. cbn [length].
  destruct (isWhiteSpace c); [lia | rewrite length_app; cbn [length]; lia].
Qed.

Lemma trimEnd_last s c : last (trimEnd s) = Some c -> isWhiteSpace c = false.
Proof.
  induction s as [|d s IH] using rev_ind; [discriminate|].
  rewrite trimEnd_snoc. destruct (isWhiteSpace d) eqn:E; [exact IH|].
  rewrite last_snoc. intros [= <-]. exact E.
Qed.

Lemma trimStart_cons c s : isWhiteSpace c = false -> trimStart (c :: s) = c :: s.
Proof. intros H. cbn [trimStart]. rewrite H. reflexivity. Qed.

(** The two alternatives of the pattern, as code units. *)
Lemma matchesScheme_units s :
  matchesScheme s =
  startsWith_ci [104; 116; 116; 112; 58; 47; 47] s
  || startsWith_ci [104; 116; 116; 112; 115; 58; 47; 47] s.
Proof. reflexivity. Qed.

(** A string that carries the scheme starts with [h] or [H]. *)
Lemma matchesScheme_head s :
  matchesScheme s = true -> exists c s', s = c :: s' /\ isWhiteSpace c = false.
Proof.
  destruct s as [|c s']; [discriminate|]. intros H. exists c, s'.
  split; [reflexivity|].
  assert (Hc : eq_ci 104 c = true).
  { rewrite matchesScheme_units in H. cbn [startsWith_ci] in H.
    destruct (eq_ci 104 c); [reflexivity | discriminate]. }
  unfold eq_ci in Hc.
  change (104 - 32) with 72 in Hc.
  destruct (N.eqb_spec c 104) as [->|_]; [reflexivity|].
  destruct (N.eqb_spec c 72) as [->|_]; [reflexivity | discriminate].
Qed.

Lemma eq_ci_slash c : eq_ci 47 c = true -> c = 47.
Proof.
  unfold eq_ci. change ((97 <=? 47) && (47 <=? 122)) with false.
  cbn [andb]. rewrite orb_false_r. apply N.eqb_eq.
Qed.

(** Dropping the last code unit of a string that carries the scheme
    leaves the scheme in place, unless that unit was the second slash. *)
Lemma matchesScheme_snoc s c :
  matchesScheme (s ++ [c]) = true ->
  matchesScheme s = true \/ (c = 47 /\ last s = Some 47).
Proof.
  rewrite !matchesScheme_units.
  destruct s as [|c1 [|c2 [|c3 [|c4 [|c5 [|c6 [|c7 [|c8 s]]]]]]]];
    cbn [app startsWith_ci]; intros H.
  9: { left. exact H. }
  all: repeat match type of H with
         | context [eq_ci ?p ?x] =>
             let E := fresh "E" in
             destruct (eq_ci p x) eqn:E; cbn in H; try discriminate
         end.
  all: try (left; reflexivity).
  all: try (right; repeat match goal with
                     | E : eq_ci 47 _ = true |- _ => apply eq_ci_slash in E; subst
                     end; split; reflexivity).
Qed.

Lemma matchesScheme_trimEnd s :
  matchesScheme s = true -> matchesScheme (trimEnd s) = true.
Proof.
  induction s as [|c s IH] using rev_ind; [discriminate|].
  rewrite trimEnd_snoc. destruct (isWhiteSpace c) eqn:E; [|trivial].
  intros H. apply IH.
  destruct (matchesScheme_snoc s c H) as [Hs|[-> _]]; [exact Hs | discriminate].
Qed.

Lemma matchesScheme_https s : matchesScheme (js "https://" ++ s) = true.
Proof. reflexivity. Qed.

Lemma removeTrailingSlash_length s :
  (length (removeTrailingSlash s) <= length s)%nat.
Proof.
  destruct s as [|c s _] using rev_ind; [cbn; lia|].
  rewrite removeTrailingSlash_snoc. destruct (c =? 47); [|lia].
  rewrite length_app. lia.
Qed.

Lemma trim_fixed c s :
  isWhiteSpace c = false ->
  (forall d, last (c :: s) = Some d -> isWhiteSpace d = false) ->
  trim (c :: s) = c :: s.
Proof.
  intros Hc Hlast. unfold trim. rewrite (trimStart_cons c s Hc).
  destruct (c :: s) as [|d q _] using rev_ind; [reflexivity|].
  rewrite trimEnd_snoc, (Hlast d); [reflexivity | apply last_snoc].
Qed.

(** What [normalizeUrl] hands to its last step: a string that carries the
    scheme and does not end with a code unit [trim] removes. *)
Lemma normalizeUrl_shape u :
  exists p, normalizeUrl u = removeTrailingSlash p
            /\ matchesScheme p = true
            /\ (forall c, last p = Some c -> isWhiteSpace c = false).
Proof.
  unfold normalizeUrl.
  assert (Ht : forall c, last (trim u) = Some c -> isWhiteSpace c = false).
  { intros c. unfold trim. apply trimEnd_last. }
  destruct (matchesScheme (trim u)) eqn:E; cbn [negb].
  - exists (trim u). auto.
  - exists (js "https://" ++ trim u).
    split; [reflexivity|]. split; [apply matchesScheme_https|].
    destruct (trim u) as [|d t _] using rev_ind.
    + intros c [= <-]. reflexivity.
    + rewrite app_assoc, last_snoc. intros c [= <-].
      apply Ht, last_snoc.
Qed.

(** A string with the scheme and a clean end is left as it is. *)
Lemma normalizeUrl_fixed p :
  matchesScheme p = true -> endsWithSlashOrSpace p = false -> normalizeUrl p = p.
Proof.
  intros Hm Hend.
  destruct (matchesScheme_head p Hm) as [c [s [-> Hc]]].
  assert (Hlast : forall d, last (c :: s) = Some d ->
                            (d =? 47) = false /\ isWhiteSpace d = false).
  { intros d Hd. unfold endsWithSlashOrSpace in Hend. rewrite Hd in Hend.
    apply orb_false_iff in Hend. exact Hend. }
  unfold normalizeUrl.
  rewrite trim_fixed; [|exact Hc|intros d Hd; apply (Hlast d Hd)].
  rewrite Hm. cbn [negb].
  destruct (c :: s) as [|d q _] using rev_ind; [reflexivity|].
  rewrite removeTrailingSlash_snoc.
  destruct (Hlast d (last_snoc d q)) as [-> _]. reflexivity.
Qed.

(** After the second slash of the pattern or a trailing slash was cut,
    a string that still ends badly is changed by a second pass. *)
Lemma normalizeUrl_moves q :
  matchesScheme (q ++ [47]) = true ->
  endsWithSlashOrSpace q = true ->
  normalizeUrl q <> q.
Proof.
  intros Hm Hend Heq. apply (f_equal (@length N)) in Heq.
  destruct (matchesScheme_head _ Hm) as [c0 [s0 [Hq Hc0]]].
  destruct q as [|c q']; [discriminate|].
  cbn [app] in Hq. injection Hq as <- _.
  revert Heq Hend Hm.
  destruct (c :: q') as [|d r _] using rev_ind; [discriminate|].
  intros Heq Hend Hm.
  assert (Hstart : trimStart (r ++ [d]) = r ++ [d]).
  { destruct r; cbn [app]; apply trimStart_cons.
    - destruct (matchesScheme_head _ Hm) as [? [? [[= <- _] ?]]]; assumption.
    - destruct (matchesScheme_head _ Hm) as [? [? [[= <- _] ?]]]; assumption. }
  unfold endsWithSlashOrSpace in Hend. rewrite last_snoc in Hend.
  unfold normalizeUrl, trim in Heq. rewrite Hstart, trimEnd_snoc in Heq.
  rewrite length_app in Heq. cbn [length] in Heq.
  destruct (isWhiteSpace d) eqn:Ews.
  - assert (Hmq : matchesScheme (r ++ [d]) = true).
    { destruct (matchesScheme_snoc _ _ Hm) as [H|[_ H]]; [exact H|].
      rewrite last_snoc in H. injection H as ->. discriminate. }
    pose proof (matchesScheme_trimEnd _ Hmq) as Hx.
    rewrite trimEnd_snoc, Ews in Hx. rewrite Hx in Heq. cbn [negb] in Heq.
    pose proof (removeTrailingSlash_length (trimEnd r)).
    pose proof (trimEnd_length r). lia.
  - rewrite orb_false_r in Hend. apply N.eqb_eq in Hend. subst d.
    destruct (matchesScheme (r ++ [47])); cbn [negb] in Heq.
    + rewrite removeTrailingSlash_snoc in Heq. cbn in Heq. lia.
    + rewrite app_assoc, removeTrailingSlash_snoc in Heq.
      change (47 =? 47) with true in Heq. cbv iota in Heq.
      rewrite length_app in Heq. cbn in Heq. lia.
Qed.

End NormalizeFacts.

(** C2 (as the code has it). A second pass of [normalizeUrl] changes
    nothing exactly when the first result ends neither with a slash nor
    with a code unit that [trim] removes: one trailing slash is cut per
    pass, and cutting it can expose another slash or a space. *)
Theorem normalizeUrl_idempotent_iff (u : jsstring) :
  normalizeUrl (normalizeUrl u) = normalizeUrl u
  <-> endsWithSlashOrSpace (normalizeUrl u) = false.
Proof.
  destruct (normalizeUrl_shape u) as [p [-> [Hm Hlast]]].
  destruct (matchesScheme_head p Hm) as [c0 [s0 [Hp _]]].
  revert Hm Hlast Hp. destruct p as [|d q _] using rev_ind; [discriminate|].
  intros Hm Hlast _. rewrite removeTrailingSlash_snoc.
  destruct (N.eqb_spec d 47) as [->|Hd].
  - split.
    + intros Heq. destruct (endsWithSlashOrSpace q) eqn:E; [|reflexivity].
      destruct (normalizeUrl_moves q Hm E Heq).
    + intros E. apply normalizeUrl_fixed; [|exact E].
      destruct (matchesScheme_snoc q 47 Hm) as [H|[_ H]]; [exact H|].
      unfold endsWithSlashOrSpace in E. rewrite H in E. discriminate.
  - assert (E : endsWithSlashOrSpace (q ++ [d]) = false).
    { unfold endsWithSlashOrSpace. rewrite last_snoc.
      rewrite (Hlast d (last_snoc d q)), orb_false_r. apply N.eqb_neq, Hd. }
    split; [intros _; exact E | intros _; apply normalizeUrl_fixed; assumption].
Qed.

(** C2 as stated fails: a URL that ends with two slashes loses one of
    them at each pass. *)
Lemma normalizeUrl_not_idempotent :
  normalizeUrl (js "https://example.com//") = js "https://example.com/"
  /\ normalizeUrl (normalizeUrl (js "https://example.com//")) = js "https://example.com"
  /\ normalizeUrl (normalizeUrl (js "https://example.com//"))
     <> normalizeUrl (js "https://example.com//").
Proof. vm_compute. repeat split; discriminate. Qed.

(** ** base 62: arithmetic on Numbers below 2^53 *)

Section NumberFacts.

Local Open Scope Z_scope.

Section Digits.

Lemma digits2_pos_size p : digits2_pos p = Pos.size p.
Proof. induction p; cbn; congruence. Qed.

Lemma Zdigits2_log2 z : 0 < z -> Zdigits2 z = Z.log2 z + 1.
Proof.
  destruct z as [|p|p]; try lia. intros _. cbn [Zdigits2].
  rewrite digits2_pos_size. destruct p; cbn; lia.
Qed.

Lemma iter_pos_iter {A} (f : A -> A) p x : SpecFloat.iter_pos f p x = Pos.iter f x p.
Proof.
  revert x. induction p as [p IH|p IH|]; intros x; cbn [SpecFloat.iter_pos Pos.iter].
  - rewrite !IH, Pos.iter_swap. rewrite Pos.iter_swap. reflexivity.
  - rewrite !IH. reflexivity.
  - reflexivity.
Qed.

Lemma shr_1_double z :
  0 < z ->
  shr_1 {| shr_m := 2 * z; shr_r := false; shr_s := false |}
  = {| shr_m := z; shr_r := false; shr_s := false |}.
Proof. destruct z; try lia. reflexivity. Qed.

(** Shifting out [k] zero bits is exact. *)
Lemma shr_exact k z :
  0 < z ->
  SpecFloat.iter_pos shr_1 k {| shr_m := z * 2 ^ Zpos k; shr_r := false; shr_s := false |}
  = {| shr_m := z; shr_r := false; shr_s := false |}.
Proof.
  rewrite iter_pos_iter. revert z.
  induction k as [|k IH] using Pos.peano_ind; intros z Hz.
  - cbn [Pos.iter]. rewrite Z.pow_1_r, Z.mul_comm. apply shr_1_double, Hz.
  - rewrite Pos.iter_succ, Pos2Z.inj_succ, Z.pow_succ_r by lia.
    replace (z * (2 * 2 ^ Zpos k)) with ((2 * z) * 2 ^ Zpos k) by lia.
    rewrite IH by lia. apply shr_1_double, Hz.
Qed.

End Digits.

Section Rounding.

Lemma log2_53 m : 2 ^ 52 <= m < 2 ^ 53 -> Z.log2 m = 52.
Proof. intros H. apply Z.log2_unique; [lia|]. exact H. Qed.

(** A 53-bit mantissa followed by [k] zero bits is brought back to the
    mantissa, exactly. *)
Lemma shr_fexp_exact m0 k e :
  2 ^ 52 <= m0 < 2 ^ 53 -> 0 <= k -> -1074 <= e ->
  shr_fexp prec emax (m0 * 2 ^ k) (e - k) loc_Exact
  = ({| shr_m := m0; shr_r := false; shr_s := false |}, e).
Proof.
  intros Hm Hk He.
  assert (Hpos : 0 < m0) by lia.
  assert (Hp : 0 < 2 ^ k) by (apply Z.pow_pos_nonneg; lia).
  unfold shr_fexp.
  rewrite Zdigits2_log2 by nia.
  rewrite Z.log2_mul_pow2, (log2_53 m0 Hm) by lia.
  unfold fexp, emin, prec, emax.
  rewrite Z.max_l by lia.
  replace (k + 52 + 1 + (e - k) - 53 - (e - k)) with k by lia.
  cbn [shr_record_of_loc]. unfold shr.
  destruct k as [|p|p]; [| |lia].
  - rewrite Z.mul_1_r, Z.sub_0_r. reflexivity.
  - rewrite shr_exact by lia. f_equal. lia.
Qed.

Lemma BRA_exact m0 k e :
  2 ^ 52 <= m0 < 2 ^ 53 -> 0 <= k -> -1074 <= e <= 971 ->
  binary_round_aux prec emax false (m0 * 2 ^ k) (e - k) loc_Exact
  = S754_finite false (Z.to_pos m0) e.
Proof.
  intros Hm Hk He. unfold binary_round_aux.
  rewrite shr_fexp_exact by lia.
  cbn [shr_m loc_of_shr_record round_nearest_even].
  pose proof (shr_fexp_exact m0 0 e Hm (Z.le_refl 0) (proj1 He)) as H0.
  rewrite Z.mul_1_r, Z.sub_0_r in H0. rewrite H0. cbn [shr_m].
  destruct m0 as [|p|p]; try lia.
  unfold emax, prec. destruct (Z.leb_spec e (1024 - 53)); [reflexivity|lia].
Qed.

End Rounding.

Section Canonical.

Lemma canon_mantissa n :
  0 < n < 2 ^ 53 ->
  0 <= Z.log2 n <= 52 /\ 2 ^ 52 <= n * 2 ^ (52 - Z.log2 n) < 2 ^ 53.
Proof.
  intros Hn.
  destruct (Z.log2_spec n (proj1 Hn)) as [Hlo Hhi].
  pose proof (Z.log2_nonneg n) as HL.
  assert (HL52 : Z.log2 n <= 52).
  { destruct (Z.le_gt_cases (Z.log2 n) 52) as [H|H]; [exact H|].
    assert (2 ^ 53 <= 2 ^ Z.log2 n) by (apply Z.pow_le_mono_r; lia). lia. }
  split; [lia|].
  assert (Hp : 0 < 2 ^ (52 - Z.log2 n)) by (apply Z.pow_pos_nonneg; lia).
  assert (E1 : 2 ^ Z.log2 n * 2 ^ (52 - Z.log2 n) = 2 ^ 52).
  { rewrite <- Z.pow_add_r by lia. f_equal. lia. }
  assert (E2 : 2 ^ Z.succ (Z.log2 n) * 2 ^ (52 - Z.log2 n) = 2 ^ 53).
  { rewrite <- Z.pow_add_r by lia. f_equal. lia. }
  split; nia.
Qed.

Lemma Zpos_iter_xO p d : Zpos (Pos.iter xO p d) = Zpos p * 2 ^ Zpos d.
Proof.
  rewrite (Pos.iter_swap_gen _ _ Zpos xO (Z.mul 2)) by reflexivity.
  change (Pos.iter (Z.mul 2) (Zpos p) d) with (Z.shiftl (Zpos p) (Zpos d)).
  apply Z.shiftl_mul_pow2. lia.
Qed.

Lemma shl_align_fst m e e' :
  e' <= e -> Zpos (fst (shl_align m e e')) = Zpos m * 2 ^ (e - e').
Proof.
  intros H. unfold shl_align.
  destruct (e' - e) as [|d|d] eqn:E; try lia.
  - replace (e - e') with 0 by lia. cbn [fst]. lia.
  - cbn [fst]. rewrite Zpos_iter_xO. f_equal. f_equal. lia.
Qed.

Lemma shl_align_snd m e e' : e' <= e -> snd (shl_align m e e') = e'.
Proof.
  intros H. unfold shl_align.
  destruct (e' - e) as [|d|d] eqn:E; cbn [snd]; lia.
Qed.

Lemma shl_align_id m e e' : e <= e' -> shl_align m e e' = (m, e).
Proof.
  intros H. unfold shl_align. destruct (e' - e) as [|d|d] eqn:E; try reflexivity. lia.
Qed.

(** Any way of writing a positive integer below 2^53 as [n * 2^j] at
    exponent [-j] is rounded to its canonical form. *)
Lemma binary_round_canon n j :
  0 < n < 2 ^ 53 -> 0 <= j <= 1000 ->
  binary_round prec emax false (Z.to_pos (n * 2 ^ j)) (- j) = canon n.
Proof.
  intros Hn Hj.
  destruct (canon_mantissa n Hn) as [HL Hm].
  assert (Hp : 0 < 2 ^ j) by (apply Z.pow_pos_nonneg; lia).
  assert (Hnj : 0 < n * 2 ^ j) by nia.
  unfold binary_round, canon.
  destruct (Z.eqb_spec n 0) as [|_]; [lia|].
  assert (Hd : Zpos (digits2_pos (Z.to_pos (n * 2 ^ j))) = j + Z.log2 n + 1).
  { change (Zpos (digits2_pos ?p)) with (Zdigits2 (Zpos p)).
    rewrite Z2Pos.id by exact Hnj.
    rewrite Zdigits2_log2 by exact Hnj.
    rewrite Z.log2_mul_pow2 by lia. reflexivity. }
  rewrite Hd. unfold fexp, emin, prec, emax. rewrite Z.max_l by lia.
  replace (j + Z.log2 n + 1 + - j - 53) with (Z.log2 n - 52) by lia.
  destruct (Z.le_gt_cases (- j) (Z.log2 n - 52)) as [Hle|Hgt].
  - rewrite shl_align_id by exact Hle.
    rewrite Z2Pos.id by exact Hnj.
    replace (n * 2 ^ j) with (n * 2 ^ (52 - Z.log2 n) * 2 ^ (j - (52 - Z.log2 n))).
    2:{ rewrite <- Z.mul_assoc, <- Z.pow_add_r by lia. do 2 f_equal. lia. }
    replace (- j) with (Z.log2 n - 52 - (j - (52 - Z.log2 n))) by lia.
    apply BRA_exact; lia.
  - pose proof (shl_align_fst (Z.to_pos (n * 2 ^ j)) (- j) (Z.log2 n - 52)) as Hf.
    pose proof (shl_align_snd (Z.to_pos (n * 2 ^ j)) (- j) (Z.log2 n - 52)) as Hs.
    destruct (shl_align (Z.to_pos (n * 2 ^ j)) (- j) (Z.log2 n - 52)) as [mz ez].
    cbn [fst snd] in Hf, Hs. rewrite Hs, Hf by lia.
    rewrite Z2Pos.id by exact Hnj.
    replace (n * 2 ^ j * 2 ^ (- j - (Z.log2 n - 52))) with (n * 2 ^ (52 - Z.log2 n)).
    2:{ rewrite <- Z.mul_assoc, <- Z.pow_add_r by lia. do 2 f_equal. lia. }
    pose proof (BRA_exact (n * 2 ^ (52 - Z.log2 n)) 0 (Z.log2 n - 52)) as H.
    rewrite Z.mul_1_r, Z.sub_0_r in H. apply H; lia.
Qed.

Lemma of_Z_canon n : 0 <= n < 2 ^ 53 -> of_Z n = canon n.
Proof.
  intros Hn. destruct (Z.eq_dec n 0) as [->|Hne]; [reflexivity|].
  pose proof (binary_round_canon n 0) as H.
  rewrite Z.mul_1_r in H. unfold of_Z, binary_normalize.
  destruct n as [|p|p]; try lia. apply H; lia.
Qed.

Lemma gt_canon n : 0 <= n < 2 ^ 53 -> gt (canon n) zero = (0 <? n).
Proof.
  intros Hn. unfold canon. destruct (Z.eqb_spec n 0) as [->|Hne]; [reflexivity|].
  cbn. destruct (Z.ltb_spec 0 n); [reflexivity|lia].
Qed.

Lemma strict_eq_canon n : 0 <= n < 2 ^ 53 -> strict_eq (canon n) zero = (n =? 0).
Proof.
  intros Hn. unfold canon. destruct (Z.eqb_spec n 0) as [->|Hne]; reflexivity.
Qed.

End Canonical.

Section ExactArithmetic.

Lemma canon_pos n :
  0 < n < 2 ^ 53 ->
  canon n = S754_finite false (Z.to_pos (n * 2 ^ (52 - Z.log2 n))) (Z.log2 n - 52).
Proof.
  intros Hn. unfold canon. destruct (Z.eqb_spec n 0); [lia|reflexivity].
Qed.

Lemma canon_62 : canon 62 = S754_finite false 8725724278030336 (-47).
Proof. reflexivity. Qed.

(** Sums of integers that stay below 2^53 are exact. *)
Lemma plus_canon a b :
  0 <= a -> 0 <= b -> a + b < 2 ^ 53 ->
  plus (canon a) (canon b) = canon (a + b).
Proof.
  intros Ha Hb Hab.
  destruct (Z.eq_dec a 0) as [->|Hane].
  { rewrite Z.add_0_l. unfold canon. change (0 =? 0) with true. cbv iota.
    destruct (b =? 0); reflexivity. }
  destruct (Z.eq_dec b 0) as [->|Hbne].
  { rewrite Z.add_0_r. unfold canon. change (0 =? 0) with true. cbv iota.
    destruct (a =? 0); reflexivity. }
  rewrite (canon_pos a), (canon_pos b) by lia.
  destruct (canon_mantissa a) as [HLa Hma]; [lia|].
  destruct (canon_mantissa b) as [HLb Hmb]; [lia|].
  unfold plus, SFadd. cbn [cond_Zopp].
  set (ea := Z.log2 a - 52). set (eb := Z.log2 b - 52).
  set (ez := Z.min ea eb).
  rewrite !shl_align_fst by (subst ez; lia).
  rewrite !Z2Pos.id by lia.
  assert (Ea : a * 2 ^ (52 - Z.log2 a) * 2 ^ (ea - ez) = a * 2 ^ (- ez)).
  { rewrite <- Z.mul_assoc, <- Z.pow_add_r by (subst ea ez eb; lia).
    do 2 f_equal. subst ea. lia. }
  assert (Eb : b * 2 ^ (52 - Z.log2 b) * 2 ^ (eb - ez) = b * 2 ^ (- ez)).
  { rewrite <- Z.mul_assoc, <- Z.pow_add_r by (subst ea ez eb; lia).
    do 2 f_equal. subst eb. lia. }
  rewrite Ea, Eb, <- Z.mul_add_distr_r.
  assert (Hp : 0 < 2 ^ (- ez)) by (apply Z.pow_pos_nonneg; subst ez ea eb; lia).
  unfold binary_normalize.
  pose proof (binary_round_canon (a + b) (- ez)) as H.
  rewrite Z.opp_involutive in H.
  destruct ((a + b) * 2 ^ (- ez)) as [|p|p] eqn:E; try nia.
  cbn [Z.to_pos] in H. apply H; subst ez ea eb; lia.
Qed.

(** Products by 62 that stay below 2^53 are exact. *)
Lemma times_canon_62 a :
  0 <= a -> 62 * a < 2 ^ 53 ->
  times (canon a) (canon 62) = canon (62 * a).
Proof.
  intros Ha Hb.
  destruct (Z.eq_dec a 0) as [->|Hane]; [reflexivity|].
  rewrite (canon_pos a), canon_62, (canon_pos (62 * a)) by lia.
  destruct (canon_mantissa a) as [HLa Hma]; [lia|].
  destruct (canon_mantissa (62 * a)) as [HLb Hmb]; [lia|].
  assert (HL : Z.log2 a <= Z.log2 (62 * a)) by (apply Z.log2_le_mono; lia).
  unfold times, SFmul. cbn [xorb].
  change (Zpos (?p * ?q)) with (Zpos p * Zpos q).
  rewrite Z2Pos.id by lia.
  set (k := 47 + Z.log2 (62 * a) - Z.log2 a).
  replace (a * 2 ^ (52 - Z.log2 a) * 8725724278030336)
    with (62 * a * 2 ^ (52 - Z.log2 (62 * a)) * 2 ^ k).
  2:{ change 8725724278030336 with (62 * 2 ^ 47).
      rewrite <- (Z.mul_assoc (62 * a)), <- Z.pow_add_r by (subst k; lia).
      replace (52 - Z.log2 (62 * a) + k) with (52 - Z.log2 a + 47) by (subst k; lia).
      rewrite Z.pow_add_r by lia. ring. }
  replace (Z.log2 a - 52 + -47) with (Z.log2 (62 * a) - 52 - k) by (subst k; lia).
  apply BRA_exact; subst k; lia.
Qed.

(** The remainder by 62 of an integer below 2^53. *)
Lemma remainder_canon n :
  0 < n < 2 ^ 53 -> remainder (canon n) 62 = canon (n mod 62).
Proof.
  intros Hn. rewrite (canon_pos n Hn).
  destruct (canon_mantissa n Hn) as [HL Hm].
  pose proof (Z.mod_pos_bound n 62 ltac:(lia)) as Hr.
  unfold remainder. rewrite Z2Pos.id by lia.
  set (e := Z.log2 n - 52).
  assert (Hp : 0 < 2 ^ (- e)) by (apply Z.pow_pos_nonneg; subst e; lia).
  assert (Er : (if 0 <=? e then (n * 2 ^ (52 - Z.log2 n) * 2 ^ e) mod 62
                else (n * 2 ^ (52 - Z.log2 n)) mod (62 * 2 ^ (- e)))
               = (n mod 62) * 2 ^ (- e)).
  { destruct (Z.leb_spec 0 e).
    - assert (e = 0) as E0 by (subst e; lia). rewrite E0.
      replace (52 - Z.log2 n) with 0 by (subst e; lia).
      cbn [Z.pow Z.opp]. rewrite !Z.mul_1_r. reflexivity.
    - replace (52 - Z.log2 n) with (- e) by (subst e; lia).
      apply Z.mul_mod_distr_r; lia. }
  rewrite Er. clear Er.
  destruct (Z.eqb_spec (n mod 62 * 2 ^ (- e)) 0) as [E0|Ene].
  - assert (n mod 62 = 0) as -> by nia. reflexivity.
  - rewrite Z.min_l by (subst e; lia). cbn [cond_Zopp].
    unfold binary_normalize.
    pose proof (binary_round_canon (n mod 62) (- e)) as H.
    rewrite Z.opp_involutive in H.
    destruct (n mod 62 * 2 ^ (- e)) as [|p|p] eqn:E; try nia.
    cbn [Z.to_pos] in H. apply H; subst e; lia.
Qed.

Lemma to_Z_canon n : 0 <= n < 2 ^ 53 -> to_Z (canon n) = Some n.
Proof.
  intros Hn. destruct (Z.eq_dec n 0) as [->|Hne]; [reflexivity|].
  rewrite canon_pos by lia.
  destruct (canon_mantissa n) as [HL Hm]; [lia|].
  unfold to_Z. rewrite Z2Pos.id by lia. cbn [cond_Zopp].
  set (e := Z.log2 n - 52).
  assert (Hp : 0 < 2 ^ (- e)) by (apply Z.pow_pos_nonneg; subst e; lia).
  destruct (Z.leb_spec 0 e).
  - replace (52 - Z.log2 n) with 0 by (subst e; lia).
    replace e with 0 by (subst e; lia). cbn [Z.pow]. f_equal. lia.
  - replace (52 - Z.log2 n) with (- e) by (subst e; lia).
    rewrite Z.mod_mul, Z.eqb_refl, Z.div_mul by lia. reflexivity.
Qed.

Lemma to_index_canon n :
  0 <= n < 2 ^ 53 -> to_index (canon n) = Some (Z.to_N n).
Proof.
  intros Hn. unfold to_index. rewrite to_Z_canon by exact Hn.
  destruct (Z.leb_spec 0 n); [reflexivity|lia].
Qed.

End ExactArithmetic.

Section NearestRounding.

Lemma loc_of_shr_record_of_loc m l :
  loc_of_shr_record (shr_record_of_loc m l) = l.
Proof. destruct l as [|[| |]]; reflexivity. Qed.

Lemma shr_m_shr_record_of_loc m l : shr_m (shr_record_of_loc m l) = m.
Proof. destruct l as [|[| |]]; reflexivity. Qed.

Lemma round_nearest_even_cases m l :
  round_nearest_even m l = m \/ round_nearest_even m l = m + 1.
Proof.
  destruct l as [|[| |]]; cbn [round_nearest_even]; auto.
  destruct (Z.even m); auto.
Qed.

(** The last step of rounding: a mantissa of 53 bits is kept, and 2^53
    becomes 2^52 at the next exponent. *)
Lemma round_finish m1 e1 :
  2 ^ 52 <= m1 <= 2 ^ 53 -> -1074 <= e1 <= 970 ->
  exists m e2,
    (let '(mrs, e'') := shr_fexp prec emax m1 e1 loc_Exact in
     match shr_m mrs with
     | Z0 => S754_zero false
     | Zpos m => if e'' <=? emax - prec then S754_finite false m e''
                 else S754_infinity false
     | Zneg _ => S754_nan
     end) = S754_finite false m e2
    /\ e1 <= e2 <= e1 + 1 /\ Zpos m * 2 ^ (e2 - e1) = m1.
Proof.
  intros Hm He.
  destruct (Z.eq_dec m1 (2 ^ 53)) as [->|Hne].
  - pose proof (shr_fexp_exact (2 ^ 52) 1 (e1 + 1)) as H.
    replace (e1 + 1 - 1) with e1 in H by lia.
    change (2 ^ 52 * 2 ^ 1) with (2 ^ 53) in H. rewrite H by lia.
    cbn [shr_m]. exists (Z.to_pos (2 ^ 52)), (e1 + 1).
    unfold emax, prec. destruct (Z.leb_spec (e1 + 1) (1024 - 53)); [|lia].
    split; [reflexivity|]. split; [lia|].
    replace (e1 + 1 - e1) with 1 by lia. reflexivity.
  - pose proof (shr_fexp_exact m1 0 e1) as H.
    rewrite Z.mul_1_r, Z.sub_0_r in H. rewrite H by lia.
    cbn [shr_m]. exists (Z.to_pos m1), e1.
    destruct m1 as [|p|p]; try lia.
    unfold emax, prec. destruct (Z.leb_spec e1 (1024 - 53)); [|lia].
    split; [reflexivity|]. split; [lia|].
    rewrite Z.sub_diag. cbn [Z.to_pos Z.pow]. lia.
Qed.

(** Rounding a quotient of 53 or 54 bits to nearest, ties to even: the
    result is the quotient or a neighbour of it, and the neighbour below
    is taken only for an odd quotient. *)
Lemma BRA_near q e loc :
  2 ^ 52 <= q < 2 ^ 54 -> -1074 <= e <= 960 ->
  exists m e2,
    binary_round_aux prec emax false q e loc = S754_finite false m e2
    /\ e <= e2 <= e + 2
    /\ (Zpos m * 2 ^ (e2 - e) = q
        \/ Zpos m * 2 ^ (e2 - e) = q + 1
        \/ (Zpos m * 2 ^ (e2 - e) = q - 1 /\ Z.odd q = true)).
Proof.
  intros Hq He. unfold binary_round_aux.
  assert (HL : Z.log2 q = 52 \/ Z.log2 q = 53).
  { destruct (Z.lt_ge_cases q (2 ^ 53)).
    - left. apply Z.log2_unique; lia.
    - right. apply Z.log2_unique; [lia|]. change (2 ^ Z.succ 53) with (2 ^ 54). lia. }
  unfold shr_fexp at 1. rewrite Zdigits2_log2 by lia.
  unfold fexp, emin, prec, emax. rewrite Z.max_l by lia.
  destruct HL as [HL|HL]; rewrite HL.
  - replace (52 + 1 + e - 53 - e) with 0 by lia. cbn [shr].
    rewrite shr_m_shr_record_of_loc, loc_of_shr_record_of_loc.
    assert (Hq53 : q < 2 ^ 53).
    { destruct (Z.lt_ge_cases q (2 ^ 53)) as [H|H]; [exact H|].
      assert (53 <= Z.log2 q) by (apply Z.log2_le_pow2; lia). lia. }
    destruct (round_finish (round_nearest_even q loc) e) as [m [e2 [Hr [He2 Hv]]]].
    { destruct (round_nearest_even_cases q loc) as [-> | ->]; lia. }
    { lia. }
    exists m, e2. split; [exact Hr|]. split; [lia|].
    rewrite Hv. destruct (round_nearest_even_cases q loc) as [-> | ->]; auto.
  - replace (53 + 1 + e - 53 - e) with 1 by lia. cbn [shr SpecFloat.iter_pos].
    assert (Hq53 : 2 ^ 53 <= q).
    { destruct (Z.lt_ge_cases q (2 ^ 53)) as [H|H]; [|exact H].
      assert (Z.log2 q < 53) by (apply Z.log2_lt_pow2; lia). lia. }
    assert (Hstep : exists m1,
               round_nearest_even (shr_m (shr_1 (shr_record_of_loc q loc)))
                 (loc_of_shr_record (shr_1 (shr_record_of_loc q loc))) = m1
               /\ (2 * m1 = q \/ 2 * m1 = q + 1
                   \/ (2 * m1 = q - 1 /\ Z.odd q = true))).
    { eexists. split; [reflexivity|].
      destruct q as [|[p|p|]|]; try lia;
        destruct loc as [|[| |]]; cbn [shr_record_of_loc shr_1 shr_m orb
          loc_of_shr_record round_nearest_even];
        try destruct (Z.even (Zpos p));
        first [ left; lia | right; left; lia
              | right; right; split; [lia | reflexivity] ]. }
    destruct Hstep as [m1 [Em1 Hm1]]. rewrite Em1.
    destruct (round_finish m1 (e + 1)) as [m [e2 [Hr [He2 Hv]]]]; [lia|lia|].
    exists m, e2. split; [exact Hr|]. split; [lia|].
    replace (e2 - e) with (e2 - (e + 1) + 1) by lia.
    rewrite Z.pow_add_r, Z.mul_assoc, Hv by lia.
    change (2 ^ 1) with 2.
    destruct Hm1 as [H|[H|[H Ho]]];
      [left; lia | right; left; lia | right; right; split; [lia | exact Ho]].
Qed.

End NearestRounding.

Section Division.

(** [Math.floor(n / 62)] is the integer quotient for every integer below
    2^53: the quotient is rounded to 53 bits, which leaves at least five
    bits after the binary point, too fine to reach the next integer. *)
Lemma floor_divide_62 n :
  0 < n < 2 ^ 53 -> floor (divide (canon n) (canon 62)) = canon (n / 62).
Proof.
  intros Hn. rewrite (canon_pos n Hn), canon_62.
  destruct (canon_mantissa n Hn) as [HL Hm].
  set (M := n * 2 ^ (52 - Z.log2 n)) in *.
  set (en := Z.log2 n - 52).
  unfold divide, SFdiv, SFdiv_core_binary. cbn [xorb]. cbv zeta.
  rewrite Z2Pos.id by lia.
  rewrite (Zdigits2_log2 M), (log2_53 M Hm) by lia.
  change (Zdigits2 8725724278030336) with 53.
  assert (E' : Z.min (fexp prec emax (52 + 1 + en - (53 + -47))) (en - -47) = en - 6).
  { unfold fexp, emin, prec, emax. subst en. lia. }
  rewrite E'. replace (en - -47 - (en - 6)) with 53 by lia.
  rewrite Z.shiftl_mul_pow2 by lia.
  destruct (Z.div_eucl (M * 2 ^ 53) 8725724278030336) as [q r] eqn:Ediv.
  assert (Eq : q = M * 2 ^ 53 / 8725724278030336).
  { unfold Z.div. rewrite Ediv. reflexivity. }
  clear Ediv.
  (* the quotient in units of 2^(en - 6) *)
  set (G := 2 ^ (6 - en)).
  assert (HG : 64 <= G).
  { subst G. change 64 with (2 ^ 6). apply Z.pow_le_mono_r; subst en; lia. }
  assert (HG2 : G = 2 * 2 ^ (5 - en)).
  { subst G. rewrite <- Z.pow_succ_r by (subst en; lia). f_equal. lia. }
  assert (EM : M * 2 ^ 53 = n * G * 2 ^ 47).
  { subst M G. rewrite <- !Z.mul_assoc, <- !Z.pow_add_r by (subst en; lia).
    do 2 f_equal. subst en. lia. }
  assert (Eq' : q = n * G / 62).
  { rewrite Eq, EM. change 8725724278030336 with (62 * 2 ^ 47).
    apply Z.div_mul_cancel_r; lia. }
  assert (Hq : 2 ^ 52 <= q < 2 ^ 54).
  { rewrite Eq. split.
    - apply Z.div_le_lower_bound; lia.
    - apply Z.div_lt_upper_bound; lia. }
  destruct (BRA_near q (en - 6) (new_location 8725724278030336 r) Hq)
    as [m [e2 [Hr [He2 Hv]]]]; [subst en; lia|].
  rewrite Hr. unfold floor.
  destruct (Z.leb_spec 0 e2) as [|_]; [subst en; lia|].
  cbn [cond_Zopp].
  (* the integer part of the rounded quotient *)
  set (v := Zpos m * 2 ^ (e2 - (en - 6))) in Hv.
  assert (Ev : Zpos m / 2 ^ (- e2) = v / G).
  { subst v G. replace (6 - en) with (- e2 + (e2 - (en - 6))) by lia.
    rewrite Z.pow_add_r by lia.
    symmetry. apply Z.div_mul_cancel_r.
    - apply Z.pow_nonzero; lia.
    - apply Z.pow_nonzero; lia. }
  rewrite Ev.
  pose proof (Z.div_mod n 62 ltac:(lia)) as Hn62.
  pose proof (Z.mod_pos_bound n 62 ltac:(lia)) as Hr62.
  pose proof (Z.div_mod (n * G) 62 ltac:(lia)) as HnG.
  pose proof (Z.mod_pos_bound (n * G) 62 ltac:(lia)) as HrG.
  rewrite <- Eq' in HnG.
  assert (HQ : 0 <= n / 62) by (apply Z.div_pos; lia).
  assert (Hbounds : n / 62 * G <= v < (n / 62 + 1) * G).
  { assert (EnG : n * G = 62 * (n / 62 * G) + n mod 62 * G) by nia.
    assert (Hrg : 0 <= n mod 62 * G <= 61 * G) by nia.
    set (P := n / 62 * G) in *.
    assert (HP : P = 2 * (n / 62 * 2 ^ (5 - en))) by (subst P; nia).
    destruct Hv as [Hv|[Hv|[Hv Hodd]]].
    - lia.
    - lia.
    - apply Z.odd_spec in Hodd. destruct Hodd as [t Ht]. lia. }
  assert (Hdiv : v / G = n / 62).
  { symmetry. apply (Z.div_unique v G (n / 62) (v - n / 62 * G)); lia. }
  rewrite Hdiv. apply of_Z_canon.
  split; [exact HQ|]. apply Z.div_lt_upper_bound; lia.
Qed.

End Division.

End NumberFacts.

(** ** base 62: the round trip *)

Section RoundTrip.

Local Open Scope Z_scope.

(** Each index below 62 selects a symbol, and [indexOf] finds the index
    back: the symbols of the alphabet are distinct. *)
Lemma indexOf_BASE62 i :
  0 <= i < 62 ->
  exists c, charAt_concat BASE62_CHARS (Some (Z.to_N i)) = [c]
            /\ indexOf BASE62_CHARS c = i.
Proof.
  intros Hi.
  assert (Hk : (Z.to_nat i < 62)%nat) by lia.
  replace i with (Z.of_nat (Z.to_nat i)) by lia.
  revert Hk. generalize (Z.to_nat i). clear i Hi. intros k Hk.
  do 62 (destruct k as [|k]; [eexists; split; reflexivity|]).
  lia.
Qed.

Lemma decodeBase62_snoc s c :
  decodeBase62 (s ++ [c]) = decodeBase62_step (decodeBase62 s) c.
Proof. unfold decodeBase62. rewrite fold_left_app. reflexivity. Qed.

Lemma pow62_9 : 2 ^ 53 < 62 ^ 9.
Proof. reflexivity. Qed.

(** The encoding loop on an integer below 2^53 ends within [fuel]
    iterations when the integer has at most [fuel] digits, and what it
    prepends decodes to the integer. *)
Lemma encodeBase62_loop_spec fuel n acc :
  0 <= n < 2 ^ 53 -> n < 62 ^ Z.of_nat fuel ->
  exists s, encodeBase62_loop fuel (canon n) acc = Some (s ++ acc)
            /\ decodeBase62 s = canon n.
Proof.
  revert n acc. induction fuel as [|fuel IH]; intros n acc Hn Hlt.
  - assert (n = 0) as -> by (cbn in Hlt; lia).
    exists []. split; reflexivity.
  - cbn [encodeBase62_loop]. rewrite gt_canon by exact Hn.
    destruct (Z.ltb_spec 0 n) as [Hpos|Hz].
    2:{ assert (n = 0) as -> by lia. exists []. split; reflexivity. }
    change (of_Z 62) with (canon 62).
    rewrite floor_divide_62, remainder_canon by lia.
    pose proof (Z.mod_pos_bound n 62 ltac:(lia)) as Hr.
    rewrite to_index_canon by lia.
    destruct (indexOf_BASE62 (n mod 62) Hr) as [c [Hc Hidx]]. rewrite Hc.
    assert (Hq : 0 <= n / 62 < 2 ^ 53).
    { split; [apply Z.div_pos; lia | apply Z.div_lt_upper_bound; lia]. }
    assert (Hq' : n / 62 < 62 ^ Z.of_nat fuel).
    { apply Z.div_lt_upper_bound; [lia|].
      rewrite Nat2Z.inj_succ, Z.pow_succ_r in Hlt by lia. exact Hlt. }
    destruct (IH (n / 62) ([c] ++ acc) Hq Hq') as [s [Hs Hd]].
    exists (s ++ [c]). rewrite <- app_assoc. split; [exact Hs|].
    rewrite decodeBase62_snoc, Hd. unfold decodeBase62_step.
    rewrite Hidx. change (of_Z 62) with (canon 62).
    rewrite (of_Z_canon (n mod 62)) by lia.
    pose proof (Z.div_mod n 62 ltac:(lia)) as Hdm.
    rewrite times_canon_62 by lia.
    rewrite plus_canon by lia.
    f_equal. lia.
Qed.

End RoundTrip.

(** C3 (as the code has it). For every integer n with 0 <= n < 2^53,
    taken as a Number, [encodeBase62] returns a string (its loop ends
    within 9 iterations) and [decodeBase62] of that string is n; and
    [encodeBase62(0)] is "0". The arithmetic is that of binary64 Numbers,
    not arbitrary precision. *)
Theorem decodeBase62_encodeBase62 (n : Z) (fuel : nat) :
  (0 <= n < 2 ^ 53)%Z -> (9 <= fuel)%nat ->
  (exists s, encodeBase62 fuel (of_Z n) = Some s
             /\ decodeBase62 s = of_Z n
             /\ to_Z (decodeBase62 s) = Some n)
  /\ encodeBase62 fuel (of_Z 0) = Some (js "0").
Proof.
  intros Hn Hfuel. split; [|reflexivity].
  rewrite of_Z_canon by exact Hn.
  unfold encodeBase62. rewrite strict_eq_canon by exact Hn.
  destruct (Z.eqb_spec n 0) as [->|Hne].
  - eexists. split; [reflexivity|]. split; reflexivity.
  - destruct (encodeBase62_loop_spec fuel n []) as [s [Hs Hd]]; [exact Hn| |].
    { apply Z.lt_le_trans with (62 ^ 9)%Z.
      - pose proof pow62_9. lia.
      - apply Z.pow_le_mono_r; lia. }
    exists s. rewrite app_nil_r in Hs.
    split; [exact Hs|]. split; [exact Hd|].
    rewrite Hd. apply to_Z_canon, Hn.
Qed.

Lemma decodeBase62_encodeBase62_witness :
  exists s, encodeBase62 20 (of_Z 1000000) = Some s
            /\ decodeBase62 s = of_Z 1000000
            /\ to_Z (decodeBase62 s) = Some 1000000%Z.
Proof.
  refine (proj1 (decodeBase62_encodeBase62 1000000 20 _ _)).
  - split; [discriminate | reflexivity].
  - lia.
Defined.

(** C3 as stated fails: 2^54 + 60 is a Number, [encodeBase62] writes it
    in base 62 without loss, and [decodeBase62] returns 2^54 + 64: the
    products and sums of the decoding are rounded to 53 bits. *)
Lemma decodeBase62_encodeBase62_rounds :
  to_Z (of_Z 18014398509482044) = Some 18014398509482044%Z
  /\ encodeBase62 20 (of_Z 18014398509482044) = Some (js "1kvnArUVje")
  /\ to_Z (decodeBase62 (js "1kvnArUVje")) = Some 18014398509482048%Z
  /\ decodeBase62 (js "1kvnArUVje") <> of_Z 18014398509482044.
Proof. vm_compute. repeat split; discriminate. Qed.

(** * More of the code *)

(** ** base 62 beyond the round trip *)

Section Base62More.

Local Open Scope Z_scope.


Lemma over_BASE62_of_forallb s :
  forallb (fun c => existsb (N.eqb c) BASE62_CHARS) s = true ->
  Forall (fun c => In c BASE62_CHARS) s.
Proof.
  intros H. apply List.Forall_forall. intros c Hc.
  rewrite forallb_forall in H. specialize (H c Hc).
  apply existsb_exists in H. destruct H as [d [Hd E]].
  apply N.eqb_eq in E. subst d. exact Hd.
Qed.

(** A symbol of the alphabet has an index below 62, which selects it. *)
Lemma indexOf_In_BASE62 c :
  In c BASE62_CHARS ->
  0 <= indexOf BASE62_CHARS c < 62
  /\ charAt_concat BASE62_CHARS (Some (Z.to_N (indexOf BASE62_CHARS c))) = [c]
  /\ (indexOf BASE62_CHARS c = 0 -> c = 48%N).
Proof.
  assert (Hall : forallb
            (fun c =>
               (0 <=? indexOf BASE62_CHARS c) && (indexOf BASE62_CHARS c <? 62)
               && match charAt_concat BASE62_CHARS
                          (Some (Z.to_N (indexOf BASE62_CHARS c))) with
                  | [d] => N.eqb d c
                  | _ => false
                  end
               && implb (indexOf BASE62_CHARS c =? 0) (N.eqb c 48))
            BASE62_CHARS = true) by (vm_compute; reflexivity).
  intros H. rewrite forallb_forall in Hall. specialize (Hall c H).
  apply andb_true_iff in Hall. destruct Hall as [Hall H3].
  apply andb_true_iff in Hall. destruct Hall as [Hall H2].
  apply andb_true_iff in Hall. destruct Hall as [H0 H1].
  apply Z.leb_le in H0. apply Z.ltb_lt in H1.
  split; [lia|]. split.
  - destruct (charAt_concat BASE62_CHARS _) as [|d [|]]; try discriminate.
    apply N.eqb_eq in H2. subst d. reflexivity.
  - intros E. rewrite E in H3. cbn in H3. apply N.eqb_eq in H3. exact H3.
Qed.

Lemma indexOf_not_In s c : ~ In c s -> indexOf s c = -1.
Proof.
  induction s as [|d s IH]; intros H; cbn [indexOf]; [reflexivity|].
  destruct (N.eqb_spec d c) as [->|_]; [destruct H; left; reflexivity|].
  rewrite IH by (intros Hin; apply H; right; exact Hin). reflexivity.
Qed.

Lemma base62_value_snoc s c :
  base62_value (s ++ [c]) = base62_value s * 62 + indexOf BASE62_CHARS c.
Proof. unfold base62_value. rewrite fold_left_app. reflexivity. Qed.

Lemma base62_value_nonneg s :
  Forall (fun c => In c BASE62_CHARS) s -> 0 <= base62_value s.
Proof.
  induction s as [|c s IH] using rev_ind; intros H; [cbn; lia|].
  apply Forall_app in H. destruct H as [Hs Hc]. inversion Hc; subst.
  rewrite base62_value_snoc.
  destruct (indexOf_In_BASE62 c) as [Hi _]; [assumption|].
  specialize (IH Hs). lia.
Qed.

(** A string that starts with a symbol other than [0] has a positive value. *)
Lemma base62_value_pos c s :
  Forall (fun c => In c BASE62_CHARS) (c :: s) -> c <> 48%N ->
  0 < base62_value (c :: s).
Proof.
  revert c. induction s as [|d s IH] using rev_ind; intros c H Hc.
  - inversion H; subst.
    destruct (indexOf_In_BASE62 c) as [Hi [_ H0]]; [assumption|].
    change (base62_value [c]) with (0 * 62 + indexOf BASE62_CHARS c).
    destruct (Z.eq_dec (indexOf BASE62_CHARS c) 0) as [E|E]; [|lia].
    destruct Hc. apply H0, E.
  - rewrite app_comm_cons, base62_value_snoc.
    rewrite app_comm_cons in H. apply Forall_app in H. destruct H as [Hs Hd].
    inversion Hd; subst.
    destruct (indexOf_In_BASE62 d) as [Hi _]; [assumption|].
    specialize (IH c Hs Hc). lia.
Qed.

(** [decodeBase62] on symbols of the alphabet is the base-62 value,
    as long as the value stays below 2^53. *)
Lemma decodeBase62_canon s :
  Forall (fun c => In c BASE62_CHARS) s -> base62_value s < 2 ^ 53 ->
  decodeBase62 s = canon (base62_value s).
Proof.
  induction s as [|c s IH] using rev_ind; intros H Hv; [reflexivity|].
  apply Forall_app in H. destruct H as [Hs Hc]. inversion Hc; subst.
  rewrite base62_value_snoc in Hv |- *.
  destruct (indexOf_In_BASE62 c) as [Hi _]; [assumption|].
  pose proof (base62_value_nonneg s Hs) as Hn.
  rewrite decodeBase62_snoc, IH by (assumption || lia).
  unfold decodeBase62_step. change (of_Z 62) with (canon 62).
  rewrite of_Z_canon, times_canon_62, plus_canon by lia.
  f_equal. lia.
Qed.

(** The encoding loop writes a string without a leading [0] back. *)
Lemma encodeBase62_loop_canonical s :
  forall fuel acc,
  Forall (fun c => In c BASE62_CHARS) s ->
  (s = [] \/ exists c s', s = c :: s' /\ c <> 48%N) ->
  base62_value s < 2 ^ 53 -> (length s <= fuel)%nat ->
  encodeBase62_loop fuel (canon (base62_value s)) acc = Some (s ++ acc).
Proof.
  induction s as [|c s IH] using rev_ind; intros fuel acc H Hhd Hv Hlen.
  - destruct fuel; reflexivity.
  - apply Forall_app in H. destruct H as [Hs Hc]. inversion Hc; subst.
    destruct (indexOf_In_BASE62 c) as [Hi [Hsym H0]]; [assumption|].
    pose proof (base62_value_nonneg s Hs) as Hn.
    rewrite base62_value_snoc in Hv |- *.
    assert (Hhd' : s = [] \/ exists c' s', s = c' :: s' /\ c' <> 48%N).
    { destruct s as [|c' s']; [left; reflexivity|right].
      destruct Hhd as [Hnil|[c0 [s0 [E Hne]]]]; [discriminate|].
      injection E as <- _. eauto. }
    assert (Hpos : 0 < base62_value s * 62 + indexOf BASE62_CHARS c).
    { destruct Hhd' as [->|[c' [s' [-> Hne]]]].
      - destruct Hhd as [Hnil|[c0 [s0 [E Hne]]]]; [discriminate|].
        injection E as <- _.
        change (base62_value []) with 0.
        destruct (Z.eq_dec (indexOf BASE62_CHARS c) 0) as [E0|E0]; [|lia].
        destruct Hne. apply H0, E0.
      - pose proof (base62_value_pos c' s' Hs Hne). lia. }
    rewrite length_app in Hlen. cbn [length] in Hlen.
    destruct fuel as [|fuel]; [lia|].
    cbn [encodeBase62_loop]. rewrite gt_canon by lia.
    destruct (Z.ltb_spec 0 (base62_value s * 62 + indexOf BASE62_CHARS c)); [|lia].
    change (of_Z 62) with (canon 62).
    rewrite floor_divide_62, remainder_canon by lia.
    replace ((base62_value s * 62 + indexOf BASE62_CHARS c) / 62)
      with (base62_value s)
      by (apply (Z.div_unique _ 62 _ (indexOf BASE62_CHARS c)); lia).
    replace ((base62_value s * 62 + indexOf BASE62_CHARS c) mod 62)
      with (indexOf BASE62_CHARS c)
      by (apply (Z.mod_unique _ 62 (base62_value s)); lia).
    rewrite to_index_canon, Hsym by lia.
    rewrite IH by (assumption || lia).
    rewrite <- app_assoc. reflexivity.
Qed.

(** The encoding loop on an integer below 2^53: what it prepends is over
    the alphabet, has no leading [0], has as many symbols as the integer
    has base-62 digits, and decodes to the integer. *)
Lemma encodeBase62_loop_shape fuel n acc :
  0 <= n < 2 ^ 53 -> n < 62 ^ Z.of_nat fuel ->
  exists s, encodeBase62_loop fuel (canon n) acc = Some (s ++ acc)
            /\ decodeBase62 s = canon n
            /\ Forall (fun c => In c BASE62_CHARS) s
            /\ (n = 0 -> s = [])
            /\ (0 < n -> exists c s', s = c :: s' /\ c <> 48%N)
            /\ (forall k : nat, n < 62 ^ Z.of_nat k -> (length s <= k)%nat).
Proof.
  revert n acc. induction fuel as [|fuel IH]; intros n acc Hn Hlt.
  - assert (n = 0) as -> by (cbn in Hlt; lia).
    exists []. repeat split; try reflexivity; try constructor; try lia.
    intros; cbn; lia.
  - cbn [encodeBase62_loop]. rewrite gt_canon by exact Hn.
    destruct (Z.ltb_spec 0 n) as [Hpos|Hz].
    2:{ assert (n = 0) as -> by lia.
        exists []. repeat split; try reflexivity; try constructor; try lia.
        intros; cbn; lia. }
    change (of_Z 62) with (canon 62).
    rewrite floor_divide_62, remainder_canon by lia.
    pose proof (Z.mod_pos_bound n 62 ltac:(lia)) as Hr.
    rewrite to_index_canon by lia.
    destruct (indexOf_BASE62 (n mod 62) Hr) as [c [Hc Hidx]]. rewrite Hc.
    assert (Hin : In c BASE62_CHARS).
    { destruct (in_dec N.eq_dec c BASE62_CHARS) as [H|H]; [exact H|].
      rewrite (indexOf_not_In _ _ H) in Hidx. lia. }
    assert (Hq : 0 <= n / 62 < 2 ^ 53).
    { split; [apply Z.div_pos; lia | apply Z.div_lt_upper_bound; lia]. }
    assert (Hq' : n / 62 < 62 ^ Z.of_nat fuel).
    { apply Z.div_lt_upper_bound; [lia|].
      rewrite Nat2Z.inj_succ, Z.pow_succ_r in Hlt by lia. exact Hlt. }
    pose proof (Z.div_mod n 62 ltac:(lia)) as Hdm.
    destruct (IH (n / 62) ([c] ++ acc) Hq Hq')
      as [s [Hs [Hd [Hall [Hnil [Hhd Hlen]]]]]].
    exists (s ++ [c]). rewrite <- app_assoc. split; [exact Hs|].
    split.
    { rewrite decodeBase62_snoc, Hd. unfold decodeBase62_step.
      rewrite Hidx. change (of_Z 62) with (canon 62).
      rewrite (of_Z_canon (n mod 62)) by lia.
      rewrite times_canon_62 by lia. rewrite plus_canon by lia.
      f_equal. lia. }
    split; [apply Forall_app; split; [exact Hall | constructor; [exact Hin|constructor]]|].
    split; [lia|]. split.
    { intros _. destruct (Z.eq_dec (n / 62) 0) as [E|E].
      - rewrite (Hnil E). exists c, []. split; [reflexivity|].
        intros ->. change (indexOf BASE62_CHARS 48%N) with 0 in Hidx. lia.
      - destruct Hhd as [c' [s' [-> Hne]]]; [lia|].
        exists c', (s' ++ [c]). split; [reflexivity | exact Hne]. }
    intros k Hk. rewrite length_app. cbn [length].
    destruct k as [|k]; [cbn in Hk; lia|].
    assert (n / 62 < 62 ^ Z.of_nat k).
    { apply Z.div_lt_upper_bound; [lia|].
      rewrite Nat2Z.inj_succ, Z.pow_succ_r in Hk by lia. exact Hk. }
    specialize (Hlen k ltac:(assumption)). lia.
Qed.

(** [encodeBase62] on an integer below 2^53, with what it returns. *)
Lemma encodeBase62_shape n fuel :
  0 <= n < 2 ^ 53 -> (9 <= fuel)%nat ->
  exists s, encodeBase62 fuel (of_Z n) = Some s
            /\ decodeBase62 s = canon n
            /\ Forall (fun c => In c BASE62_CHARS) s
            /\ (1 <= length s <= 9)%nat
            /\ (s = [48%N] \/ exists c s', s = c :: s' /\ c <> 48%N).
Proof.
  intros Hn Hfuel. rewrite of_Z_canon by exact Hn.
  unfold encodeBase62. rewrite strict_eq_canon by exact Hn.
  destruct (Z.eqb_spec n 0) as [->|Hne].
  - exists [48%N]. split; [reflexivity|]. split; [reflexivity|].
    split; [apply over_BASE62_of_forallb; reflexivity|].
    split; [cbn; lia | left; reflexivity].
  - assert (Hlt : n < 62 ^ Z.of_nat fuel).
    { apply Z.lt_le_trans with (62 ^ 9).
      - pose proof pow62_9. lia.
      - apply Z.pow_le_mono_r; lia. }
    destruct (encodeBase62_loop_shape fuel n [] Hn Hlt)
      as [s [Hs [Hd [Hall [_ [Hhd Hlen]]]]]].
    rewrite app_nil_r in Hs. exists s.
    split; [exact Hs|]. split; [exact Hd|]. split; [exact Hall|].
    destruct Hhd as [c [s' [-> Hc]]]; [lia|].
    split; [|right; eauto].
    split; [cbn; lia|]. apply (Hlen 9%nat). pose proof pow62_9. lia.
Qed.

End Base62More.


(** X2. [decodeBase62] does not tell a string from the same string
    behind a [0]: leading zero symbols are ignored, so strings with them
    are not written back by [encodeBase62]. *)
Theorem decodeBase62_leading_zeros (k : nat) (s : jsstring) :
  decodeBase62 (repeat 48 k ++ s) = decodeBase62 s.
Proof.
  induction k as [|k IH]; [reflexivity|].
  cbn [repeat app]. rewrite <- IH. reflexivity.
Qed.

(** X3. On a string over the alphabet whose base-62 value (most
    significant symbol first) is below 2^53, [decodeBase62] returns that
    value exactly. *)
Theorem decodeBase62_value (s : jsstring) :
  Forall (fun c => In c BASE62_CHARS) s -> (base62_value s < 2 ^ 53)%Z ->
  to_Z (decodeBase62 s) = Some (base62_value s).
Proof.
  intros H Hv. rewrite decodeBase62_canon by assumption.
  apply to_Z_canon. split; [apply base62_value_nonneg, H | exact Hv].
Qed.

Lemma decodeBase62_value_witness :
  to_Z (decodeBase62 (js "4c92")) = Some (base62_value (js "4c92")).
Proof.
  apply (decodeBase62_value (js "4c92")).
  - apply over_BASE62_of_forallb. reflexivity.
  - reflexivity.
Defined.

(** X4. The other round trip: a non-empty string over the alphabet that
    is ["0"] or does not start with [0], and whose value is below 2^53, is
    what [encodeBase62] returns for its decoding. *)
Theorem encodeBase62_decodeBase62 (s : jsstring) (fuel : nat) :
  Forall (fun c => In c BASE62_CHARS) s ->
  (s = [48] \/ exists c s', s = c :: s' /\ c <> 48) ->
  (base62_value s < 2 ^ 53)%Z -> (length s <= fuel)%nat ->
  encodeBase62 fuel (decodeBase62 s) = Some s.
Proof.
  intros H Hhd Hv Hlen.
  destruct Hhd as [->|Hhd]; [reflexivity|].
  rewrite decodeBase62_canon by assumption.
  destruct Hhd as [c [s' [-> Hc]]].
  pose proof (base62_value_pos c s' H Hc) as Hpos.
  unfold encodeBase62.
  rewrite strict_eq_canon by lia.
  destruct (Z.eqb_spec (base62_value (c :: s')) 0) as [E|_]; [lia|].
  rewrite (encodeBase62_loop_canonical (c :: s') fuel []); try assumption.
  - rewrite app_nil_r. reflexivity.
  - right. eauto.
Qed.

Lemma encodeBase62_decodeBase62_witness :
  encodeBase62 20 (decodeBase62 (js "4c92")) = Some (js "4c92").
Proof.
  apply (encodeBase62_decodeBase62 (js "4c92") 20).
  - apply over_BASE62_of_forallb. reflexivity.
  - right. exists 52, (js "c92"). split; [reflexivity | discriminate].
  - reflexivity.
  - cbn. lia.
Defined.

(** X5. On the integers from 0 up to 2^53 [encodeBase62] returns between
    1 and 9 symbols of the alphabet, without a leading [0] except for the
    string ["0"] itself, and different integers get different strings. *)
Theorem encodeBase62_canonical_injective (n1 n2 : Z) (fuel : nat) :
  (0 <= n1 < 2 ^ 53)%Z -> (0 <= n2 < 2 ^ 53)%Z -> (9 <= fuel)%nat ->
  (exists s, encodeBase62 fuel (of_Z n1) = Some s
             /\ Forall (fun c => In c BASE62_CHARS) s
             /\ (1 <= length s <= 9)%nat
             /\ (s = [48] \/ exists c s', s = c :: s' /\ c <> 48))
  /\ (encodeBase62 fuel (of_Z n1) = encodeBase62 fuel (of_Z n2) -> n1 = n2).
Proof.
  intros H1 H2 Hfuel.
  destruct (encodeBase62_shape n1 fuel H1 Hfuel) as [s1 [E1 [D1 [A1 [L1 C1]]]]].
  destruct (encodeBase62_shape n2 fuel H2 Hfuel) as [s2 [E2 [D2 _]]].
  split; [exists s1; auto|].
  rewrite E1, E2. intros [= ->].
  assert (Some n1 = Some n2) as [= ->]; [|reflexivity].
  rewrite <- (to_Z_canon n1 H1), <- (to_Z_canon n2 H2). congruence.
Qed.

Lemma encodeBase62_canonical_injective_witness :
  exists s, encodeBase62 20 (of_Z 62) = Some s
            /\ Forall (fun c => In c BASE62_CHARS) s
            /\ (1 <= length s <= 9)%nat
            /\ (s = [48] \/ exists c s', s = c :: s' /\ c <> 48).
Proof.
  refine (proj1 (encodeBase62_canonical_injective 62 3843 20 _ _ _)).
  - split; [discriminate | reflexivity].
  - split; [discriminate | reflexivity].
  - lia.
Defined.

(** X6. [decodeBase62] rejects nothing: a code unit outside the alphabet
    counts as the digit -1, so a string made of one such unit decodes
    to -1. *)
Theorem decodeBase62_foreign_symbol (c : N) :
  ~ In c BASE62_CHARS -> to_Z (decodeBase62 [c]) = Some (-1)%Z.
Proof.
  intros H. unfold decodeBase62. cbn [fold_left]. unfold decodeBase62_step.
  rewrite (indexOf_not_In _ _ H). reflexivity.
Qed.

Lemma decodeBase62_foreign_symbol_witness :
  to_Z (decodeBase62 (js "-")) = Some (-1)%Z.
Proof.
  apply (decodeBase62_foreign_symbol 45).
  vm_compute. intuition discriminate.
Defined.

(** ** normalize and surrounding whitespace *)

Section TrimFacts.

Lemma trimStart_allWhiteSpace a x :
  allWhiteSpace a -> trimStart (a ++ x) = trimStart x.
Proof.
  induction 1 as [|c a Hc _ IH]; [reflexivity|].
  cbn [app trimStart]. rewrite Hc. exact IH.
Qed.

Lemma trimEnd_allWhiteSpace x b :
  allWhiteSpace b -> trimEnd (x ++ b) = trimEnd x.
Proof.
  induction b as [|c b IH] using rev_ind; intros H; [rewrite app_nil_r; reflexivity|].
  apply Forall_app in H. destruct H as [Hb Hc]. inversion Hc; subst.
  rewrite app_assoc, trimEnd_snoc.
  match goal with E : isWhiteSpace c = true |- _ => rewrite E end.
  apply IH, Hb.
Qed.

Lemma trimStart_app u b :
  trimStart (u ++ b) =
  match trimStart u with
  | [] => trimStart b
  | _ :: _ => trimStart u ++ b
  end.
Proof.
  induction u as [|c u IH]; cbn [app trimStart].
  - reflexivity.
  - destruct (isWhiteSpace c); [exact IH | reflexivity].
Qed.

Lemma trim_padding a u b :
  allWhiteSpace a -> allWhiteSpace b -> trim (a ++ u ++ b) = trim u.
Proof.
  intros Ha Hb. unfold trim.
  rewrite trimStart_allWhiteSpace by exact Ha.
  rewrite trimStart_app.
  destruct (trimStart u) as [|c t] eqn:E.
  - rewrite <- (app_nil_r b), trimStart_allWhiteSpace by exact Hb. reflexivity.
  - apply trimEnd_allWhiteSpace, Hb.
Qed.

End TrimFacts.

(** X7. [normalizeUrl] does not see whitespace around its input: padding
    a string with code units that [trim] removes, before and after,
    changes nothing in the result. *)
Theorem normalizeUrl_padding (a u b : jsstring) :
  allWhiteSpace a -> allWhiteSpace b ->
  normalizeUrl (a ++ u ++ b) = normalizeUrl u.
Proof.
  intros Ha Hb. unfold normalizeUrl. rewrite trim_padding by assumption.
  reflexivity.
Qed.

Lemma normalizeUrl_padding_witness :
  normalizeUrl (js "  " ++ js "example.com/a" ++ [10; 9])
  = normalizeUrl (js "example.com/a").
Proof.
  apply (normalizeUrl_padding (js "  ") (js "example.com/a") [10; 9]);
    repeat constructor.
Defined.

(** ** createShortUrl and getOriginalUrl together *)

Section ServiceRuns.

Variable new_URL : jsstring -> option URL.
Variable SHORT_CODE_LENGTH : nat.
Variable BASE_URL : jsstring.


(** [createShortUrl] for a valid URL that already has a mapping, without
    interference. *)
Lemma createShortUrl_existing url w existing rest :
  isValidUrl new_URL url = Normal true ->
  select_by_url (normalizeUrl url) (db w) = existing :: rest ->
  env w = [] ->
  createShortUrl new_URL SHORT_CODE_LENGTH BASE_URL url w =
  (Ok {| createdShortCode := short_code existing;
         createdOriginalUrl := original_url existing;
         shortUrl := BASE_URL ++ js "/" ++ short_code existing;
         createdAt := None;
         isNew := false |},
   set_cache
     {| url_keys := <[short_code existing :=
                        {| originalUrl := original_url existing;
                           shortCode := short_code existing |}]>
                      (url_keys (cache w));
        clicks_keys := clicks_keys (cache w) |}
     (logged [SelectByUrl (normalizeUrl url); CacheSet (short_code existing)] w)).
Proof.
  intros Hvalid Hex Hq.
  unfold createShortUrl. rewrite Hvalid.
  unfold of_completion. unfold bind at 1. unfold ret at 1. cbn [negb].
  unfold bind at 1. rewrite query_quiet by exact Hq.
  cbn [fst snd]. rewrite Hex.
  unfold bind at 1. rewrite cache_set_quiet by exact Hq.
  unfold ret. f_equal.
  destruct w as [d c g t e l]; cbn in *.
  unfold set_cache, set_db, logged; cbn. rewrite <- app_assoc. reflexivity.
Qed.

Lemma getOriginalUrl_hit code cached w e :
  env w = Quiet :: e \/ env w = [] ->
  url_keys (cache w) !! code = Some cached ->
  getOriginalUrl code w =
  (Ok (Some {| resolvedOriginalUrl := originalUrl cached;
               resolvedShortCode := shortCode cached;
               source := js "cache" |}),
   {| db := db w; cache := cache w; random := random w; now := now w;
      env := tl (env w); log := log w ++ [CacheGet code] |}).
Proof.
  intros He Hc. destruct w as [d c g t e' l]; cbn in *.
  unfold getOriginalUrl, cache_get, redisClient_get, bind, try_, ret, await.
  destruct He as [-> | ->];
    cbn [env db cache random now log fst snd tl]; rewrite Hc; reflexivity.
Qed.

Lemma select_by_url_app url rows rows' d :
  urls d = rows ++ rows' ->
  select_by_url url d =
  List.filter (fun r => jsstring_eqb (original_url r) url) rows
  ++ List.filter (fun r => jsstring_eqb (original_url r) url) rows'.
Proof. intros H. unfold select_by_url. rewrite H. apply List.filter_app. Qed.

End ServiceRuns.



(** X9. Creating twice is idempotent: when a first [createShortUrl] for
    a valid, unmapped URL finds a free code, a second call for the same
    URL right after it, still without interference, returns the same
    short code with [isNew] false and adds no row. *)
Theorem createShortUrl_twice (new_URL : jsstring -> option URL)
    (SHORT_CODE_LENGTH : nat) (BASE_URL url : jsstring) (w : world)
    (code : jsstring) :
  isValidUrl new_URL url = Normal true ->
  select_by_url (normalizeUrl url) (db w) = [] ->
  env w = [] ->
  (SHORT_CODE_LENGTH <= 10)%nat ->
  first_free (db w) (candidates SHORT_CODE_LENGTH (random w) maxAttempts)
    = Some code ->
  let first := createShortUrl new_URL SHORT_CODE_LENGTH BASE_URL url w in
  let second := createShortUrl new_URL SHORT_CODE_LENGTH BASE_URL url (snd first) in
  createdShortCode <$> (match fst first with Ok c => Some c | Err _ => None end)
    = Some code
  /\ fst second = Ok {| createdShortCode := code;
                        createdOriginalUrl := normalizeUrl url;
                        shortUrl := BASE_URL ++ js "/" ++ code;
                        createdAt := None;
                        isNew := false |}
  /\ db (snd second) = db (snd first).
Proof.
  intros Hvalid Hnew Hq Hlen Hfree first second.
  pose proof (createShortUrl_quiet new_URL SHORT_CODE_LENGTH BASE_URL url w
                Hvalid Hnew Hq Hlen) as Hrun.
  cbn zeta in Hrun. rewrite Hfree in Hrun. fold first in Hrun.
  set (row := {| id := urls_id_seq (db w); short_code := code;
                 original_url := normalizeUrl url; created_at := now w;
                 click_count := 0; last_accessed := None |}) in Hrun.
  assert (Hsel : select_by_url (normalizeUrl url) (db (snd first)) = [row]).
  { rewrite Hrun. cbn [snd db set_cache set_db].
    rewrite (select_by_url_app _ (urls (db w)) [row]) by reflexivity.
    unfold select_by_url in Hnew. rewrite Hnew. cbn [List.filter app original_url row].
    unfold jsstring_eqb. rewrite bool_decide_eq_true_2 by reflexivity. reflexivity. }
  assert (Hq1 : env (snd first) = []) by (rewrite Hrun; exact Hq).
  subst second.
  rewrite (createShortUrl_existing new_URL SHORT_CODE_LENGTH BASE_URL url
             (snd first) row [] Hvalid Hsel Hq1).
  rewrite Hrun. cbn [fst snd]. repeat split.
Qed.

Lemma createShortUrl_twice_witness :
  fst (createShortUrl example_URL 6 (js "http://sho.rt") (js "https://example.com/c")
         (snd (createShortUrl example_URL 6 (js "http://sho.rt")
                 (js "https://example.com/c") two_collisions_world)))
  = Ok {| createdShortCode := js "222222";
          createdOriginalUrl := js "https://example.com/c";
          shortUrl := js "http://sho.rt/222222";
          createdAt := None;
          isNew := false |}.
Proof.
  refine (proj1 (proj2
            (createShortUrl_twice example_URL 6 (js "http://sho.rt")
               (js "https://example.com/c") two_collisions_world (js "222222")
               _ _ _ _ _))).
  - reflexivity.
  - reflexivity.
  - reflexivity.
  - lia.
  - reflexivity.
Defined.

(** X10. Resolve after create: when [createShortUrl] has created a
    mapping without interference, [getOriginalUrl] of the new short code
    answers from the cache, with the normalized URL, after one cache read
    and no call to the store. *)
Theorem getOriginalUrl_after_create (new_URL : jsstring -> option URL)
    (SHORT_CODE_LENGTH : nat) (BASE_URL url : jsstring) (w : world)
    (code : jsstring) :
  isValidUrl new_URL url = Normal true ->
  select_by_url (normalizeUrl url) (db w) = [] ->
  env w = [] ->
  (SHORT_CODE_LENGTH <= 10)%nat ->
  first_free (db w) (candidates SHORT_CODE_LENGTH (random w) maxAttempts)
    = Some code ->
  let created := snd (createShortUrl new_URL SHORT_CODE_LENGTH BASE_URL url w) in
  fst (getOriginalUrl code created)
  = Ok (Some {| resolvedOriginalUrl := normalizeUrl url;
                resolvedShortCode := code;
                source := js "cache" |})
  /\ log (snd (getOriginalUrl code created)) = log created ++ [CacheGet code].
Proof.
  intros Hvalid Hnew Hq Hlen Hfree created.
  pose proof (createShortUrl_quiet new_URL SHORT_CODE_LENGTH BASE_URL url w
                Hvalid Hnew Hq Hlen) as Hrun.
  cbn zeta in Hrun. rewrite Hfree in Hrun.
  assert (Hc : url_keys (cache created) !! code
               = Some {| originalUrl := normalizeUrl url; shortCode := code |}).
  { subst created. rewrite Hrun. cbn. apply lookup_insert_eq. }
  assert (Hq1 : env created = []) by (subst created; rewrite Hrun; exact Hq).
  rewrite (getOriginalUrl_hit code _ created [] (or_intror Hq1) Hc).
  split; reflexivity.
Qed.

Lemma getOriginalUrl_after_create_witness :
  fst (getOriginalUrl (js "222222")
         (snd (createShortUrl example_URL 6 (js "http://sho.rt")
                 (js "https://example.com/c") two_collisions_world)))
  = Ok (Some {| resolvedOriginalUrl := js "https://example.com/c";
                resolvedShortCode := js "222222";
                source := js "cache" |}).
Proof.
  refine (proj1
            (getOriginalUrl_after_create example_URL 6 (js "http://sho.rt")
               (js "https://example.com/c") two_collisions_world (js "222222")
               _ _ _ _ _)).
  - reflexivity.
  - reflexivity.
  - reflexivity.
  - lia.
  - reflexivity.
Defined.

(** X11. The cache is no hard dependency of a resolve: when the cache
    fails for the read and for the write and the store answers, whatever
    the cache holds, [getOriginalUrl] returns the store's row tagged
    [database], and the cache and the store stay as they were. *)
Theorem getOriginalUrl_cache_outage (code : jsstring) (w : world)
    (urlData : url_row) (rows : list url_row) (e : list interference) :
  env w = Outage :: Quiet :: Outage :: e ->
  select_by_code code (db w) = urlData :: rows ->
  getOriginalUrl code w =
  (Ok (Some {| resolvedOriginalUrl := original_url urlData;
               resolvedShortCode := short_code urlData;
               source := js "database" |}),
   {| db := db w; cache := cache w; random := random w; now := now w;
      env := e;
      log := log w ++ [CacheGet code; SelectByCode code; CacheSet code] |}).
Proof.
  intros He Hs. destruct w as [d c g t e' l]; cbn in *. subst e'.
  unfold getOriginalUrl, cache_get, cache_set, redisClient_get,
    redisClient_setEx, query, bind, try_, ret, await, set_db.
  cbn [env db cache random now log fst snd tl].
  rewrite Hs. cbn [env db cache random now log fst snd tl].
  rewrite <- !app_assoc. reflexivity.
Qed.

Lemma getOriginalUrl_cache_outage_witness :
  fst (getOriginalUrl (js "000000") cache_outage_world)
  = Ok (Some {| resolvedOriginalUrl := js "https://example.com/a";
                resolvedShortCode := js "000000";
                source := js "database" |}).
Proof.
  exact (f_equal fst
           (getOriginalUrl_cache_outage (js "000000") cache_outage_world
              (example_row 1 "000000" "https://example.com/a") [] []
              eq_refl eq_refl)).
Defined.

(** X12. A store outage is surfaced by a resolve only on a cache miss:
    with the entry in the cache the answer comes from the cache whatever
    happens to later calls, and on a miss the failure of the store query
    ends the resolve with StoreUnavailable. *)
Theorem getOriginalUrl_store_outage (code : jsstring) (w : world)
    (e : list interference) :
  env w = Quiet :: Outage :: e ->
  match url_keys (cache w) !! code with
  | Some cached =>
      fst (getOriginalUrl code w)
      = Ok (Some {| resolvedOriginalUrl := originalUrl cached;
                    resolvedShortCode := shortCode cached;
                    source := js "cache" |})
  | None => fst (getOriginalUrl code w) = Err StoreUnavailable
  end.
Proof.
  intros He. destruct (url_keys (cache w) !! code) as [cached|] eqn:Hc.
  - rewrite (getOriginalUrl_hit code cached w (Outage :: e) (or_introl He) Hc).
    reflexivity.
  - destruct w as [d c g t e' l]; cbn in *. subst e'.
    unfold getOriginalUrl, cache_get, redisClient_get, query, bind, try_, ret, await.
    cbn [env db cache random now log fst snd tl]. rewrite Hc. reflexivity.
Qed.

Lemma getOriginalUrl_store_outage_witness :
  fst (getOriginalUrl (js "000000")
         (world_of one_row_database empty_cache (fun _ => 0) [Quiet; Outage]))
  = Err StoreUnavailable.
Proof.
  exact (getOriginalUrl_store_outage (js "000000")
           (world_of one_row_database empty_cache (fun _ => 0) [Quiet; Outage])
           [] eq_refl).
Defined.

(** ** Statistics and deletion *)

Section AdminRuns.

Lemma query_unnamed_quiet {A} (statement : Z -> database -> result A * database) w :
  env w = [] ->
  query_unnamed statement w =
  (fst (statement (now w) (db w)), set_db (snd (statement (now w) (db w))) w).
Proof.
  destruct w as [d c g t e l]; cbn; intros ->.
  unfold query_unnamed, await_unnamed, set_db; cbn.
  destruct (statement t d); reflexivity.
Qed.

Lemma cache_del_url_quiet code w :
  env w = [] ->
  cache_del_url code w =
  (Ok true, set_cache {| url_keys := delete code (url_keys (cache w));
                         clicks_keys := clicks_keys (cache w) |} w).
Proof. destruct w as [d c g t e l]; cbn; intros ->. reflexivity. Qed.

Lemma cache_del_clicks_quiet code w :
  env w = [] ->
  cache_del_clicks code w =
  (Ok true, set_cache {| url_keys := url_keys (cache w);
                         clicks_keys := delete code (clicks_keys (cache w)) |} w).
Proof. destruct w as [d c g t e l]; cbn; intros ->. reflexivity. Qed.

Lemma getOriginalUrl_miss_absent code w :
  env w = [] ->
  url_keys (cache w) !! code = None ->
  select_by_code code (db w) = [] ->
  getOriginalUrl code w = (Ok None, logged [CacheGet code; SelectByCode code] w).
Proof.
  destruct w as [d c g t e l]; cbn; intros -> Hc Hs.
  unfold getOriginalUrl, cache_get, redisClient_get, query, bind, try_, ret,
    await, logged, set_db.
  cbn [env db cache random now log fst snd tl]. rewrite Hc.
  cbn [env db cache random now log fst snd tl]. rewrite Hs.
  rewrite <- app_assoc. reflexivity.
Qed.

Lemma getUrlStats_quiet code w :
  env w = [] ->
  getUrlStats code w =
  (Ok match select_by_code code (db w) with
      | [] => None
      | stats :: _ =>
          Some {| stats_short_code := short_code stats;
                  stats_original_url := original_url stats;
                  stats_created_at := created_at stats;
                  stats_click_count := click_count stats;
                  stats_last_accessed := last_accessed stats;
                  recentClicks := recent_clicks code (db w) |}
      end,
   logged [SelectByCode code] w).
Proof.
  intros Hq. unfold getUrlStats. unfold bind at 1.
  rewrite query_quiet by exact Hq. cbn [fst snd].
  destruct (select_by_code code (db w)) as [|stats rows].
  - reflexivity.
  - unfold bind. rewrite query_unnamed_quiet by exact Hq. reflexivity.
Qed.

Lemma select_by_code_removed code rows :
  List.filter (fun r => jsstring_eqb (short_code r) code)
    (List.filter (fun r => negb (jsstring_eqb (short_code r) code)) rows) = [].
Proof.
  induction rows as [|r rows IH]; [reflexivity|]. cbn [List.filter].
  destruct (jsstring_eqb (short_code r) code) eqn:E; cbn [negb List.filter];
    rewrite ?E; exact IH.
Qed.

Lemma select_by_code_other code code' rows :
  code' <> code ->
  List.filter (fun r => jsstring_eqb (short_code r) code')
    (List.filter (fun r => negb (jsstring_eqb (short_code r) code)) rows)
  = List.filter (fun r => jsstring_eqb (short_code r) code') rows.
Proof.
  intros Hne. induction rows as [|r rows IH]; [reflexivity|]. cbn [List.filter].
  destruct (jsstring_eqb (short_code r) code) eqn:E; cbn [negb List.filter].
  - destruct (jsstring_eqb (short_code r) code') eqn:E'; [|exact IH].
    unfold jsstring_eqb in E, E'.
    apply bool_decide_eq_true_1 in E. apply bool_decide_eq_true_1 in E'.
    congruence.
  - rewrite IH. reflexivity.
Qed.

Lemma clicks_of_removed code rows :
  List.filter (fun c => jsstring_eqb (click_short_code c) code)
    (List.filter (fun c => negb (jsstring_eqb (click_short_code c) code)) rows) = [].
Proof.
  induction rows as [|r rows IH]; [reflexivity|]. cbn [List.filter].
  destruct (jsstring_eqb (click_short_code r) code) eqn:E; cbn [negb List.filter];
    rewrite ?E; exact IH.
Qed.

(** Clicks of a code that no row has do not exist in a store whose
    clicks all refer to rows. *)
Lemma clicks_of_untaken code d :
  clicks_refer_to_urls d -> taken d code = false -> clicks_of code d = [].
Proof.
  unfold clicks_refer_to_urls, clicks_of. intros H Ht.
  induction H as [|c l Hc _ IH]; [reflexivity|]. cbn [List.filter].
  destruct (jsstring_eqb (click_short_code c) code) eqn:E; [|exact IH].
  unfold jsstring_eqb in E. apply bool_decide_eq_true_1 in E.
  rewrite E in Hc. congruence.
Qed.

(** [deleteShortUrl] without interference, when the schema cascades or
    no click refers to the code. *)
Lemma deleteShortUrl_quiet cascade code w :
  env w = [] ->
  cascade = true \/ clicks_of code (db w) = [] ->
  deleteShortUrl cascade code w =
  (Ok (taken (db w) code),
   set_db
     (if taken (db w) code
      then {| urls := List.filter
                        (fun r => negb (jsstring_eqb (short_code r) code))
                        (urls (db w));
              clicks := if cascade
                        then List.filter
                               (fun c => negb (jsstring_eqb (click_short_code c) code))
                               (clicks (db w))
                        else clicks (db w);
              urls_id_seq := urls_id_seq (db w);
              clicks_id_seq := clicks_id_seq (db w) |}
      else db w)
     (set_cache {| url_keys := delete code (url_keys (cache w));
                   clicks_keys := delete code (clicks_keys (cache w)) |} w)).
Proof.
  intros Hq Hc. unfold deleteShortUrl.
  unfold bind at 1. rewrite cache_del_url_quiet by exact Hq.
  unfold bind at 1. rewrite cache_del_clicks_quiet by exact Hq.
  unfold bind at 1. rewrite query_unnamed_quiet by exact Hq.
  cbn [db set_cache now]. unfold delete_url, taken.
  destruct (select_by_code code (db w)) as [|row rows].
  - cbn [fst snd]. unfold ret. destruct w; reflexivity.
  - assert (E : negb cascade && negb (length (clicks_of code (db w)) =? 0)%nat = false).
    { destruct Hc as [-> | ->]; [reflexivity|]. cbn. apply andb_false_r. }
    rewrite E. cbn [fst snd]. unfold ret. destruct w; reflexivity.
Qed.

(** Sorting by time. *)
Lemma insert_by_time_Permutation c l : Permutation (insert_by_time c l) (c :: l).
Proof.
  induction l as [|x l IH]; cbn [insert_by_time]; [reflexivity|].
  destruct (clicked_at x <=? clicked_at c)%Z; [reflexivity|].
  rewrite IH. apply perm_swap.
Qed.

Lemma order_by_time_desc_Permutation l : Permutation (order_by_time_desc l) l.
Proof.
  induction l as [|c l IH]; [reflexivity|]. cbn [order_by_time_desc fold_right].
  rewrite insert_by_time_Permutation. apply perm_skip, IH.
Qed.

Lemma insert_by_time_sorted c l :
  by_time_desc l -> by_time_desc (insert_by_time c l).
Proof.
  induction l as [|x l IH]; cbn [insert_by_time by_time_desc].
  - intros _. split; [constructor | exact I].
  - intros [Hx Hs].
    destruct (Z.leb_spec (clicked_at x) (clicked_at c)); cbn [by_time_desc].
    + split; [|split; assumption].
      constructor; [assumption|].
      eapply List.Forall_impl; [|exact Hx]. cbn. intros; lia.
    + split; [|apply IH, Hs].
      apply List.Forall_forall. intros y Hy.
      apply (Permutation_in _ (insert_by_time_Permutation c l)) in Hy.
      destruct Hy as [<-|Hy]; [lia|].
      rewrite List.Forall_forall in Hx. apply Hx, Hy.
Qed.

Lemma order_by_time_desc_sorted l : by_time_desc (order_by_time_desc l).
Proof.
  induction l as [|c l IH]; [exact I|]. apply insert_by_time_sorted, IH.
Qed.

Lemma In_firstn {A} (y : A) n l : In y (firstn n l) -> In y l.
Proof.
  revert l. induction n as [|n IH]; intros [|x l]; cbn [firstn In];
    try (intros []).
  - left; assumption.
  - right. apply IH. assumption.
Qed.

Lemma firstn_sorted n l : by_time_desc l -> by_time_desc (firstn n l).
Proof.
  revert l. induction n as [|n IH]; intros l H; [exact I|].
  destruct l as [|x l]; [exact I|]. destruct H as [Hx Hs].
  cbn [firstn by_time_desc]. split; [|apply IH, Hs].
  apply List.Forall_forall. intros y Hy. apply In_firstn in Hy.
  rewrite List.Forall_forall in Hx. apply Hx, Hy.
Qed.

Lemma most_recent_first_map l :
  by_time_desc l ->
  most_recent_first
    (List.map (fun c => {| recent_clicked_at := clicked_at c;
                           recent_ip_address := ip_address c;
                           recent_referrer := referrer c |}) l).
Proof.
  induction l as [|x l IH]; cbn [List.map most_recent_first by_time_desc];
    [intros _; exact I|].
  intros [Hx Hs]. split; [|apply IH, Hs].
  apply List.Forall_forall. intros y Hy. apply in_map_iff in Hy.
  destruct Hy as [c [<- Hc]]. cbn.
  rewrite List.Forall_forall in Hx. apply Hx, Hc.
Qed.

(** What the recent-clicks query returns. *)
Lemma recent_clicks_spec code d :
  length (recent_clicks code d) = Nat.min 10 (length (clicks_of code d))
  /\ most_recent_first (recent_clicks code d)
  /\ Forall (fun r => exists c, In c (clicks d)
                                /\ click_short_code c = code
                                /\ recent_clicked_at r = clicked_at c
                                /\ recent_ip_address r = ip_address c
                                /\ recent_referrer r = referrer c)
            (recent_clicks code d).
Proof.
  unfold recent_clicks. split; [|split].
  - rewrite length_map, length_firstn.
    rewrite (Permutation_length (order_by_time_desc_Permutation _)). reflexivity.
  - apply most_recent_first_map, firstn_sorted, order_by_time_desc_sorted.
  - apply List.Forall_forall. intros r Hr. apply in_map_iff in Hr.
    destruct Hr as [c [<- Hc]]. apply In_firstn in Hc.
    apply (Permutation_in _ (order_by_time_desc_Permutation _)) in Hc.
    unfold clicks_of in Hc. apply filter_In in Hc. destruct Hc as [Hin E].
    unfold jsstring_eqb in E. apply bool_decide_eq_true_1 in E.
    exists c. auto.
Qed.

(** [incrementClickCount] without interference when no step fails: the
    rows of [urls] afterwards. *)
Lemma incrementClickCount_quiet_urls code meta w :
  env w = [] ->
  select_by_code code (db w) <> [] ->
  Forall (fun r => (click_count r < INTEGER_MAX)%Z) (select_by_code code (db w)) ->
  (length code <= 10)%nat ->
  too_long 45 (ipAddress meta) = false ->
  (default 0 (clicks_keys (cache w) !! code) < INT64_MAX)%Z ->
  urls (db (snd (incrementClickCount code meta w))) =
    List.map (fun r => if jsstring_eqb (short_code r) code
                       then click_row_update (now w) r else r) (urls (db w))
  /\ env (snd (incrementClickCount code meta w)) = [].
Proof.
  intros Hq Hmapped Hcount Hcode Hip Hctr.
  remember (incrementClickCount code meta w) as run eqn:Hrun.
  unfold incrementClickCount, try_, bind in Hrun.
  rewrite (query_quiet _ _ w Hq) in Hrun.
  unfold update_clicks in Hrun.
  rewrite (existsb_false_of_Forall _ Hcount) in Hrun.
  cbn [fst snd] in Hrun.
  set (d1 := {| urls := List.map _ (urls (db w)); clicks := clicks (db w);
                urls_id_seq := urls_id_seq (db w);
                clicks_id_seq := clicks_id_seq (db w) |}) in Hrun.
  set (w1 := set_db d1 (logged [UpdateClicks code] w)) in Hrun.
  assert (Hq1 : env w1 = []) by exact Hq.
  assert (Hsel : select_by_code code d1 <> []).
  { subst d1. rewrite select_by_code_update.
    destruct (select_by_code code (db w)); [congruence | discriminate]. }
  destruct (truthy (ipAddress meta) || truthy (userAgent meta)) eqn:Htr.
  - rewrite (query_quiet _ _ w1 Hq1) in Hrun.
    unfold insert_click in Hrun.
    assert (Hip' : too_long 45 (or_null (ipAddress meta)) = false).
    { unfold or_null. destruct (truthy (ipAddress meta)); [exact Hip | reflexivity]. }
    rewrite Hip' in Hrun.
    destruct (Nat.ltb_spec 10 (length code)); [lia|].
    cbn [orb db w1 set_db] in Hrun.
    destruct (select_by_code code d1) as [|r0 rows0] eqn:E; [congruence|].
    cbn [fst snd ret] in Hrun.
    rewrite cache_incr_quiet in Hrun; [|exact Hq|exact Hctr].
    subst run. cbn [fst snd]. split; [reflexivity | exact Hq].
  - cbn [ret] in Hrun.
    rewrite cache_incr_quiet in Hrun; [|exact Hq1|exact Hctr].
    subst run. cbn [fst snd]. split; [reflexivity | exact Hq].
Qed.

End AdminRuns.

(** X13. [deleteShortUrl] without interference, when the schema cascades
    or no click refers to the code, in a store whose clicks all refer to
    rows: it returns whether a row had the code; afterwards no row and no
    click has the code and both cache keys are gone, the rows of other
    codes are untouched, and [getOriginalUrl] and [getUrlStats] of the
    code return null. *)
Theorem deleteShortUrl_removes (cascade : bool) (code : jsstring) (w : world) :
  env w = [] ->
  clicks_refer_to_urls (db w) ->
  cascade = true \/ clicks_of code (db w) = [] ->
  let run := deleteShortUrl cascade code w in
  fst run = Ok (taken (db w) code)
  /\ select_by_code code (db (snd run)) = []
  /\ clicks_of code (db (snd run)) = []
  /\ url_keys (cache (snd run)) !! code = None
  /\ clicks_keys (cache (snd run)) !! code = None
  /\ (forall code', code' <> code ->
        select_by_code code' (db (snd run)) = select_by_code code' (db w))
  /\ fst (getOriginalUrl code (snd run)) = Ok None
  /\ fst (getUrlStats code (snd run)) = Ok None.
Proof.
  intros Hq Href Hc run. subst run.
  rewrite (deleteShortUrl_quiet cascade code w Hq Hc).
  cbn [fst snd].
  set (w' := set_db _ _).
  assert (Hsel : select_by_code code (db w') = []).
  { subst w'. cbn [db set_db]. destruct (taken (db w) code) eqn:Et.
    - apply select_by_code_removed.
    - unfold taken in Et. destruct (select_by_code code (db w)); [reflexivity|discriminate]. }
  assert (Hkey : url_keys (cache w') !! code = None).
  { subst w'. cbn. apply lookup_delete_eq. }
  assert (Hq' : env w' = []) by exact Hq.
  split; [reflexivity|]. split; [exact Hsel|]. split.
  { subst w'. cbn [db set_db]. destruct (taken (db w) code) eqn:Et.
    - unfold clicks_of. cbn [clicks]. destruct Hc as [-> | Hc].
      + apply clicks_of_removed.
      + destruct cascade; [apply clicks_of_removed | exact Hc].
    - apply clicks_of_untaken; assumption. }
  split; [exact Hkey|]. split; [subst w'; cbn; apply lookup_delete_eq|].
  split.
  { intros code' Hne. subst w'. cbn [db set_db].
    destruct (taken (db w) code); [|reflexivity].
    apply select_by_code_other, Hne. }
  split.
  - rewrite (getOriginalUrl_miss_absent code w' Hq' Hkey Hsel). reflexivity.
  - rewrite (getUrlStats_quiet code w' Hq'). cbn [fst]. rewrite Hsel. reflexivity.
Qed.

Lemma deleteShortUrl_removes_witness :
  fst (deleteShortUrl true (js "000000") clicked_world) = Ok true.
Proof.
  refine (proj1 (deleteShortUrl_removes true (js "000000") clicked_world _ _ _)).
  - reflexivity.
  - repeat constructor.
  - left. reflexivity.
Defined.

(** X14. Under the schema without ON DELETE CASCADE a mapping that has
    recorded clicks cannot be deleted: without interference
    [deleteShortUrl] ends with the foreign-key error of the store and the
    tables keep all their rows, while the two cache keys are already
    deleted. *)
Theorem deleteShortUrl_without_cascade (code : jsstring) (w : world) :
  env w = [] ->
  taken (db w) code = true ->
  clicks_of code (db w) <> [] ->
  let run := deleteShortUrl false code w in
  fst run = Err ForeignKeyViolation
  /\ db (snd run) = db w
  /\ url_keys (cache (snd run)) = delete code (url_keys (cache w))
  /\ clicks_keys (cache (snd run)) = delete code (clicks_keys (cache w)).
Proof.
  intros Hq Ht Hc run.
  assert (E : run = (Err ForeignKeyViolation,
                     set_cache {| url_keys := delete code (url_keys (cache w));
                                  clicks_keys := delete code (clicks_keys (cache w)) |}
                               w)).
  { subst run. unfold deleteShortUrl.
    unfold bind at 1. rewrite cache_del_url_quiet by exact Hq.
    unfold bind at 1. rewrite cache_del_clicks_quiet by exact Hq.
    unfold bind at 1. rewrite query_unnamed_quiet by exact Hq.
    cbn [db set_cache now]. unfold delete_url. unfold taken in Ht.
    destruct (select_by_code code (db w)) as [|row rows]; [discriminate|].
    destruct (clicks_of code (db w)) as [|c l]; [congruence|].
    cbn [fst snd negb andb length Nat.eqb].
    destruct w; reflexivity. }
  rewrite E. cbn [fst snd db cache set_cache url_keys clicks_keys].
  split; [reflexivity|]. split; [reflexivity|]. split; reflexivity.
Qed.

Lemma deleteShortUrl_without_cascade_witness :
  fst (deleteShortUrl false (js "000000") clicked_world) = Err ForeignKeyViolation.
Proof.
  refine (proj1 (deleteShortUrl_without_cascade (js "000000") clicked_world _ _ _)).
  - reflexivity.
  - reflexivity.
  - discriminate.
Defined.

(** X15. [getUrlStats] without interference returns null for a code no
    row has and otherwise the columns of the first row with the code and
    the recent clicks: at most 10 (all of them when there are no more
    than 10), each one a click recorded for the code, most recent first.
    It leaves the store and the cache as they are. *)
Theorem getUrlStats_reads (code : jsstring) (w : world) :
  env w = [] ->
  let run := getUrlStats code w in
  fst run = Ok match select_by_code code (db w) with
               | [] => None
               | stats :: _ =>
                   Some {| stats_short_code := short_code stats;
                           stats_original_url := original_url stats;
                           stats_created_at := created_at stats;
                           stats_click_count := click_count stats;
                           stats_last_accessed := last_accessed stats;
                           recentClicks := recent_clicks code (db w) |}
               end
  /\ db (snd run) = db w /\ cache (snd run) = cache w
  /\ length (recent_clicks code (db w))
     = Nat.min 10 (length (clicks_of code (db w)))
  /\ most_recent_first (recent_clicks code (db w))
  /\ Forall (fun r => exists c, In c (clicks (db w))
                                /\ click_short_code c = code
                                /\ recent_clicked_at r = clicked_at c
                                /\ recent_ip_address r = ip_address c
                                /\ recent_referrer r = referrer c)
            (recent_clicks code (db w)).
Proof.
  intros Hq run. subst run. rewrite (getUrlStats_quiet code w Hq).
  cbn [fst snd]. split; [reflexivity|]. split; [reflexivity|].
  split; [reflexivity|]. apply recent_clicks_spec.
Qed.

Lemma getUrlStats_reads_witness :
  fst (getUrlStats (js "000000") clicked_world)
  = Ok (Some {| stats_short_code := js "000000";
                stats_original_url := js "https://example.com/a";
                stats_created_at := 10;
                stats_click_count := 0;
                stats_last_accessed := None;
                recentClicks :=
                  [{| recent_clicked_at := 30;
                      recent_ip_address := Some (js "203.0.113.9");
                      recent_referrer := Some (js "https://news.example/") |};
                   {| recent_clicked_at := 20;
                      recent_ip_address := Some (js "203.0.113.7");
                      recent_referrer := None |}] |}).
Proof.
  exact (proj1 (getUrlStats_reads (js "000000") clicked_world eq_refl)).
Defined.

(** X16. A counted click shows in the statistics: after an
    [incrementClickCount] in which no step fails, [getUrlStats] of the
    code reports the click count of its first row plus one and the time
    of the click as last access. *)
Theorem getUrlStats_after_click (code : jsstring) (meta : metadata) (w : world)
    (row : url_row) (rows : list url_row) :
  env w = [] ->
  select_by_code code (db w) = row :: rows ->
  Forall (fun r => (click_count r < INTEGER_MAX)%Z) (select_by_code code (db w)) ->
  (length code <= 10)%nat ->
  too_long 45 (ipAddress meta) = false ->
  (default 0 (clicks_keys (cache w) !! code) < INT64_MAX)%Z ->
  exists stats,
    fst (getUrlStats code (snd (incrementClickCount code meta w))) = Ok (Some stats)
    /\ stats_click_count stats = (click_count row + 1)%Z
    /\ stats_last_accessed stats = Some (now w)
    /\ stats_original_url stats = original_url row.
Proof.
  intros Hq Hsel Hcount Hcode Hip Hctr.
  destruct (incrementClickCount_quiet_urls code meta w Hq) as [Hurls Hq'];
    try assumption; [rewrite Hsel; discriminate|].
  rewrite (getUrlStats_quiet code _ Hq'). cbn [fst].
  assert (E : select_by_code code (db (snd (incrementClickCount code meta w)))
              = List.map (click_row_update (now w)) (row :: rows)).
  { rewrite <- Hsel, <- select_by_code_update.
    unfold select_by_code. rewrite Hurls. reflexivity. }
  rewrite E. cbn [List.map]. eexists. split; [reflexivity|].
  cbn. repeat split.
Qed.

Lemma getUrlStats_after_click_witness :
  exists stats,
    fst (getUrlStats (js "000000")
           (snd (incrementClickCount (js "000000") browser_click one_row_world)))
    = Ok (Some stats)
    /\ stats_click_count stats = (0 + 1)%Z
    /\ stats_last_accessed stats = Some 1000%Z
    /\ stats_original_url stats = js "https://example.com/a".
Proof.
  refine (getUrlStats_after_click (js "000000") browser_click one_row_world
            (example_row 1 "000000" "https://example.com/a") [] _ _ _ _ _ _).
  - reflexivity.
  - reflexivity.
  - repeat constructor.
  - cbn. lia.
  - reflexivity.
  - reflexivity.
Defined.

(** ** What holds in every world *)

Section Preserves.
Variable R : database -> database -> Prop.
Hypothesis R_refl : forall d, R d d.
Hypothesis R_trans : forall a b c, R a b -> R b c -> R a c.
Hypothesis R_insert : forall c u t d, R d (snd (insert_url c u t d)).

Lemma preserves_ret {A} (a : A) : preserves R (ret a).
Proof. intros w. apply R_refl. Qed.

Lemma preserves_throw {A} e : preserves R (@throw A e).
Proof. intros w. apply R_refl. Qed.

Lemma preserves_bind {A B} (m : M A) (k : A -> M B) :
  preserves R m -> (forall a, preserves R (k a)) -> preserves R (bind m k).
Proof.
  intros Hm Hk w. unfold bind. specialize (Hm w).
  destruct (m w) as [[a|e] w1]; cbn [snd] in *; [|exact Hm].
  eapply R_trans; [exact Hm | apply Hk].
Qed.

Lemma preserves_try {A} (m : M A) (h : error -> M A) :
  preserves R m -> (forall e, preserves R (h e)) -> preserves R (try_ m h).
Proof.
  intros Hm Hh w. unfold try_. specialize (Hm w).
  destruct (m w) as [[a|e] w1]; cbn [snd] in *; [exact Hm|].
  eapply R_trans; [exact Hm | apply Hh].
Qed.

Lemma await_preserves ev w : R (db w) (db (snd (await ev w))).
Proof.
  unfold await. destruct (env w) as [|[| |c u] e]; cbn [snd db set_db];
    solve [apply R_refl | apply R_insert].
Qed.

Lemma await_unnamed_preserves w : R (db w) (db (snd (await_unnamed w))).
Proof.
  unfold await_unnamed. destruct (env w) as [|[| |c u] e]; cbn [snd db set_db];
    solve [apply R_refl | apply R_insert].
Qed.

Lemma preserves_query {A} ev (statement : Z -> database -> result A * database) :
  (forall t d, R d (snd (statement t d))) -> preserves R (query ev statement).
Proof.
  intros H w. unfold query. pose proof (await_preserves ev w) as Ha.
  destruct (await ev w) as [failed w1]. cbn [snd] in Ha.
  destruct failed; [exact Ha|].
  specialize (H (now w1) (db w1)).
  destruct (statement (now w1) (db w1)) as [r d]. cbn [snd db set_db] in *.
  eapply R_trans; eassumption.
Qed.

Lemma preserves_query_unnamed {A} (statement : Z -> database -> result A * database) :
  (forall t d, R d (snd (statement t d))) -> preserves R (query_unnamed statement).
Proof.
  intros H w. unfold query_unnamed. pose proof (await_unnamed_preserves w) as Ha.
  destruct (await_unnamed w) as [failed w1]. cbn [snd] in Ha.
  destruct failed; [exact Ha|].
  specialize (H (now w1) (db w1)).
  destruct (statement (now w1) (db w1)) as [r d]. cbn [snd db set_db] in *.
  eapply R_trans; eassumption.
Qed.

Lemma cache_get_preserves code : preserves R (cache_get code).
Proof.
  apply preserves_try; [|intros; apply preserves_ret].
  intros w. unfold redisClient_get. pose proof (await_preserves (CacheGet code) w) as Ha.
  destruct (await (CacheGet code) w) as [[|] w1]; exact Ha.
Qed.

Lemma cache_set_preserves code v : preserves R (cache_set code v).
Proof.
  apply preserves_try; [|intros; apply preserves_ret].
  apply preserves_bind; [|intros; apply preserves_ret].
  intros w. unfold redisClient_setEx. pose proof (await_preserves (CacheSet code) w) as Ha.
  destruct (await (CacheSet code) w) as [[|] w1]; exact Ha.
Qed.

Lemma cache_incr_preserves code : preserves R (cache_incr code).
Proof.
  apply preserves_try; [|intros; apply preserves_ret].
  apply preserves_bind; [|intros; apply preserves_ret].
  intros w. unfold redisClient_incr. pose proof (await_preserves (CacheIncr code) w) as Ha.
  destruct (await (CacheIncr code) w) as [[|] w1]; [exact Ha|].
  destruct (INT64_MAX <=? _)%Z; exact Ha.
Qed.

Lemma cache_del_url_preserves code : preserves R (cache_del_url code).
Proof.
  apply preserves_try; [|intros; apply preserves_ret].
  apply preserves_bind; [|intros; apply preserves_ret].
  intros w. unfold redisClient_del_url. pose proof (await_unnamed_preserves w) as Ha.
  destruct (await_unnamed w) as [[|] w1]; exact Ha.
Qed.

Lemma cache_del_clicks_preserves code : preserves R (cache_del_clicks code).
Proof.
  apply preserves_try; [|intros; apply preserves_ret].
  apply preserves_bind; [|intros; apply preserves_ret].
  intros w. unfold redisClient_del_clicks. pose proof (await_unnamed_preserves w) as Ha.
  destruct (await_unnamed w) as [[|] w1]; exact Ha.
Qed.

Lemma generateShortCodeM_preserves n : preserves R (generateShortCodeM n).
Proof.
  intros w. unfold generateShortCodeM.
  destruct (generateShortCode n (random w)). apply R_refl.
Qed.

Lemma select_preserves {A} ev (f : database -> A) :
  preserves R (query ev (fun _ d => (Ok (f d), d))).
Proof. apply preserves_query. intros; apply R_refl. Qed.

Lemma unique_code_loop_preserves n fuel shortCode attempts :
  preserves R (unique_code_loop n fuel shortCode attempts).
Proof.
  revert shortCode attempts. induction fuel as [|fuel IH]; intros shortCode attempts;
    cbn [unique_code_loop]; [apply preserves_ret|].
  destruct (attempts <? maxAttempts)%nat; [|apply preserves_ret].
  apply preserves_bind; [apply generateShortCodeM_preserves|]. intros code.
  apply preserves_bind; [apply select_preserves|]. intros [|row rows].
  - apply preserves_ret.
  - apply IH.
Qed.

Lemma createShortUrl_preserves new_URL n BASE_URL url :
  preserves R (createShortUrl new_URL n BASE_URL url).
Proof.
  unfold createShortUrl. apply preserves_bind.
  { destruct (isValidUrl new_URL url); [apply preserves_ret | apply preserves_throw]. }
  intros valid. destruct (negb valid); [apply preserves_throw|].
  apply preserves_bind; [apply select_preserves|]. intros [|existing rest].
  - apply preserves_bind; [apply unique_code_loop_preserves|].
    intros [shortCode attempts].
    destruct (attempts =? maxAttempts)%nat; [apply preserves_throw|].
    apply preserves_bind; [apply preserves_query; intros; apply R_insert|].
    intros newUrl.
    apply preserves_bind; [apply cache_set_preserves | intros; apply preserves_ret].
  - apply preserves_bind; [apply cache_set_preserves | intros; apply preserves_ret].
Qed.

Lemma getOriginalUrl_preserves code : preserves R (getOriginalUrl code).
Proof.
  unfold getOriginalUrl. apply preserves_bind; [apply cache_get_preserves|].
  intros [cached|]; [apply preserves_ret|].
  apply preserves_bind; [apply select_preserves|]. intros [|urlData rest].
  - apply preserves_ret.
  - apply preserves_bind; [apply cache_set_preserves | intros; apply preserves_ret].
Qed.

Lemma getUrlStats_preserves code : preserves R (getUrlStats code).
Proof.
  unfold getUrlStats. apply preserves_bind; [apply select_preserves|].
  intros [|stats rest]; [apply preserves_ret|].
  apply preserves_bind; [|intros; apply preserves_ret].
  apply preserves_query_unnamed. intros; apply R_refl.
Qed.

Lemma incrementClickCount_preserves code meta :
  (forall t d, R d (snd (update_clicks code t d))) ->
  (forall ip ua ref t d, R d (snd (insert_click code ip ua ref t d))) ->
  preserves R (incrementClickCount code meta).
Proof.
  intros Hu Hc. unfold incrementClickCount.
  apply preserves_try; [|intros; apply preserves_ret].
  apply preserves_bind; [apply preserves_query, Hu|]. intros _.
  apply preserves_bind.
  { destruct (truthy (ipAddress meta) || truthy (userAgent meta));
      [apply preserves_query; intros; apply Hc | apply preserves_ret]. }
  intros _.
  apply preserves_bind; [apply cache_incr_preserves | intros; apply preserves_ret].
Qed.

Lemma deleteShortUrl_preserves cascade code :
  (forall d, R d (snd (delete_url cascade code d))) ->
  preserves R (deleteShortUrl cascade code).
Proof.
  intros Hd. unfold deleteShortUrl.
  apply preserves_bind; [apply cache_del_url_preserves|]. intros _.
  apply preserves_bind; [apply cache_del_clicks_preserves|]. intros _.
  apply preserves_bind; [|intros; apply preserves_ret].
  apply preserves_query_unnamed. intros _ d. apply Hd.
Qed.

End Preserves.

Section StoreInvariants.

Lemma select_by_code_nil_notin code rows :
  List.filter (fun r => jsstring_eqb (short_code r) code) rows = [] ->
  ~ In code (List.map short_code rows).
Proof.
  induction rows as [|r rows IH]; cbn [List.filter List.map In]; [tauto|].
  destruct (jsstring_eqb (short_code r) code) eqn:E; [discriminate|].
  intros H [Heq|Hin]; [|exact (IH H Hin)].
  unfold jsstring_eqb in E. apply bool_decide_eq_false_1 in E. congruence.
Qed.

Lemma NoDup_map_filter {A B} (f : A -> B) p (l : list A) :
  NoDup (List.map f l) -> NoDup (List.map f (List.filter p l)).
Proof.
  induction l as [|x l IH]; cbn [List.map List.filter]; [auto|].
  intros H. apply NoDup_cons in H as [Hx Hl].
  destruct (p x); [|apply IH, Hl].
  cbn [List.map]. apply NoDup_cons. split; [|apply IH, Hl].
  intros Hin. apply Hx. apply list_elem_of_In. apply list_elem_of_In in Hin.
  apply in_map_iff in Hin as [y [<- Hy]]. apply filter_In in Hy as [Hy _].
  apply in_map, Hy.
Qed.

Lemma short_code_update code t rows :
  List.map short_code
    (List.map (fun r => if jsstring_eqb (short_code r) code
                        then click_row_update t r else r) rows)
  = List.map short_code rows.
Proof.
  induction rows as [|r rows IH]; [reflexivity|]. cbn [List.map].
  rewrite IH. destruct (jsstring_eqb (short_code r) code); reflexivity.
Qed.

Lemma unique_codes_insert c u t d :
  unique_codes d -> unique_codes (snd (insert_url c u t d)).
Proof.
  unfold unique_codes, insert_url. intros H.
  destruct c as [c|]; [|exact H].
  destruct (10 <? length c)%nat; [exact H|].
  destruct (select_by_code c d) eqn:E; [|exact H].
  cbn [snd urls]. rewrite List.map_app. cbn [List.map short_code].
  apply NoDup_app. split; [exact H|]. split.
  - intros x Hx Hx'. apply list_elem_of_In in Hx, Hx'.
    destruct Hx' as [<-|[]]. exact (select_by_code_nil_notin _ _ E Hx).
  - apply NoDup_singleton.
Qed.

Lemma unique_codes_update code t d :
  unique_codes d -> unique_codes (snd (update_clicks code t d)).
Proof.
  unfold unique_codes, update_clicks. intros H.
  destruct (existsb _ _); [exact H|]. cbn [snd urls].
  rewrite short_code_update. exact H.
Qed.

Lemma unique_codes_click code ip ua ref t d :
  unique_codes d -> unique_codes (snd (insert_click code ip ua ref t d)).
Proof.
  unfold unique_codes, insert_click. intros H.
  destruct (_ || _); [exact H|].
  destruct (select_by_code code d); exact H.
Qed.

Lemma unique_codes_delete cascade code d :
  unique_codes d -> unique_codes (snd (delete_url cascade code d)).
Proof.
  unfold unique_codes, delete_url. intros H.
  destruct (select_by_code code d); [exact H|].
  destruct (_ && _); [exact H|]. cbn [snd urls].
  apply NoDup_map_filter, H.
Qed.

Lemma taken_app code d d' rows :
  urls d' = urls d ++ rows -> taken d code = true -> taken d' code = true.
Proof.
  unfold taken, select_by_code. intros -> H. rewrite List.filter_app.
  destruct (List.filter _ (urls d)); [discriminate | reflexivity].
Qed.

Lemma taken_update code code' t d :
  taken {| urls := List.map (fun r => if jsstring_eqb (short_code r) code
                                      then click_row_update t r else r) (urls d);
           clicks := clicks d; urls_id_seq := urls_id_seq d;
           clicks_id_seq := clicks_id_seq d |} code'
  = taken d code'.
Proof.
  unfold taken, select_by_code. cbn [urls].
  induction (urls d) as [|r rows IH]; [reflexivity|]. cbn [List.map List.filter].
  assert (E : short_code (if jsstring_eqb (short_code r) code
                          then click_row_update t r else r) = short_code r)
    by (destruct (jsstring_eqb (short_code r) code); reflexivity).
  rewrite E. destruct (jsstring_eqb (short_code r) code'); [reflexivity|exact IH].
Qed.

Lemma clicks_refer_insert c u t d :
  clicks_refer_to_urls d -> clicks_refer_to_urls (snd (insert_url c u t d)).
Proof.
  unfold clicks_refer_to_urls, insert_url. intros H.
  destruct c as [c|]; [|exact H].
  destruct (10 <? length c)%nat; [exact H|].
  destruct (select_by_code c d) eqn:E; [|exact H].
  cbn [snd clicks]. eapply List.Forall_impl; [|exact H]. cbn beta.
  intros k. eapply taken_app. reflexivity.
Qed.

Lemma clicks_refer_update code t d :
  clicks_refer_to_urls d -> clicks_refer_to_urls (snd (update_clicks code t d)).
Proof.
  unfold clicks_refer_to_urls, update_clicks. intros H.
  destruct (existsb _ _); [exact H|]. cbn [snd clicks].
  eapply List.Forall_impl; [|exact H]. cbn beta.
  intros k. rewrite taken_update. auto.
Qed.

Lemma clicks_refer_click code ip ua ref t d :
  clicks_refer_to_urls d ->
  clicks_refer_to_urls (snd (insert_click code ip ua ref t d)).
Proof.
  unfold clicks_refer_to_urls, insert_click. intros H.
  destruct (_ || _); [exact H|].
  destruct (select_by_code code d) eqn:E; [exact H|]. cbn [snd clicks].
  apply List.Forall_app. split; [exact H|].
  constructor; [|constructor]. cbn [click_short_code].
  unfold taken. cbn [urls select_by_code] in *. unfold select_by_code.
  cbn [urls]. unfold select_by_code in E. rewrite E. reflexivity.
Qed.

Lemma taken_other code code' d cs n m :
  code' <> code ->
  taken {| urls := List.filter (fun r => negb (jsstring_eqb (short_code r) code))
                     (urls d);
           clicks := cs; urls_id_seq := n; clicks_id_seq := m |} code'
  = taken d code'.
Proof.
  intros Hne. unfold taken, select_by_code. cbn [urls].
  rewrite (select_by_code_other code code' (urls d) Hne). reflexivity.
Qed.

Lemma clicks_refer_delete cascade code d :
  clicks_refer_to_urls d ->
  clicks_refer_to_urls (snd (delete_url cascade code d)).
Proof.
  unfold clicks_refer_to_urls, delete_url. intros H.
  destruct (select_by_code code d) eqn:Es; [exact H|].
  destruct (negb cascade && negb (length (clicks_of code d) =? 0)%nat) eqn:Ec;
    [exact H|].
  cbn [snd clicks]. rewrite List.Forall_forall in H.
  apply List.Forall_forall. intros k Hk.
  assert (Hk' : In k (clicks d) /\ click_short_code k <> code).
  { destruct cascade.
    - apply filter_In in Hk as [Hin Hne]. split; [exact Hin|].
      apply negb_true_iff in Hne. unfold jsstring_eqb in Hne.
      apply bool_decide_eq_false_1 in Hne. exact Hne.
    - split; [exact Hk|]. cbn [negb andb] in Ec.
      apply negb_false_iff, Nat.eqb_eq in Ec.
      destruct (clicks_of code d) eqn:Eo; [|discriminate].
      intros Heq. unfold clicks_of in Eo.
      assert (Hin : In k (List.filter
                (fun c => jsstring_eqb (click_short_code c) code) (clicks d))).
      { apply filter_In. split; [exact Hk|].
        unfold jsstring_eqb. apply bool_decide_eq_true_2, Heq. }
      rewrite Eo in Hin. exact Hin. }
  destruct Hk' as [Hin Hne]. rewrite taken_other by exact Hne. apply H, Hin.
Qed.








End StoreInvariants.

(** X17. No service function ever leaves two rows with the same short
    code: if the short codes of [urls] are distinct before a call of
    [createShortUrl], [getOriginalUrl], [incrementClickCount],
    [getUrlStats] or [deleteShortUrl], they are distinct after it, in
    every world (calls that fail and inserts of other requests between
    the calls included) and however the call ends. *)
Theorem unique_codes_kept (new_URL : jsstring -> option URL) (n : nat)
    (BASE_URL url code : jsstring) (meta : metadata) (cascade : bool) (w : world) :
  unique_codes (db w) ->
  unique_codes (db (snd (createShortUrl new_URL n BASE_URL url w)))
  /\ unique_codes (db (snd (getOriginalUrl code w)))
  /\ unique_codes (db (snd (incrementClickCount code meta w)))
  /\ unique_codes (db (snd (getUrlStats code w)))
  /\ unique_codes (db (snd (deleteShortUrl cascade code w))).
Proof.
  intros H.
  pose (R := fun d d' => unique_codes d -> unique_codes d').
  assert (Hrefl : forall d, R d d) by (intros d Hd; exact Hd).
  assert (Htrans : forall a b c, R a b -> R b c -> R a c)
    by (intros a b c Hab Hbc Ha; exact (Hbc (Hab Ha))).
  assert (Hins : forall c u t d, R d (snd (insert_url c u t d)))
    by (intros c u t d; exact (unique_codes_insert c u t d)).
  split; [|split; [|split; [|split]]].
  - exact (createShortUrl_preserves R Hrefl Htrans Hins new_URL n BASE_URL url w H).
  - exact (getOriginalUrl_preserves R Hrefl Htrans Hins code w H).
  - refine (incrementClickCount_preserves R Hrefl Htrans Hins code meta _ _ w H).
    + intros t d; exact (unique_codes_update code t d).
    + intros ip ua ref t d; exact (unique_codes_click code ip ua ref t d).
  - exact (getUrlStats_preserves R Hrefl Htrans Hins code w H).
  - refine (deleteShortUrl_preserves R Hrefl Htrans Hins cascade code _ w H).
    intros d; exact (unique_codes_delete cascade code d).
Qed.

Lemma unique_codes_kept_witness :
  unique_codes (db (snd (createShortUrl example_URL 6 (js "http://sho.rt")
                           (js "https://example.com/c") busy_world))).
Proof.
  refine (proj1 (unique_codes_kept example_URL 6 (js "http://sho.rt")
                   (js "https://example.com/c") (js "000000") browser_click
                   true busy_world _)).
  vm_compute. apply NoDup_cons. split; [|apply NoDup_nil_2].
  intros Hin. apply list_elem_of_In in Hin. destruct Hin.
Defined.

(** X18. No service function ever leaves a click without its mapping:
    if every row of [clicks] refers to a row of [urls] before a call of
    [createShortUrl], [getOriginalUrl], [incrementClickCount],
    [getUrlStats] or [deleteShortUrl] (under either schema), the same
    holds after it, in every world and however the call ends. *)
Theorem clicks_refer_to_urls_kept (new_URL : jsstring -> option URL) (n : nat)
    (BASE_URL url code : jsstring) (meta : metadata) (cascade : bool) (w : world) :
  clicks_refer_to_urls (db w) ->
  clicks_refer_to_urls (db (snd (createShortUrl new_URL n BASE_URL url w)))
  /\ clicks_refer_to_urls (db (snd (getOriginalUrl code w)))
  /\ clicks_refer_to_urls (db (snd (incrementClickCount code meta w)))
  /\ clicks_refer_to_urls (db (snd (getUrlStats code w)))
  /\ clicks_refer_to_urls (db (snd (deleteShortUrl cascade code w))).
Proof.
  intros H.
  pose (R := fun d d' => clicks_refer_to_urls d -> clicks_refer_to_urls d').
  assert (Hrefl : forall d, R d d) by (intros d Hd; exact Hd).
  assert (Htrans : forall a b c, R a b -> R b c -> R a c)
    by (intros a b c Hab Hbc Ha; exact (Hbc (Hab Ha))).
  assert (Hins : forall c u t d, R d (snd (insert_url c u t d)))
    by (intros c u t d; exact (clicks_refer_insert c u t d)).
  split; [|split; [|split; [|split]]].
  - exact (createShortUrl_preserves R Hrefl Htrans Hins new_URL n BASE_URL url w H).
  - exact (getOriginalUrl_preserves R Hrefl Htrans Hins code w H).
  - refine (incrementClickCount_preserves R Hrefl Htrans Hins code meta _ _ w H).
    + intros t d; exact (clicks_refer_update code t d).
    + intros ip ua ref t d; exact (clicks_refer_click code ip ua ref t d).
  - exact (getUrlStats_preserves R Hrefl Htrans Hins code w H).
  - refine (deleteShortUrl_preserves R Hrefl Htrans Hins cascade code _ w H).
    intros d; exact (clicks_refer_delete cascade code d).
Qed.

Lemma clicks_refer_to_urls_kept_witness :
  clicks_refer_to_urls (db (snd (deleteShortUrl false (js "000000") busy_world))).
Proof.
  refine (proj2 (proj2 (proj2 (proj2
    (clicks_refer_to_urls_kept example_URL 6 (js "http://sho.rt")
       (js "https://example.com/c") (js "000000") browser_click
       false busy_world _))))).
  repeat constructor.
Defined.


(** ** What a call that returns has done *)

Section Outcomes.

Lemma bind_Ok {A B} (m : M A) (k : A -> M B) w b w' :
  bind m k w = (Ok b, w') ->
  exists a w1, m w = (Ok a, w1) /\ k a w1 = (Ok b, w').
Proof.
  unfold bind. destruct (m w) as [[a|e] w1]; [|discriminate].
  intros H. exists a, w1. auto.
Qed.

Lemma urls_grow_refl d : urls_grow d d.
Proof. apply incl_refl. Qed.

Lemma urls_grow_trans a b c : urls_grow a b -> urls_grow b c -> urls_grow a c.
Proof. apply incl_tran. Qed.

Lemma urls_grow_insert c u t d : urls_grow d (snd (insert_url c u t d)).
Proof.
  unfold urls_grow, insert_url.
  destruct c as [c|]; [|apply incl_refl].
  destruct (10 <? length c)%nat; [apply incl_refl|].
  destruct (select_by_code c d); [|apply incl_refl].
  cbn [snd urls]. apply incl_appl, incl_refl.
Qed.

Lemma taken_grow code d d' :
  urls_grow d d' -> taken d code = true -> taken d' code = true.
Proof.
  unfold urls_grow, taken, select_by_code. intros Hg H.
  destruct (List.filter _ (urls d)) as [|r rows] eqn:E; [discriminate|].
  assert (Hin : In r (List.filter (fun r => jsstring_eqb (short_code r) code)
                        (urls d'))).
  { assert (Hr : In r (r :: rows)) by (left; reflexivity).
    rewrite <- E in Hr. apply filter_In in Hr as [Hr Hp].
    apply filter_In. split; [apply Hg, Hr | exact Hp]. }
  destruct (List.filter _ (urls d')); [destruct Hin | reflexivity].
Qed.

Lemma await_grow ev w : urls_grow (db w) (db (snd (await ev w))).
Proof. apply await_preserves; [apply urls_grow_refl | apply urls_grow_insert]. Qed.

Lemma cache_set_grow code v w : urls_grow (db w) (db (snd (cache_set code v w))).
Proof.
  apply cache_set_preserves;
    [apply urls_grow_refl | apply urls_grow_trans | apply urls_grow_insert].
Qed.

(** A SELECT that returns has read the store it leaves behind, which
    has every row of the store before. *)
Lemma query_select_Ok {A} ev (f : database -> A) w a w' :
  query ev (fun _ d => (Ok (f d), d)) w = (Ok a, w') ->
  a = f (db w') /\ urls_grow (db w) (db w').
Proof.
  unfold query. pose proof (await_grow ev w) as Hg.
  destruct (await ev w) as [[|] w1]; [discriminate|]. cbn [snd] in Hg.
  intros [= <- <-]. split; [reflexivity | exact Hg].
Qed.

(** An INSERT into [urls] that returns has stored the row it returns
    under a code that no row had. *)
Lemma query_insert_Ok ev c u w row w' :
  query ev (insert_url c u) w = (Ok row, w') ->
  c = Some (short_code row) /\ original_url row = u
  /\ In row (urls (db w')) /\ taken (db w) (short_code row) = false
  /\ urls_grow (db w) (db w').
Proof.
  unfold query. pose proof (await_grow ev w) as Hg.
  destruct (await ev w) as [[|] w1]; [discriminate|]. cbn [snd] in Hg.
  unfold insert_url. destruct c as [c|]; [|discriminate].
  destruct (10 <? length c)%nat; [discriminate|].
  destruct (select_by_code c (db w1)) eqn:E; [|discriminate].
  intros [= <- <-]. cbn [short_code original_url db set_db urls].
  split; [reflexivity|]. split; [reflexivity|]. split.
  { apply in_or_app. right. left. reflexivity. }
  split.
  - destruct (taken (db w) c) eqn:Et; [|reflexivity].
    apply (taken_grow c _ _ Hg) in Et. unfold taken in Et.
    rewrite E in Et. discriminate.
  - eapply urls_grow_trans; [exact Hg|].
    unfold urls_grow. cbn [urls]. apply incl_appl, incl_refl.
Qed.

Lemma createShortUrl_Ok new_URL n BASE_URL url w r w' :
  createShortUrl new_URL n BASE_URL url w = (Ok r, w') ->
  isValidUrl new_URL url = Normal true
  /\ createdOriginalUrl r = normalizeUrl url
  /\ shortUrl r = BASE_URL ++ js "/" ++ createdShortCode r
  /\ (exists row, In row (urls (db w'))
                  /\ short_code row = createdShortCode r
                  /\ original_url row = normalizeUrl url)
  /\ (isNew r = true -> taken (db w) (createdShortCode r) = false)
  /\ (isNew r = false -> createdAt r = None).
Proof.
  intros E. unfold createShortUrl in E.
  apply bind_Ok in E as (valid & w0 & E0 & E).
  destruct (isValidUrl new_URL url) as [valid'|]; [|discriminate].
  cbn in E0. injection E0 as -> <-.
  destruct valid; [|discriminate]. cbn [negb] in E.
  split; [reflexivity|].
  apply bind_Ok in E as (existingUrl & w1 & E1 & E).
  apply query_select_Ok in E1 as [E1 G1].
  destruct existingUrl as [|existing rest].
  - apply bind_Ok in E as ([shortCode attempts] & w2 & E2 & E).
    destruct (attempts =? maxAttempts)%nat; [discriminate|].
    apply bind_Ok in E as (newUrl & w3 & E3 & E).
    apply query_insert_Ok in E3 as (Hc & Hu & Hin & Hfree & G3).
    apply bind_Ok in E as (b & w4 & E4 & E).
    injection E as <- <-. cbn [createdOriginalUrl shortUrl createdShortCode isNew createdAt].
    pose proof (cache_set_grow (default (js "undefined") shortCode)
                  {| originalUrl := original_url newUrl;
                     shortCode := short_code newUrl |} w3) as G4.
    rewrite E4 in G4. cbn [snd] in G4.
    pose proof (unique_code_loop_preserves urls_grow urls_grow_refl urls_grow_trans
                  urls_grow_insert n maxAttempts None 0 w1) as G2.
    rewrite E2 in G2. cbn [snd] in G2.
    split; [exact Hu|]. split; [reflexivity|]. split.
    { exists newUrl. split; [apply G4, Hin|]. split; [reflexivity | exact Hu]. }
    split; [|discriminate]. intros _.
    destruct (taken (db w) (short_code newUrl)) eqn:Et; [|reflexivity].
    apply (taken_grow _ _ _ G1) in Et. apply (taken_grow _ _ _ G2) in Et.
    congruence.
  - apply bind_Ok in E as (b & w4 & E4 & E).
    injection E as <- <-. cbn [createdOriginalUrl shortUrl createdShortCode isNew createdAt].
    pose proof (cache_set_grow (short_code existing)
                  {| originalUrl := original_url existing;
                     shortCode := short_code existing |} w1) as G4.
    rewrite E4 in G4. cbn [snd] in G4.
    assert (Hex : In existing (select_by_url (normalizeUrl url) (db w1)))
      by (rewrite <- E1; left; reflexivity).
    unfold select_by_url in Hex. apply filter_In in Hex as [Hin Heq].
    unfold jsstring_eqb in Heq. apply bool_decide_eq_true_1 in Heq.
    split; [exact Heq|]. split; [reflexivity|]. split.
    { exists existing. split; [apply G4, Hin|]. split; [reflexivity | exact Heq]. }
    split; [discriminate | reflexivity].
Qed.





End Outcomes.

(** X20. Whenever [createShortUrl] returns, in every world (calls of
    other requests and failures of the cache in between included), the
    URL was valid, the result carries the normalized URL and the short
    URL built from [BASE_URL] and the code, and the store has a row that
    maps the returned code to the normalized URL. When the result is
    new, no row had the code before the call. *)
Theorem createShortUrl_returns_stored (new_URL : jsstring -> option URL)
    (n : nat) (BASE_URL url : jsstring) (w : world) (r : created) :
  fst (createShortUrl new_URL n BASE_URL url w) = Ok r ->
  isValidUrl new_URL url = Normal true
  /\ createdOriginalUrl r = normalizeUrl url
  /\ shortUrl r = BASE_URL ++ js "/" ++ createdShortCode r
  /\ (exists row,
        In row (urls (db (snd (createShortUrl new_URL n BASE_URL url w))))
        /\ short_code row = createdShortCode r
        /\ original_url row = normalizeUrl url)
  /\ (isNew r = true -> taken (db w) (createdShortCode r) = false)
  /\ (isNew r = false -> createdAt r = None).
Proof.
  destruct (createShortUrl new_URL n BASE_URL url w) as [res w'] eqn:E.
  cbn [fst snd]. intros ->. exact (createShortUrl_Ok _ _ _ _ _ _ _ E).
Qed.

Lemma createShortUrl_returns_stored_witness :
  exists row,
    In row (urls (db (snd (createShortUrl example_URL 6 (js "http://sho.rt")
                             (js "https://example.com/c/") contended_world))))
    /\ short_code row = js "111111"
    /\ original_url row = normalizeUrl (js "https://example.com/c/").
Proof.
  refine (proj1 (proj2 (proj2 (proj2
    (createShortUrl_returns_stored example_URL 6 (js "http://sho.rt")
       (js "https://example.com/c/") contended_world
       {| createdShortCode := js "111111";
          createdOriginalUrl := js "https://example.com/c";
          shortUrl := js "http://sho.rt/111111";
          createdAt := Some 1000%Z;
          isNew := true |} _))))).
  vm_compute. reflexivity.
Defined.


(** ** The routes *)

Section RouteRuns.
Variable new_URL : jsstring -> option URL.
Variable SHORT_CODE_LENGTH : nat.
Variable BASE_URL : jsstring.

Lemma candidates_code_alphabet len g n code :
  In code (candidates len g n) -> Forall (fun c => In c BASE62_CHARS) code.
Proof.
  revert g. induction n as [|n IH]; intros g; cbn [candidates]; [intros []|].
  destruct (generateShortCode len g) as [c g'] eqn:E. intros [<- | Hin].
  - destruct (generateShortCode_spec len g) as [_ Ha].
    rewrite E in Ha. exact Ha.
  - exact (IH g' Hin).
Qed.

Lemma no_dot_in_code code :
  Forall (fun c => In c BASE62_CHARS) code -> existsb (N.eqb 46) code = false.
Proof.
  induction 1 as [|c code Hc _ IH]; [reflexivity|]. cbn [existsb].
  rewrite IH, orb_false_r. apply N.eqb_neq. intros <-.
  assert (E : existsb (N.eqb 46) BASE62_CHARS = true).
  { apply existsb_exists. exists 46%N. split; [exact Hc | reflexivity]. }
  assert (E' : existsb (N.eqb 46) BASE62_CHARS = false) by (vm_compute; reflexivity).
  congruence.
Qed.

Lemma first_free_Some d codes code :
  first_free d codes = Some code -> In code codes /\ taken d code = false.
Proof.
  unfold first_free. intros H. apply find_some in H as [Hin Ht].
  split; [exact Hin|]. apply negb_true_iff, Ht.
Qed.

(** The world a successful [createShortUrl] leaves, without interference. *)
Lemma created_world url code w :
  isValidUrl new_URL url = Normal true ->
  select_by_url (normalizeUrl url) (db w) = [] ->
  env w = [] ->
  (SHORT_CODE_LENGTH <= 10)%nat ->
  first_free (db w) (candidates SHORT_CODE_LENGTH (random w) maxAttempts)
    = Some code ->
  let run := createShortUrl new_URL SHORT_CODE_LENGTH BASE_URL url w in
  fst run = Ok {| createdShortCode := code;
                  createdOriginalUrl := normalizeUrl url;
                  shortUrl := BASE_URL ++ js "/" ++ code;
                  createdAt := Some (now w);
                  isNew := true |}
  /\ env (snd run) = []
  /\ url_keys (cache (snd run)) !! code
     = Some {| originalUrl := normalizeUrl url; shortCode := code |}
  /\ clicks_keys (cache (snd run)) = clicks_keys (cache w)
  /\ select_by_code code (db (snd run))
     = [{| id := urls_id_seq (db w); short_code := code;
           original_url := normalizeUrl url; created_at := now w;
           click_count := 0; last_accessed := None |}]
  /\ now (snd run) = now w
  /\ (length code <= 10)%nat
  /\ existsb (N.eqb 46) code = false.
Proof.
  intros Hvalid Hnew Hq Hlen Hfree run.
  pose proof (createShortUrl_quiet new_URL SHORT_CODE_LENGTH BASE_URL url w
                Hvalid Hnew Hq Hlen) as Hrun.
  cbn zeta in Hrun. rewrite Hfree in Hrun. fold run in Hrun.
  apply first_free_Some in Hfree as [Hin Ht].
  rewrite Hrun. cbn [fst snd].
  split; [reflexivity|]. split; [exact Hq|].
  split; [cbn; apply lookup_insert_eq|]. split; [reflexivity|]. split.
  { unfold select_by_code. cbn [db set_cache set_db urls].
    rewrite List.filter_app. unfold taken, select_by_code in Ht.
    destruct (List.filter _ (urls (db w))); [|discriminate].
    cbn [List.filter app short_code]. unfold jsstring_eqb.
    rewrite bool_decide_eq_true_2 by reflexivity. reflexivity. }
  split; [reflexivity|]. split.
  - rewrite (candidates_code_length _ _ _ _ Hin). exact Hlen.
  - apply no_dot_in_code. exact (candidates_code_alphabet _ _ _ _ Hin).
Qed.

(** The three routes that take a code, for a code that neither the
    store nor the cache knows, without interference. *)
Lemma routes_unknown cascade code meta w :
  env w = [] ->
  select_by_code code (db w) = [] ->
  url_keys (cache w) !! code = None ->
  (fst (stats_route code w)
     = {| status := 404; payload := ErrorText (js "Short URL not found") |}
   /\ db (snd (stats_route code w)) = db w)
  /\ (fst (delete_route cascade code w)
        = {| status := 404; payload := ErrorText (js "Short URL not found") |}
      /\ db (snd (delete_route cascade code w)) = db w)
  /\ (fst (redirect_route code meta w) = NotFound
      /\ db (snd (redirect_route code meta w)) = db w).
Proof.
  intros Hq Hs Hc.
  assert (E1 : getUrlStats code w = (Ok None, logged [SelectByCode code] w)).
  { rewrite (getUrlStats_quiet code w Hq). rewrite Hs. reflexivity. }
  assert (E2 : deleteShortUrl cascade code w
               = (Ok false,
                  set_db (db w)
                    (set_cache {| url_keys := delete code (url_keys (cache w));
                                  clicks_keys := delete code (clicks_keys (cache w)) |}
                               w))).
  { unfold deleteShortUrl.
    unfold bind at 1. rewrite cache_del_url_quiet by exact Hq.
    unfold bind at 1. rewrite cache_del_clicks_quiet by exact Hq.
    unfold bind at 1. rewrite query_unnamed_quiet by exact Hq.
    cbn [db set_cache now]. unfold delete_url. rewrite Hs. reflexivity. }
  unfold stats_route, delete_route, redirect_route.
  rewrite E1, E2. cbn [fst snd db set_db logged].
  split; [split; reflexivity|]. split; [split; reflexivity|].
  destruct (existsb (N.eqb 46) code); [split; reflexivity|].
  rewrite (getOriginalUrl_miss_absent code w Hq Hc Hs). split; reflexivity.
Qed.

Lemma shorten_route_Some url w :
  url <> [] ->
  shorten_route new_URL SHORT_CODE_LENGTH BASE_URL (Some url) w =
  match createShortUrl new_URL SHORT_CODE_LENGTH BASE_URL url w with
  | (Ok result, w1) =>
      ({| status := if isNew result then 201 else 200;
          payload := ShortenData (createdShortCode result) (shortUrl result)
                       (createdOriginalUrl result) (isNew result) |}, w1)
  | (Err e, w1) => ({| status := 500; payload := ErrorMessage e |}, w1)
  end.
Proof. intros H. destruct url; [congruence | reflexivity]. Qed.

End RouteRuns.

(** X22. A failed cache delete leaves a deleted link alive: when the
    cache is down for the first call of [deleteShortUrl] and an entry of
    the code is cached, the row is deleted and the route answers 200,
    yet the next [getOriginalUrl] still resolves the code, from the
    cache. *)
Theorem deleteShortUrl_leaves_stale_cache (cascade : bool) (code : jsstring)
    (cached : cache_entry) (w : world) :
  env w = [Outage] ->
  url_keys (cache w) !! code = Some cached ->
  taken (db w) code = true ->
  cascade = true \/ clicks_of code (db w) = [] ->
  let deleted := delete_route cascade code w in
  fst deleted
    = {| status := 200; payload := MessageText (js "URL deleted successfully") |}
  /\ select_by_code code (db (snd deleted)) = []
  /\ fst (getOriginalUrl code (snd deleted))
     = Ok (Some {| resolvedOriginalUrl := originalUrl cached;
                   resolvedShortCode := shortCode cached;
                   source := js "cache" |}).
Proof.
  intros He Hc Ht Hcas deleted.
  set (w1 := {| db := db w; cache := cache w; random := random w; now := now w;
                env := []; log := log w |}).
  assert (E1 : cache_del_url code w = (Ok false, w1)).
  { destruct w as [d c g t e l]; cbn in He; subst e. reflexivity. }
  assert (Hq1 : env w1 = []) by reflexivity.
  assert (E : deleteShortUrl cascade code w
              = (Ok true,
                 set_db
                   {| urls := List.filter
                                (fun r => negb (jsstring_eqb (short_code r) code))
                                (urls (db w));
                      clicks := if cascade
                                then List.filter
                                       (fun c => negb (jsstring_eqb (click_short_code c) code))
                                       (clicks (db w))
                                else clicks (db w);
                      urls_id_seq := urls_id_seq (db w);
                      clicks_id_seq := clicks_id_seq (db w) |}
                   (set_cache {| url_keys := url_keys (cache w);
                                 clicks_keys := delete code (clicks_keys (cache w)) |}
                              w1))).
  { unfold deleteShortUrl. unfold bind at 1. rewrite E1.
    unfold bind at 1. rewrite cache_del_clicks_quiet by exact Hq1.
    unfold bind at 1. rewrite query_unnamed_quiet by exact Hq1.
    cbn [db set_cache now w1]. unfold delete_url. unfold taken in Ht.
    destruct (select_by_code code (db w)) as [|row rows]; [discriminate|].
    assert (Ec : negb cascade && negb (length (clicks_of code (db w)) =? 0)%nat = false).
    { destruct Hcas as [-> | ->]; [reflexivity|]. cbn. apply andb_false_r. }
    rewrite Ec. reflexivity. }
  subst deleted. unfold delete_route. rewrite E. cbn [fst snd].
  split; [reflexivity|]. split.
  - unfold select_by_code. cbn [db set_db urls]. apply select_by_code_removed.
  - erewrite (getOriginalUrl_hit code cached _ []); [reflexivity | right; reflexivity|].
    exact Hc.
Qed.

Lemma deleteShortUrl_leaves_stale_cache_witness :
  fst (getOriginalUrl (js "000000")
         (snd (delete_route true (js "000000") stale_world)))
  = Ok (Some {| resolvedOriginalUrl := js "https://example.com/a";
                resolvedShortCode := js "000000";
                source := js "cache" |}).
Proof.
  refine (proj2 (proj2
    (deleteShortUrl_leaves_stale_cache true (js "000000")
       {| originalUrl := js "https://example.com/a"; shortCode := js "000000" |}
       stale_world _ _ _ _))).
  - reflexivity.
  - vm_compute. reflexivity.
  - reflexivity.
  - left. reflexivity.
Defined.


(** X24. A code that neither the store nor the cache knows, without
    interference: GET /api/stats/:shortCode and DELETE /api/url/:shortCode
    answer 404 with the text Short URL not found, GET /:shortCode answers
    not found, and the store is left as it is. *)
Theorem unknown_code_not_found (cascade : bool) (code : jsstring)
    (meta : metadata) (w : world) :
  env w = [] ->
  select_by_code code (db w) = [] ->
  url_keys (cache w) !! code = None ->
  (fst (stats_route code w)
     = {| status := 404; payload := ErrorText (js "Short URL not found") |}
   /\ db (snd (stats_route code w)) = db w)
  /\ (fst (delete_route cascade code w)
        = {| status := 404; payload := ErrorText (js "Short URL not found") |}
      /\ db (snd (delete_route cascade code w)) = db w)
  /\ (fst (redirect_route code meta w) = NotFound
      /\ db (snd (redirect_route code meta w)) = db w).
Proof. apply routes_unknown. Qed.

Lemma unknown_code_not_found_witness :
  fst (redirect_route (js "abcdef") browser_click one_row_world) = NotFound.
Proof.
  refine (proj1 (proj2 (proj2
    (unknown_code_not_found true (js "abcdef") browser_click one_row_world _ _ _)))).
  - reflexivity.
  - reflexivity.
  - reflexivity.
Defined.

(** X25. Deleting is final: without interference, when the schema
    cascades or no click refers to the code, DELETE /api/url/:shortCode
    of a mapped code answers 200, and after it the statistics route, a
    second delete and the redirect of the code all answer not found. *)
Theorem delete_route_is_final (cascade : bool) (code : jsstring)
    (meta : metadata) (w : world) :
  env w = [] ->
  taken (db w) code = true ->
  cascade = true \/ clicks_of code (db w) = [] ->
  let deleted := delete_route cascade code w in
  fst deleted
    = {| status := 200; payload := MessageText (js "URL deleted successfully") |}
  /\ status (fst (stats_route code (snd deleted))) = 404%Z
  /\ status (fst (delete_route cascade code (snd deleted))) = 404%Z
  /\ fst (redirect_route code meta (snd deleted)) = NotFound.
Proof.
  intros Hq Ht Hc deleted.
  assert (E : exists w', deleted
                = ({| status := 200;
                      payload := MessageText (js "URL deleted successfully") |}, w')
              /\ env w' = [] /\ select_by_code code (db w') = []
              /\ url_keys (cache w') !! code = None).
  { subst deleted. unfold delete_route.
    rewrite (deleteShortUrl_quiet cascade code w Hq Hc). rewrite Ht.
    eexists. split; [reflexivity|]. split; [exact Hq|]. split.
    - unfold select_by_code. cbn [db set_db urls]. apply select_by_code_removed.
    - cbn. apply lookup_delete_eq. }
  destruct E as (w' & -> & Hq' & Hs' & Hc'). cbn [fst snd].
  destruct (routes_unknown cascade code meta w' Hq' Hs' Hc')
    as [[H1 _] [[H2 _] [H3 _]]].
  rewrite H1, H2, H3. repeat split.
Qed.

Lemma delete_route_is_final_witness :
  fst (redirect_route (js "000000") browser_click
         (snd (delete_route true (js "000000") clicked_world)))
  = NotFound.
Proof.
  refine (proj2 (proj2 (proj2
    (delete_route_is_final true (js "000000") browser_click clicked_world _ _ _)))).
  - reflexivity.
  - reflexivity.
  - left. reflexivity.
Defined.

(** X26. Shorten, visit, look at the statistics: without interference,
    for a valid URL without a mapping and a free generated code,
    POST /api/shorten answers 201 with the code and the normalized URL,
    GET /:shortCode of that code then redirects with status 301 to the
    normalized URL, and after the visit the statistics route reports one
    click, last accessed at the time of the visit. *)
Theorem shorten_visit_stats (new_URL : jsstring -> option URL) (n : nat)
    (BASE_URL url code : jsstring) (meta : metadata) (w : world) :
  url <> [] ->
  isValidUrl new_URL url = Normal true ->
  select_by_url (normalizeUrl url) (db w) = [] ->
  env w = [] ->
  (n <= 10)%nat ->
  first_free (db w) (candidates n (random w) maxAttempts) = Some code ->
  too_long 45 (ipAddress meta) = false ->
  (default 0 (clicks_keys (cache w) !! code) < INT64_MAX)%Z ->
  let shorten := shorten_route new_URL n BASE_URL (Some url) w in
  let visit := redirect_route code meta (snd shorten) in
  fst shorten
    = {| status := 201;
         payload := ShortenData code (BASE_URL ++ js "/" ++ code)
                      (normalizeUrl url) true |}
  /\ fst visit = Redirect 301 (normalizeUrl url)
  /\ exists stats,
       fst (stats_route code (snd visit))
         = {| status := 200; payload := StatsData stats |}
       /\ stats_short_code stats = code
       /\ stats_original_url stats = normalizeUrl url
       /\ stats_click_count stats = 1%Z
       /\ stats_last_accessed stats = Some (now w).
Proof.
  intros Hne Hvalid Hnew Hq Hlen Hfree Hip Hctr shorten visit.
  destruct (created_world new_URL n BASE_URL url code w Hvalid Hnew Hq Hlen Hfree)
    as (Hres & Hq1 & Hc & Hk & Hsel & Hnow & Hl & Hdot).
  assert (Hs : shorten
               = ({| status := 201;
                     payload := ShortenData code (BASE_URL ++ js "/" ++ code)
                                  (normalizeUrl url) true |},
                  snd (createShortUrl new_URL n BASE_URL url w))).
  { subst shorten. rewrite (shorten_route_Some _ _ _ _ _ Hne).
    destruct (createShortUrl new_URL n BASE_URL url w) as [[r|e] w1];
      cbn [fst snd] in *; [|discriminate].
    injection Hres as ->. reflexivity. }
  set (w1 := snd (createShortUrl new_URL n BASE_URL url w)) in *.
  subst visit. rewrite Hs. cbn [fst snd].
  split; [reflexivity|].
  unfold redirect_route. rewrite Hdot.
  rewrite (getOriginalUrl_hit code _ w1 [] (or_intror Hq1) Hc).
  set (w2 := {| db := db w1; cache := cache w1; random := random w1;
                now := now w1; env := tl (env w1);
                log := log w1 ++ [CacheGet code] |}).
  assert (Hq2 : env w2 = []) by (cbn; rewrite Hq1; reflexivity).
  destruct (incrementClickCount_quiet_urls code meta w2 Hq2) as [Hurls Hq3].
  { cbn [db w2]. rewrite Hsel. discriminate. }
  { cbn [db w2]. rewrite Hsel. constructor; [|constructor].
    cbn. unfold INTEGER_MAX. lia. }
  { exact Hl. }
  { exact Hip. }
  { cbn [cache w2]. rewrite Hk. exact Hctr. }
  destruct (incrementClickCount code meta w2) as [r w3]. cbn [fst snd] in *.
  split; [reflexivity|].
  unfold stats_route. rewrite (getUrlStats_quiet code w3 Hq3).
  assert (E : select_by_code code (db w3)
              = List.map (click_row_update (now w2)) (select_by_code code (db w2))).
  { rewrite <- select_by_code_update. unfold select_by_code. rewrite Hurls.
    reflexivity. }
  rewrite E. cbn [db w2]. rewrite Hsel. cbn [List.map fst].
  eexists. split; [reflexivity|]. cbn. rewrite Hnow. repeat split.
Qed.

Lemma shorten_visit_stats_witness :
  fst (redirect_route (js "222222") browser_click
         (snd (shorten_route example_URL 6 (js "http://sho.rt")
                 (Some (js "https://example.com/c")) two_collisions_world)))
  = Redirect 301 (normalizeUrl (js "https://example.com/c")).
Proof.
  refine (proj1 (proj2
    (shorten_visit_stats example_URL 6 (js "http://sho.rt")
       (js "https://example.com/c") (js "222222") browser_click
       two_collisions_world _ _ _ _ _ _ _ _))).
  - discriminate.
  - reflexivity.
  - reflexivity.
  - reflexivity.
  - lia.
  - reflexivity.
  - reflexivity.
  - reflexivity.
Defined.

(** ** The hash-based code, the bias of the random code, the cache helpers *)

Section HashFacts.

Lemma isLowerHex_In c : isLowerHex c = true -> In c lowerHexDigits.
Proof.
  unfold isLowerHex. intros H.
  assert (D : (48 <= c <= 57 \/ 97 <= c <= 102)%N).
  { apply orb_true_iff in H as [H|H]; apply andb_true_iff in H as [H1 H2];
      apply N.leb_le in H1, H2; lia. }
  assert (E : existsb (N.eqb c) lowerHexDigits = true).
  { assert (C : (c = 48 \/ c = 49 \/ c = 50 \/ c = 51 \/ c = 52 \/ c = 53 \/ c = 54
                 \/ c = 55 \/ c = 56 \/ c = 57 \/ c = 97 \/ c = 98 \/ c = 99
                 \/ c = 100 \/ c = 101 \/ c = 102)%N) by lia.
    repeat (destruct C as [-> | C]; [reflexivity|]). subst c. reflexivity. }
  apply existsb_exists in E as [x [Hx Heq]]. apply N.eqb_eq in Heq. subst x.
  exact Hx.
Qed.

Lemma selects_symbol_all :
  forallb (fun a => forallb (selects_symbol a) lowerHexDigits) lowerHexDigits = true.
Proof. vm_compute. reflexivity. Qed.

Lemma hex_pair_symbol a b :
  isLowerHex a = true -> isLowerHex b = true ->
  exists c, charAt_concat BASE62_CHARS (index_mod_62 (parseInt16 [a; b])) = [c]
            /\ In c BASE62_CHARS.
Proof.
  intros Ha Hb. apply isLowerHex_In in Ha, Hb.
  pose proof selects_symbol_all as H.
  rewrite forallb_forall in H. specialize (H a Ha).
  rewrite forallb_forall in H. specialize (H b Hb).
  unfold selects_symbol in H.
  destruct (charAt_concat BASE62_CHARS (index_mod_62 (parseInt16 [a; b])))
    as [|c [|c' rest]]; try discriminate.
  exists c. split; [reflexivity|].
  apply existsb_exists in H as [x [Hx Heq]]. apply N.eqb_eq in Heq. subst x.
  exact Hx.
Qed.

Lemma In_skipn {A} (x : A) n l : In x (skipn n l) -> In x l.
Proof.
  intros H. rewrite <- (firstn_skipn n l). apply in_or_app. right. exact H.
Qed.

Lemma substr_pair hash i :
  length hash = 32%nat -> (i < 16)%nat ->
  exists a b, substr hash (i * 2) 2 = [a; b] /\ In a hash /\ In b hash.
Proof.
  intros Hl Hi. unfold substr.
  assert (Hs : length (skipn (i * 2) hash) = (32 - i * 2)%nat)
    by (rewrite length_skipn, Hl; reflexivity).
  destruct (skipn (i * 2) hash) as [|a [|b rest]] eqn:E; cbn [length] in Hs;
    try lia.
  exists a, b. split; [reflexivity|].
  split; apply (In_skipn _ (i * 2)); rewrite E; cbn; auto.
Qed.

Lemma substr_beyond hash i :
  length hash = 32%nat -> (16 <= i)%nat -> substr hash (i * 2) 2 = [].
Proof.
  intros Hl Hi. unfold substr. rewrite skipn_all2 by lia. reflexivity.
Qed.

Lemma concat_repeat_snoc {A} (x : list A) n :
  concat (repeat x (S n)) = concat (repeat x n) ++ x.
Proof.
  induction n as [|n IH]; [cbn; rewrite app_nil_r; reflexivity|].
  change (concat (repeat x (S (S n)))) with (x ++ concat (repeat x (S n))).
  rewrite IH at 1. rewrite app_assoc.
  change (x ++ concat (repeat x n)) with (concat (repeat x (S n))).
  reflexivity.
Qed.

Lemma generateHashBasedCode_loop_spec hash :
  is_md5_hex hash ->
  forall n i code,
  exists body,
    generateHashBasedCode_loop hash i n code = code ++ body
    /\ length body = (Nat.min n (16 - i) + 9 * (n - (16 - i)))%nat
    /\ ((i + n <= 16)%nat -> Forall (fun c => In c BASE62_CHARS) body)
    /\ ((16 <= i)%nat -> body = concat (repeat (js "undefined") n)).
Proof.
  intros [Hl Hh]. induction n as [|n IH]; intros i code;
    cbn [generateHashBasedCode_loop].
  - exists []. rewrite app_nil_r. split; [reflexivity|]. split; [cbn; lia|].
    split; [constructor | reflexivity].
  - destruct (IH (S i)
                (code ++ charAt_concat BASE62_CHARS
                           (index_mod_62 (parseInt16 (substr hash (i * 2) 2)))))
      as (body & -> & Hlen & Hall & Hundef).
    destruct (Nat.lt_ge_cases i 16) as [Hi|Hi].
    + destruct (substr_pair hash i Hl Hi) as (a & b & -> & Ha & Hb).
      rewrite List.Forall_forall in Hh.
      destruct (hex_pair_symbol a b (Hh a Ha) (Hh b Hb)) as (c & -> & Hc).
      exists (c :: body). rewrite <- app_assoc. split; [reflexivity|].
      split; [cbn [length]; rewrite Hlen; lia|]. split; [|lia].
      intros Hle. constructor; [exact Hc|]. apply Hall. lia.
    + rewrite (substr_beyond hash i Hl Hi).
      change (charAt_concat BASE62_CHARS (index_mod_62 (parseInt16 [])))
        with (js "undefined").
      exists (js "undefined" ++ body). rewrite <- app_assoc.
      split; [reflexivity|]. split.
      { rewrite length_app, Hlen.
        change (length (js "undefined")) with 9%nat. lia. }
      split; [lia|]. intros _. rewrite (Hundef ltac:(lia)). reflexivity.
Qed.

End HashFacts.

(** X27. [generateHashBasedCode] on a digest of 32 lowercase hex digits:
    when SHORT_CODE_LENGTH is at most 16 the code has that many symbols,
    all of the alphabet; for each position beyond the 16 bytes of the
    digest the text undefined is appended instead of a symbol, so the
    code is longer than SHORT_CODE_LENGTH and ends with that text. *)
Theorem generateHashBasedCode_shape (md5_hex : jsstring -> jsstring)
    (SHORT_CODE_LENGTH : nat) (url : jsstring) :
  is_md5_hex (md5_hex url) ->
  let code := generateHashBasedCode md5_hex SHORT_CODE_LENGTH url in
  length code
    = (Nat.min SHORT_CODE_LENGTH 16 + 9 * (SHORT_CODE_LENGTH - 16))%nat
  /\ ((SHORT_CODE_LENGTH <= 16)%nat -> Forall (fun c => In c BASE62_CHARS) code)
  /\ ((16 < SHORT_CODE_LENGTH)%nat ->
      exists prefix, code = prefix ++ js "undefined").
Proof.
  intros Hmd code. subst code. unfold generateHashBasedCode.
  destruct (generateHashBasedCode_loop_spec (md5_hex url) Hmd SHORT_CODE_LENGTH 0 [])
    as (body & E & Hlen & Hall & _).
  split; [rewrite E; cbn [app]; rewrite Hlen; f_equal; lia|].
  split; [intros H; rewrite E; apply Hall; lia|].
  intros Hgt. clear E Hlen Hall body.
  assert (G : forall n i c,
            (16 <= i)%nat ->
            exists prefix,
              generateHashBasedCode_loop (md5_hex url) i (S n) c
              = prefix ++ js "undefined").
  { intros n i c Hi.
    destruct (generateHashBasedCode_loop_spec (md5_hex url) Hmd (S n) i c)
      as (b & -> & _ & _ & Hu).
    rewrite (Hu Hi). clear Hu. exists (c ++ concat (repeat (js "undefined") n)).
    rewrite <- app_assoc. f_equal. apply concat_repeat_snoc. }
  assert (Split : forall n m i c,
            generateHashBasedCode_loop (md5_hex url) i (n + m) c
            = generateHashBasedCode_loop (md5_hex url) (i + n) m
                (generateHashBasedCode_loop (md5_hex url) i n c)).
  { induction n as [|n IHn]; intros m i c; cbn [generateHashBasedCode_loop Nat.add].
    - rewrite Nat.add_0_r. reflexivity.
    - rewrite IHn. f_equal. lia. }
  replace SHORT_CODE_LENGTH with (16 + S (SHORT_CODE_LENGTH - 17))%nat by lia.
  rewrite Split. apply G. lia.
Qed.

Lemma generateHashBasedCode_shape_witness :
  length (generateHashBasedCode example_md5_hex 6 (js "https://example.com/a"))
  = (Nat.min 6 16 + 9 * (6 - 16))%nat.
Proof.
  refine (proj1 (generateHashBasedCode_shape example_md5_hex 6
                   (js "https://example.com/a") _)).
  split; [reflexivity|]. vm_compute. repeat constructor.
Defined.

(** X28. The random code is not uniform: of the 256 values of a byte,
    five select each of the first eight symbols of the alphabet (0 to 7)
    and four select each of the other 54 symbols, because
    [generateShortCode] reduces each byte modulo 62. *)
Theorem generateShortCode_modulo_bias (k : nat) (c : N) :
  BASE62_CHARS !! k = Some c ->
  length (bytes_giving c) = if (k <? 8)%nat then 5%nat else 4%nat.
Proof.
  intros H.
  do 62 (destruct k as [|k];
         [injection H as <-; vm_compute; reflexivity|]).
  discriminate H.
Qed.

Lemma generateShortCode_modulo_bias_witness :
  length (bytes_giving 55) = 5%nat /\ length (bytes_giving 56) = 4%nat.
Proof.
  split.
  - exact (generateShortCode_modulo_bias 7 55 eq_refl).
  - exact (generateShortCode_modulo_bias 8 56 eq_refl).
Defined.

(** X29. The cache helpers swallow every failure of the cache: in every
    world [get], [set], [del], [incr] and [exists] return normally, and
    when the call fails they return null or false and leave the cache as
    it is. *)
Theorem cache_helpers_never_raise (code : jsstring) (value : cache_entry)
    (w : world) :
  ((exists r, fst (cache_get code w) = Ok r)
   /\ (exists r, fst (cache_set code value w) = Ok r)
   /\ (exists r, fst (cache_del_url code w) = Ok r)
   /\ (exists r, fst (cache_del_clicks code w) = Ok r)
   /\ (exists r, fst (cache_incr code w) = Ok r)
   /\ (exists r, fst (cache_exists_url code w) = Ok r))
  /\ (hd Quiet (env w) = Outage ->
      cache_get code w = (Ok None, snd (cache_get code w))
      /\ cache_set code value w = (Ok false, snd (cache_set code value w))
      /\ cache_del_url code w = (Ok false, snd (cache_del_url code w))
      /\ cache_del_clicks code w = (Ok false, snd (cache_del_clicks code w))
      /\ cache_incr code w = (Ok None, snd (cache_incr code w))
      /\ cache_exists_url code w = (Ok false, snd (cache_exists_url code w))
      /\ cache (snd (cache_get code w)) = cache w
      /\ cache (snd (cache_set code value w)) = cache w
      /\ cache (snd (cache_del_url code w)) = cache w
      /\ cache (snd (cache_del_clicks code w)) = cache w
      /\ cache (snd (cache_incr code w)) = cache w
      /\ cache (snd (cache_exists_url code w)) = cache w).
Proof.
  destruct w as [d c g t e l].
  unfold cache_get, cache_set, cache_del_url, cache_del_clicks, cache_incr,
    cache_exists_url, redisClient_get, redisClient_setEx, redisClient_del_url,
    redisClient_del_clicks, redisClient_incr, redisClient_exists_url,
    try_, bind, ret, await, await_unnamed.
  destruct e as [|[| |c' u] e]; cbn [env hd tl fst snd db cache set_db set_cache];
    (split; [|try discriminate]).
  all: try (repeat split; try (eexists; reflexivity);
            destruct (INT64_MAX <=? _)%Z; eexists; reflexivity).
Qed.

Lemma cache_helpers_never_raise_witness :
  cache_get (js "000000") cache_down_world
  = (Ok None, snd (cache_get (js "000000") cache_down_world)).
Proof.
  refine (proj1 (proj2
    (cache_helpers_never_raise (js "000000")
       {| originalUrl := js "https://example.com/a"; shortCode := js "000000" |}
       cache_down_world) _)).
  reflexivity.
Defined.
